(** * tlibs2 / magdyn: spin-spin correlation (correlation.h)

    A shallow embedding of [CalcCorrelationsFromHamiltonian] and
    [CalcIntensities] from [tlibs2/libs/magdyn/correlation.h].

    Numbers.  The C++ template parameter [t_real] is taken to be the real
    numbers [R] and [t_cplx] is [std::complex<t_real>], a pair of reals.
    Rounding is therefore not modelled: every statement below is about the
    exact-arithmetic reading of the code.

    Containers.  [t_vec]/[t_vec_real] are [std::vector]-like and modelled as
    lists; the dynamically sized [t_mat] is modelled as its two sizes together
    with the element accessor [mat(i, j)].

    Effects.  The only effect besides the in-place update of the band records
    is the warning written to [std::cerr]; the embedding returns the text
    channel as a list of messages next to the new band records. *)

From Stdlib Require Import Reals Lra Lia String Arith Bool List Sorted Permutation.
Import ListNotations.

Local Open Scope R_scope.

(* ------------------------------------------------------------------ *)
(** ** Scalars: [t_real] and [t_cplx] *)
(* ------------------------------------------------------------------ *)

Abbreviation t_real := R (only parsing).

(** [std::complex<t_real>] *)
Record t_cplx : Type := mk_cplx { real : t_real; imag : t_real }.

Module Cplx.

Definition C0 : t_cplx := mk_cplx 0 0.
Definition C1 : t_cplx := mk_cplx 1 0.

(** [s_imag], the imaginary unit *)
Definition s_imag : t_cplx := mk_cplx 0 1.

(** [s_twopi] *)
Definition s_twopi : t_real := 2 * PI.

Definition of_real (r : t_real) : t_cplx := mk_cplx r 0.

Definition add (a b : t_cplx) : t_cplx :=
  mk_cplx (real a + real b) (imag a + imag b).

Definition sub (a b : t_cplx) : t_cplx :=
  mk_cplx (real a - real b) (imag a - imag b).

Definition mul (a b : t_cplx) : t_cplx :=
  mk_cplx (real a * real b - imag a * imag b)
          (real a * imag b + imag a * real b).

Definition opp (a : t_cplx) : t_cplx := mk_cplx (- real a) (- imag a).

(** [std::conj] *)
Definition conj (a : t_cplx) : t_cplx := mk_cplx (real a) (- imag a).

(** mixed operators of [std::complex]: real * complex, complex * real,
    complex / real act on both components *)
Definition rmul (r : t_real) (a : t_cplx) : t_cplx :=
  mk_cplx (r * real a) (r * imag a).

Definition mulr (a : t_cplx) (r : t_real) : t_cplx :=
  mk_cplx (real a * r) (imag a * r).

Definition divr (a : t_cplx) (r : t_real) : t_cplx :=
  mk_cplx (real a / r) (imag a / r).

(** complex / complex *)
Definition div (a b : t_cplx) : t_cplx :=
  divr (mul a (conj b)) (real b * real b + imag b * imag b).

(** [std::abs] of a complex number *)
Definition abs (a : t_cplx) : t_real :=
  sqrt (real a * real a + imag a * imag a).

(** [std::exp] of a complex number *)
Definition cexp (a : t_cplx) : t_cplx :=
  mk_cplx (exp (real a) * cos (imag a)) (exp (real a) * sin (imag a)).

(** [std::sqrt] of a complex number: the principal square root, with the
    branch cut along the negative real axis *)
Definition csqrt (a : t_cplx) : t_cplx :=
  let re := sqrt ((abs a + real a) / 2) in
  let im := sqrt ((abs a - real a) / 2) in
  if Rlt_dec (imag a) 0 then mk_cplx re (- im) else mk_cplx re im.

(** [for(i = 0; i < n; ++i) val += f(i);] starting from zero *)
Fixpoint sum (f : nat -> t_cplx) (n : nat) : t_cplx :=
  match n with
  | O => C0
  | S k => add (sum f k) (f k)
  end.

End Cplx.

(** the same accumulation loop over [t_real] *)
Fixpoint Rsum (f : nat -> t_real) (n : nat) : t_real :=
  match n with
  | O => 0
  | S k => Rsum f k + f k
  end.

(** [a >= b] on [t_real] as a boolean *)
Definition Rgeb (a b : t_real) : bool :=
  if Rge_dec a b then true else false.

(* ------------------------------------------------------------------ *)
(** ** Vectors and matrices of tlibs2 *)
(* ------------------------------------------------------------------ *)

Definition t_vec : Type := list t_cplx.
Definition t_vec_real : Type := list t_real.

(** Modelled from the spec: the dense matrix type of tlibs2 (maths.h), a
    dynamically sized matrix with [size1()] rows, [size2()] columns and the
    accessor [operator()(i, j)]. *)
Record mat (T : Type) : Type := mk_mat
  { size1 : nat; size2 : nat; elem : nat -> nat -> T }.

Arguments mk_mat {T} _ _ _.
Arguments size1 {T} _.
Arguments size2 {T} _.
Arguments elem {T} _ _ _.

Definition t_mat : Type := mat t_cplx.
Definition t_mat_real : Type := mat t_real.

Module tl2.

(** [vec[i]]; reading past the end of a [std::vector] is undefined in C++
    and gives zero here *)
Definition at_ (v : t_vec) (i : nat) : t_cplx := nth i v Cplx.C0.
Definition at_real (v : t_vec_real) (i : nat) : t_real := nth i v 0.

(** Modelled from the spec: the assignment [mat(i, j) = v] through the
    accessor of the matrix type. *)
Definition set_elem {T} (m : mat T) (i j : nat) (v : T) : mat T :=
  mk_mat (size1 m) (size2 m)
    (fun a b => if (a =? i)%nat && (b =? j)%nat then v else elem m a b).

(** Modelled from the spec: [tl2::zero<t_mat>(rows, cols)] of maths.h, "reset
    that band's S and S_perp to zero". *)
Definition zero (rows cols : nat) : t_mat :=
  mk_mat rows cols (fun _ _ => Cplx.C0).

(** Modelled from the spec: [tl2::create<t_mat>(rows, cols)] of maths.h, a
    value-initialised matrix of the given sizes. *)
Definition create (rows cols : nat) : t_mat := zero rows cols.

(** Modelled from the spec: [tl2::unit<t_mat>(n)] of maths.h, the unit
    matrix. *)
Definition unit (n : nat) : t_mat :=
  mk_mat n n (fun i j => if (i =? j)%nat then Cplx.C1 else Cplx.C0).

(** Modelled from the spec: [mat1 * mat2] of maths.h, the matrix product;
    the accumulation runs over the columns of [mat1]. *)
Definition mul (a b : t_mat) : t_mat :=
  mk_mat (size1 a) (size2 b)
    (fun i j => Cplx.sum (fun k => Cplx.mul (elem a i k) (elem b k j)) (size2 a)).

(** Modelled from the spec: [tl2::herm] of maths.h, the "Hermitian
    conjugate". *)
Definition herm (a : t_mat) : t_mat :=
  mk_mat (size2 a) (size1 a) (fun i j => Cplx.conj (elem a j i)).

(** Modelled from the spec: [mat *= scalar] of maths.h (tl2_ops) with a
    real scalar, "multiply S by" a factor. *)
Definition scale (a : t_mat) (r : t_real) : t_mat :=
  mk_mat (size1 a) (size2 a) (fun i j => Cplx.mulr (elem a i j) r).

(** Modelled from the spec: [tl2::trace<t_mat>] of maths.h. *)
Definition trace (a : t_mat) : t_cplx :=
  Cplx.sum (fun i => elem a i i) (Nat.min (size1 a) (size2 a)).

(** Modelled from the spec: [tl2::inner<t_vec_real>] of maths.h, the scalar
    product [Q.(r_j - r_i)]. *)
Definition inner (a b : t_vec_real) : t_real :=
  Rsum (fun i => at_real a i * at_real b i) (length a).

(** Modelled from the spec: [tl2::norm<t_vec_real>] of maths.h, the
    "absolute inverse-length magnitude". *)
Definition norm (a : t_vec_real) : t_real := sqrt (inner a a).

(** Modelled from the spec: [vec1 - vec2] of maths.h (tl2_ops) on real
    vectors. *)
Definition vec_sub (a b : t_vec_real) : t_vec_real :=
  map (fun i => at_real a i - at_real b i) (seq 0 (length a)).

(** Modelled from the spec: [mat * vec] of maths.h for the real types, the
    "crystal metric transform". *)
Definition mul_vec_real (m : t_mat_real) (v : t_vec_real) : t_vec_real :=
  map (fun i => Rsum (fun k => elem m i k * at_real v k) (size2 m))
      (seq 0 (size1 m)).

(** Modelled from the spec: [tl2::create<t_mat>(std::vector<t_vec>)] of
    maths.h, "assemble them as columns of V". *)
Definition create_cols (vecs : list t_vec) : t_mat :=
  mk_mat (length (hd [] vecs)) (length vecs)
    (fun i j => at_ (nth j vecs []) i).

(** Modelled from the spec: [tl2::reorder] of algos.h, "reorder eigenvectors
    per EnergySorter": element [i] of the result is [vec[perm[i]]]. *)
Definition reorder {T} (dflt : T) (vec : list T) (perm : list nat) : list T :=
  map (fun i => nth (nth i perm O) vec dflt) (seq 0 (length vec)).

(** insertion of index [x] in front of the first index it compares
    before *)
Fixpoint insert (cmp : nat -> nat -> bool) (x : nat) (l : list nat) : list nat :=
  match l with
  | [] => [x]
  | y :: l' => if cmp x y then x :: y :: l' else y :: insert cmp x l'
  end.

(** Modelled from the spec: [tl2::get_perm] of algos.h, "a permutation of
    band indices" of [0 .. num_elems-1] ordered by the comparator.  The
    tie-break is left open by the spec; this model inserts the indices one
    after the other. *)
Definition get_perm (num_elems : nat) (cmp : nat -> nat -> bool) : list nat :=
  fold_left (fun acc x => insert cmp x acc) (seq 0 num_elems) [].

(** Modelled from the spec: [tl2::set_submat] of maths.h, which places the
    block [sub] into [m] with its upper-left corner at [(row, col)]. *)
Definition set_submat (m sub : t_mat) (row col : nat) : t_mat :=
  mk_mat (size1 m) (size2 m)
    (fun i j =>
       if (row <=? i)%nat && (i <? row + size1 sub)%nat &&
          (col <=? j)%nat && (j <? col + size2 sub)%nat
       then elem sub (i - row) (j - col)
       else elem m i j).

(** Modelled from the spec: [tl2::ortho_projector] of maths.h, "the
    orthogonal projector onto the plane perpendicular to Q (a real
    operator)": [1 - |Q><Q| / <Q|Q>] for a vector that is not normalised. *)
Definition ortho_projector (q : t_vec_real) : t_mat :=
  mk_mat (length q) (length q)
    (fun i j =>
       Cplx.sub (elem (unit (length q)) i j)
                (Cplx.of_real (at_real q i * at_real q j / inner q q))).

End tl2.

(* ------------------------------------------------------------------ *)
(** ** Library routines of tlibs2 whose results the spec leaves open *)
(* ------------------------------------------------------------------ *)

(** The matrix inversion [tl2::inv] (maths.h), the occupation factor
    [tl2::bose_cutoff] (phys.h) and the expression parser [tl2::ExprParser]
    (expr.h) are used by correlation.h through their interface only: the
    inversion returns a matrix together with a success flag, the occupation
    factor is "a function of (E, temperature, cutoff)", and the parser keeps
    registered variables and evaluates the configured expression. *)
Class tl2_externals : Type := {
  (** [tl2::inv]: (inverse, ok) *)
  inv : t_mat -> t_mat * bool;
  (** [tl2::bose_cutoff(E, T, E_cutoff)] *)
  bose_cutoff : t_real -> t_real -> t_real -> t_real;
  (** [tl2::ExprParser<t_cplx>] *)
  ExprParser : Type;
  (** [ExprParser::register_var(name, value)] *)
  register_var : ExprParser -> string -> t_real -> ExprParser;
  (** [ExprParser::eval()]: [None] when evaluation raises *)
  eval : ExprParser -> option t_cplx;
  (** the value handed back in place of a raised error *)
  eval_fallback : t_cplx
}.

(** Modelled from the spec: [ExprParser::eval_noexcept] of expr.h, the
    "non-throwing evaluation contract (malformed/undefined expressions must
    not raise -- they yield a defined fallback)". *)
Definition eval_noexcept `{tl2_externals} (p : ExprParser) : t_cplx :=
  match eval p with
  | Some v => v
  | None => eval_fallback
  end.

(* ------------------------------------------------------------------ *)
(** ** Data model of magdyn.h used by correlation.h *)
(* ------------------------------------------------------------------ *)

(** Modelled from the spec: [struct MagneticSite] of magdyn.h, reduced to
    the members read by the correlation code: position, spin magnitude and
    the vectors [u] and [u*]. *)
Record MagneticSite : Type := mk_MagneticSite {
  pos_calc : t_vec_real;
  spin_mag_calc : t_real;
  ge_trafo_plane_calc : t_vec;
  ge_trafo_plane_conj_calc : t_vec
}.

(** Modelled from the spec: [struct EnergyAndWeight] of magdyn.h, "one
    record per magnon band"; its members keep their names inside a module of
    the same name. *)
Module EnergyAndWeight.

Record t : Type := mk {
  E : t_real;
  S : t_mat;
  S_perp : t_mat;
  S_sum : t_cplx;
  S_perp_sum : t_cplx;
  weight_full : t_real;
  weight : t_real
}.

(** a value-initialised record, [EnergyAndWeight{}] *)
Definition init : t :=
  mk 0 (tl2.zero 0 0) (tl2.zero 0 0) Cplx.C0 Cplx.C0 0 0.

End EnergyAndWeight.

Definition EnergiesAndWeights : Type := list EnergyAndWeight.t.

Definition MagneticSite_init : MagneticSite :=
  mk_MagneticSite [] 0 [] [].

(** what is written to [std::cerr] *)
Inductive cerr_line : Type :=
  | Inversion_failed_at_Q (Qvec : t_vec_real).

(** [vec[i] = f(vec[i])] on a [std::vector]; nothing happens out of range *)
Fixpoint modify_nth {A} (l : list A) (i : nat) (f : A -> A) : list A :=
  match l, i with
  | [], _ => []
  | a :: l', O => f a :: l'
  | a :: l', S i' => a :: modify_nth l' i' f
  end.

Section Magdyn.

Context `{tl2_externals}.

(** Modelled from the spec: the members of the [MagDyn] object (magdyn.h)
    read by the two routines: the sites and the "read-only shared
    configuration". *)
Record MagDyn : Type := mk_MagDyn {
  m_sites : list MagneticSite;
  m_phase_sign : t_real;
  m_temperature : t_real;
  m_bose_cutoff : t_real;
  m_magffact_formula : string;
  m_magffact : ExprParser;
  m_xtalB : t_mat_real
}.

Variable self : MagDyn.

(** Modelled from the spec: [GetMagneticSitesCount] of magdyn.h, the "site
    count". *)
Definition GetMagneticSitesCount : nat := length (m_sites self).

(** Modelled from the spec: [GetMagneticSite] of magdyn.h, the site
    "referenced by index". *)
Definition GetMagneticSite (i : nat) : MagneticSite :=
  nth i (m_sites self) MagneticSite_init.

(** *** CalcCorrelationsFromHamiltonian *)

(** lines 89-95: the sorting of the energies; the comparator is
    [energies[idx1].E >= energies[idx2].E] *)
Definition energy_sorting (energies_and_correlations : EnergiesAndWeights)
  : list nat :=
  tl2.get_perm (length energies_and_correlations)
    (fun idx1 idx2 =>
       Rgeb (EnergyAndWeight.E
               (nth idx1 energies_and_correlations EnergyAndWeight.init))
            (EnergyAndWeight.E
               (nth idx2 energies_and_correlations EnergyAndWeight.init))).

(** line 97: [evec_mat] *)
Definition evec_mat_of (energies_and_correlations : EnergiesAndWeights)
  (evecs : list t_vec) : t_mat :=
  tl2.create_cols
    (tl2.reorder [] evecs (energy_sorting energies_and_correlations)).

(** line 101: [energy_mat = evec_mat_herm * H_mat * evec_mat] *)
Definition energy_mat_of (H_mat evec_mat : t_mat) : t_mat :=
  tl2.mul (tl2.mul (tl2.herm evec_mat) H_mat) evec_mat.

(** lines 102-104: [E_sqrt] *)
Definition E_sqrt_of (g_sign energy_mat : t_mat) : t_mat :=
  let E_sqrt := tl2.mul g_sign energy_mat in
  fold_left
    (fun (m : t_mat) i => tl2.set_elem m i i (Cplx.csqrt (elem m i i)))
    (seq 0 (size1 E_sqrt)) E_sqrt.

(** lines 107-118: the band records are cleared and re-created *)
Definition recreate_energies (energy_mat : t_mat) : EnergiesAndWeights :=
  fold_left
    (fun (acc : EnergiesAndWeights) i =>
       acc ++ [ {| EnergyAndWeight.E := real (elem energy_mat i i);
                   EnergyAndWeight.S := tl2.zero 3 3;
                   EnergyAndWeight.S_perp := tl2.zero 3 3;
                   EnergyAndWeight.S_sum := Cplx.C0;
                   EnergyAndWeight.S_perp_sum := Cplx.C0;
                   EnergyAndWeight.weight_full := 0;
                   EnergyAndWeight.weight := 0 |} ])
    (seq 0 (size1 energy_mat)) [].

(** line 129: [trafo = chol_inv * evec_mat * E_sqrt] *)
Definition trafo_of (chol_inv evec_mat E_sqrt : t_mat) : t_mat :=
  tl2.mul (tl2.mul chol_inv evec_mat) E_sqrt.

(** the four blocks of equation (44) *)
Record site_blocks : Type := mk_site_blocks {
  M00 : t_mat; M0N : t_mat; MN0 : t_mat; MNN : t_mat
}.

(** lines 156-175: the body of the loop over the site pairs *)
Definition site_pair_body (Qvec : t_vec_real) (x_idx y_idx : nat)
  (b : site_blocks) (i j : nat) : site_blocks :=
  let s_i := GetMagneticSite i in
  let s_j := GetMagneticSite j in
  let u_i := ge_trafo_plane_calc s_i in
  let u_j := ge_trafo_plane_calc s_j in
  let uc_i := ge_trafo_plane_conj_calc s_i in
  let uc_j := ge_trafo_plane_conj_calc s_j in
  let S_mag := sqrt (spin_mag_calc s_i * spin_mag_calc s_j) in
  let phase :=
    Cplx.cexp
      (Cplx.mulr
         (Cplx.mulr (Cplx.rmul (- m_phase_sign self) Cplx.s_imag) Cplx.s_twopi)
         (tl2.inner (tl2.vec_sub (pos_calc s_j) (pos_calc s_i)) Qvec)) in
  let pre := Cplx.mulr phase S_mag in
  {| M00 := tl2.set_elem (M00 b) i j
              (Cplx.mul (Cplx.mul pre (tl2.at_ u_i x_idx)) (tl2.at_ uc_j y_idx));
     M0N := tl2.set_elem (M0N b) i j
              (Cplx.mul (Cplx.mul pre (tl2.at_ u_i x_idx)) (tl2.at_ u_j y_idx));
     MN0 := tl2.set_elem (MN0 b) i j
              (Cplx.mul (Cplx.mul pre (tl2.at_ uc_i x_idx)) (tl2.at_ uc_j y_idx));
     MNN := tl2.set_elem (MNN b) i j
              (Cplx.mul (Cplx.mul pre (tl2.at_ uc_i x_idx)) (tl2.at_ u_j y_idx)) |}.

(** lines 148-176: the four blocks after the loops over [i] and [j] *)
Definition site_blocks_of (Qvec : t_vec_real) (x_idx y_idx : nat) : site_blocks :=
  let N := GetMagneticSitesCount in
  fold_left
    (fun b i =>
       fold_left (fun b j => site_pair_body Qvec x_idx y_idx b i j) (seq 0 N) b)
    (seq 0 N)
    {| M00 := tl2.create N N; M0N := tl2.create N N;
       MN0 := tl2.create N N; MNN := tl2.create N N |}.

(** lines 179-181: the matrix [M] of equation (47) *)
Definition M_of (Qvec : t_vec_real) (x_idx y_idx : nat) : t_mat :=
  let N := GetMagneticSitesCount in
  let b := site_blocks_of Qvec x_idx y_idx in
  let M := tl2.create (2 * N) (2 * N) in
  let M := tl2.set_submat M (M00 b) 0 0 in
  let M := tl2.set_submat M (M0N b) 0 N in
  let M := tl2.set_submat M (MN0 b) N 0 in
  tl2.set_submat M (MNN b) N N.

(** [E_and_S.S(x_idx, y_idx) += v] *)
Definition add_to_S (x_idx y_idx : nat) (v : t_cplx) (b : EnergyAndWeight.t)
  : EnergyAndWeight.t :=
  {| EnergyAndWeight.E := EnergyAndWeight.E b;
     EnergyAndWeight.S :=
       tl2.set_elem (EnergyAndWeight.S b) x_idx y_idx
         (Cplx.add (elem (EnergyAndWeight.S b) x_idx y_idx) v);
     EnergyAndWeight.S_perp := EnergyAndWeight.S_perp b;
     EnergyAndWeight.S_sum := EnergyAndWeight.S_sum b;
     EnergyAndWeight.S_perp_sum := EnergyAndWeight.S_perp_sum b;
     EnergyAndWeight.weight_full := EnergyAndWeight.weight_full b;
     EnergyAndWeight.weight := EnergyAndWeight.weight b |}.

(** lines 183-195: one pass of the coordinate loop *)
Definition coordinate_body (trafo : t_mat) (Qvec : t_vec_real)
  (x_idx y_idx : nat) (energies_and_correlations : EnergiesAndWeights)
  : EnergiesAndWeights :=
  let M := M_of Qvec x_idx y_idx in
  let M_trafo := tl2.mul (tl2.mul (tl2.herm trafo) M) trafo in
  fold_left
    (fun acc i =>
       modify_nth acc i
         (add_to_S x_idx y_idx
            (Cplx.divr (elem M_trafo i i) (INR (size1 M)))))
    (seq 0 (length energies_and_correlations))
    energies_and_correlations.

(** lines 144-196: the loops over [x_idx] and [y_idx] *)
Definition coordinate_loop (trafo : t_mat) (Qvec : t_vec_real)
  (energies_and_correlations : EnergiesAndWeights) : EnergiesAndWeights :=
  fold_left
    (fun acc x_idx =>
       fold_left (fun acc y_idx => coordinate_body trafo Qvec x_idx y_idx acc)
                 (seq 0 3) acc)
    (seq 0 3) energies_and_correlations.

(** lines 79-197.  The result is the new content of
    [energies_and_correlations] and the lines written to [std::cerr]. *)
Definition CalcCorrelationsFromHamiltonian
  (energies_and_correlations : EnergiesAndWeights)
  (H_mat chol_mat g_sign : t_mat) (Qvec : t_vec_real) (evecs : list t_vec)
  : EnergiesAndWeights * list cerr_line :=
  let N := GetMagneticSitesCount in
  if (N =? 0)%nat then (energies_and_correlations, [])
  else
    let evec_mat := evec_mat_of energies_and_correlations evecs in
    let energy_mat := energy_mat_of H_mat evec_mat in
    let E_sqrt := E_sqrt_of g_sign energy_mat in
    let energies_and_correlations := recreate_energies energy_mat in
    let '(chol_inv, inv_ok) := inv chol_mat in
    let cerr := if inv_ok then [] else [Inversion_failed_at_Q Qvec] in
    let trafo := trafo_of chol_inv evec_mat E_sqrt in
    (coordinate_loop trafo Qvec energies_and_correlations, cerr).

(** *** CalcIntensities *)

(** lines 214-240: the body of the loop over the bands; the parser
    [magffact] is a local of the routine that lives across the iterations *)
Definition intensity_body (Q_rlu : t_vec_real) (magffact : ExprParser)
  (E_and_S : EnergyAndWeight.t) : EnergyAndWeight.t * ExprParser :=
  let S_bose :=
    if Rge_dec (m_temperature self) 0
    then tl2.scale (EnergyAndWeight.S E_and_S)
           (bose_cutoff (EnergyAndWeight.E E_and_S)
              (m_temperature self) (m_bose_cutoff self))
    else EnergyAndWeight.S E_and_S in
  let '(S_ff, magffact) :=
    if negb (String.eqb (m_magffact_formula self) "")
    then
      let Q_invA := tl2.mul_vec_real (m_xtalB self) Q_rlu in
      let Q_abs := tl2.norm Q_invA in
      let magffact := register_var magffact "Q" Q_abs in
      let ffact := real (eval_noexcept magffact) in
      (tl2.scale S_bose ffact, magffact)
    else (S_bose, magffact) in
  let proj_neutron := tl2.ortho_projector Q_rlu in
  let S_perp' := tl2.mul (tl2.mul proj_neutron S_ff) proj_neutron in
  let S_sum' := tl2.trace S_ff in
  let S_perp_sum' := tl2.trace S_perp' in
  ({| EnergyAndWeight.E := EnergyAndWeight.E E_and_S;
      EnergyAndWeight.S := S_ff;
      EnergyAndWeight.S_perp := S_perp';
      EnergyAndWeight.S_sum := S_sum';
      EnergyAndWeight.S_perp_sum := S_perp_sum';
      EnergyAndWeight.weight_full := Rabs (real S_sum');
      EnergyAndWeight.weight := Rabs (real S_perp_sum') |}, magffact).

(** the range-based loop of line 212 *)
Fixpoint intensity_loop (Q_rlu : t_vec_real) (magffact : ExprParser)
  (energies_and_correlations : EnergiesAndWeights) : EnergiesAndWeights :=
  match energies_and_correlations with
  | [] => []
  | E_and_S :: rest =>
      let '(E_and_S', magffact') := intensity_body Q_rlu magffact E_and_S in
      E_and_S' :: intensity_loop Q_rlu magffact' rest
  end.

(** lines 206-261 *)
Definition CalcIntensities (Q_rlu : t_vec_real)
  (energies_and_correlations : EnergiesAndWeights) : EnergiesAndWeights :=
  let magffact := m_magffact self in
  intensity_loop Q_rlu magffact energies_and_correlations.

End Magdyn.

(* ------------------------------------------------------------------ *)
(** ** Notions used in the statements *)
(* ------------------------------------------------------------------ *)

(** the record pushed for band [i] in lines 110-117 *)
Definition fresh_band (energy_mat : t_mat) (i : nat) : EnergyAndWeight.t :=
  EnergyAndWeight.mk (real (elem energy_mat i i)) (tl2.zero 3 3) (tl2.zero 3 3)
    Cplx.C0 Cplx.C0 0 0.

(** [for(j = 0; j < n; ++j) m(i, j) = v(j);] *)
Definition fill_row (v : nat -> t_cplx) (i n : nat) (m : t_mat) : t_mat :=
  fold_left (fun m j => tl2.set_elem m i j (v j)) (seq 0 n) m.

(** [for(i = 0; i < n1; ++i) for(j = 0; j < n2; ++j) m(i, j) = v(i, j);] *)
Definition fill (v : nat -> nat -> t_cplx) (n1 n2 : nat) (m : t_mat) : t_mat :=
  fold_left (fun m i => fill_row (v i) i n2 m) (seq 0 n1) m.

(** [a] is placed before [b] by the comparator *)
Definition before (cmp : nat -> nat -> bool) (a b : nat) : Prop :=
  cmp a b = true.

(** [v^H * A * v] *)
Definition quad_form (A : t_mat) (v : t_vec) : t_cplx :=
  Cplx.sum (fun i => Cplx.sum (fun j =>
    Cplx.mul (Cplx.mul (Cplx.conj (tl2.at_ v i)) (elem A i j)) (tl2.at_ v j))
    (size2 A)) (size1 A).

(** positive semi-definite: the quadratic form has a non-negative real
    part; Hermitian matrices without negative eigenvalue are of this kind *)
Definition pos_semidef (A : t_mat) : Prop :=
  forall v : t_vec, 0 <= real (quad_form A v).

(** [A = A^H], entry by entry *)
Definition hermitian (A : t_mat) : Prop :=
  forall i j, elem A i j = Cplx.conj (elem A j i).

(** the real quadratic form of a 3x3 array of reals *)
Definition qf3 (a : nat -> nat -> R) (v : nat -> R) : R :=
  Rsum (fun i => Rsum (fun j => v i * v j * a i j) 3) 3.

(** row [k] of the projector [1 - |q><q| / <q|q>] *)
Definition proj_row (q0 q1 q2 : R) (k i : nat) : R :=
  (if (k =? i)%nat then 1 else 0) -
  nth k [q0; q1; q2] 0 * nth i [q0; q1; q2] 0 / (0 + q0 * q0 + q1 * q1 + q2 * q2).

(** two matrices agree on their upper-left [n x n] corner *)
Definition eq_on (n : nat) (A B : t_mat) : Prop :=
  forall i j, (i < n)%nat -> (j < n)%nat -> elem A i j = elem B i j.

Section Notions.

Context `{tl2_externals}.
Variable self : MagDyn.

(** what line 193-194 adds to [S(x_idx, y_idx)] of band [k] *)
Definition band_term (trafo : t_mat) (Qvec : t_vec_real) (x_idx y_idx k : nat)
  : t_cplx :=
  Cplx.divr
    (elem (tl2.mul (tl2.mul (tl2.herm trafo) (M_of self Qvec x_idx y_idx)) trafo) k k)
    (INR (size1 (M_of self Qvec x_idx y_idx))).

(** the transform [T] of equation (34) as the routine computes it *)
Definition trafo_at (energies : EnergiesAndWeights)
  (H_mat chol_mat g_sign : t_mat) (evecs : list t_vec) : t_mat :=
  let V := evec_mat_of energies evecs in
  trafo_of (fst (inv chol_mat)) V (E_sqrt_of g_sign (energy_mat_of H_mat V)).

(** [exp(-sign * i * 2 pi * Q.(r_j - r_i))] *)
Definition phase_of (Qvec : t_vec_real) (i j : nat) : t_cplx :=
  Cplx.cexp
    (mk_cplx 0
       (- (m_phase_sign self * (2 * PI) *
           tl2.inner (tl2.vec_sub (pos_calc (GetMagneticSite self j))
                                  (pos_calc (GetMagneticSite self i))) Qvec))).

(** [phase * sqrt(S_i * S_j)] *)
Definition prefactor_of (Qvec : t_vec_real) (i j : nat) : t_cplx :=
  Cplx.mulr (phase_of Qvec i j)
    (sqrt (spin_mag_calc (GetMagneticSite self i) *
           spin_mag_calc (GetMagneticSite self j))).

Definition u_of (i x : nat) : t_cplx :=
  tl2.at_ (ge_trafo_plane_calc (GetMagneticSite self i)) x.

Definition uc_of (i x : nat) : t_cplx :=
  tl2.at_ (ge_trafo_plane_conj_calc (GetMagneticSite self i)) x.

(** the entries of the four blocks of equation (44) *)
Definition entry00 (Qvec : t_vec_real) (x_idx y_idx i j : nat) : t_cplx :=
  Cplx.mul (Cplx.mul (prefactor_of Qvec i j) (u_of i x_idx)) (uc_of j y_idx).
Definition entry0N (Qvec : t_vec_real) (x_idx y_idx i j : nat) : t_cplx :=
  Cplx.mul (Cplx.mul (prefactor_of Qvec i j) (u_of i x_idx)) (u_of j y_idx).
Definition entryN0 (Qvec : t_vec_real) (x_idx y_idx i j : nat) : t_cplx :=
  Cplx.mul (Cplx.mul (prefactor_of Qvec i j) (uc_of i x_idx)) (uc_of j y_idx).
Definition entryNN (Qvec : t_vec_real) (x_idx y_idx i j : nat) : t_cplx :=
  Cplx.mul (Cplx.mul (prefactor_of Qvec i j) (uc_of i x_idx)) (u_of j y_idx).

(** [|Q|] in inverse length units, lines 222-223 *)
Definition Q_abs_of (Q_rlu : t_vec_real) : t_real :=
  tl2.norm (tl2.mul_vec_real (m_xtalB self) Q_rlu).

(** what one pass of the band loop does to the local parser *)
Definition parser_step (Q_rlu : t_vec_real) (magffact : ExprParser)
  : ExprParser :=
  if negb (String.eqb (m_magffact_formula self) "")
  then register_var magffact "Q" (Q_abs_of Q_rlu)
  else magffact.

(** the tensor after the Bose step, lines 215-216 *)
Definition S_after_bose (E_and_S : EnergyAndWeight.t) : t_mat :=
  if Rge_dec (m_temperature self) 0
  then tl2.scale (EnergyAndWeight.S E_and_S)
         (bose_cutoff (EnergyAndWeight.E E_and_S)
            (m_temperature self) (m_bose_cutoff self))
  else EnergyAndWeight.S E_and_S.

(** the form-factor step, lines 219-229, on a tensor [X] *)
Definition form_factor_on (Q_rlu : t_vec_real) (magffact : ExprParser)
  (X : t_mat) : t_mat :=
  if negb (String.eqb (m_magffact_formula self) "")
  then tl2.scale X
         (real (eval_noexcept (register_var magffact "Q" (Q_abs_of Q_rlu))))
  else X.

End Notions.

(* ------------------------------------------------------------------ *)
(** ** Further notions: site data, amplitudes, factors *)
(* ------------------------------------------------------------------ *)

(** the site [s] moved by the vector [t] *)
Definition shift_site (t : t_vec_real) (s : MagneticSite) : MagneticSite :=
  {| pos_calc :=
       map (fun k => tl2.at_real (pos_calc s) k + tl2.at_real t k)
           (seq 0 (length (pos_calc s)));
     spin_mag_calc := spin_mag_calc s;
     ge_trafo_plane_calc := ge_trafo_plane_calc s;
     ge_trafo_plane_conj_calc := ge_trafo_plane_conj_calc s |}.

(** the sum of the entries [(i, j)] of a 3x3 tensor weighted with
    [q_i * q_j] *)
Definition along (A : t_mat) (q : t_vec_real) : t_cplx :=
  Cplx.sum (fun i => Cplx.sum (fun j =>
    Cplx.mulr (elem A i j) (tl2.at_real q i * tl2.at_real q j)) 3) 3.

Section MoreNotions.

Context `{tl2_externals}.
Variable self : MagDyn.

(** the whole system moved by the vector [t] *)
Definition shift_sites (t : t_vec_real) : MagDyn :=
  {| m_sites := map (shift_site t) (m_sites self);
     m_phase_sign := m_phase_sign self;
     m_temperature := m_temperature self;
     m_bose_cutoff := m_bose_cutoff self;
     m_magffact_formula := m_magffact_formula self;
     m_magffact := m_magffact self;
     m_xtalB := m_xtalB self |}.

(** every site has a non-negative spin magnitude, a position with [d]
    components, and [uc] holds the complex conjugates of [u] *)
Definition sites_wf (d : nat) : Prop :=
  forall i, (i < GetMagneticSitesCount self)%nat ->
    0 <= spin_mag_calc (GetMagneticSite self i) /\
    length (pos_calc (GetMagneticSite self i)) = d /\
    forall x, (x < 3)%nat -> uc_of self i x = Cplx.conj (u_of self i x).

(** [exp(sign * i * 2 pi * Q.r_i)] *)
Definition site_phase (Qvec : t_vec_real) (i : nat) : t_cplx :=
  Cplx.cexp
    (mk_cplx 0
       (m_phase_sign self * (2 * PI) *
        tl2.inner (pos_calc (GetMagneticSite self i)) Qvec)).

(** component [I] of the vector of length [2N] whose outer product is [M]:
    [exp(sign * i * 2 pi * Q.r_i) * sqrt(S_i)] times [u_i[x]] in the upper
    and [uc_i[x]] in the lower half *)
Definition site_vector (Qvec : t_vec_real) (x_idx I : nat) : t_cplx :=
  let N := GetMagneticSitesCount self in
  let i := if (I <? N)%nat then I else (I - N)%nat in
  Cplx.mul
    (Cplx.mulr (site_phase Qvec i) (sqrt (spin_mag_calc (GetMagneticSite self i))))
    (if (I <? N)%nat then u_of self i x_idx else uc_of self i x_idx).

(** the amplitude of band [k] for the Cartesian index [x_idx]:
    [(T^H w)(k)] for the site vector [w] *)
Definition band_amplitude (trafo : t_mat) (Qvec : t_vec_real)
  (x_idx k : nat) : t_cplx :=
  Cplx.sum
    (fun I => Cplx.mul (Cplx.conj (elem trafo I k)) (site_vector Qvec x_idx I))
    (2 * GetMagneticSitesCount self).

(** the real number by which lines 215-229 multiply the tensor of a band *)
Definition intensity_factor (Q_rlu : t_vec_real) (magffact : ExprParser)
  (E_and_S : EnergyAndWeight.t) : t_real :=
  (if Rge_dec (m_temperature self) 0
   then bose_cutoff (EnergyAndWeight.E E_and_S)
          (m_temperature self) (m_bose_cutoff self)
   else 1) *
  (if negb (String.eqb (m_magffact_formula self) "")
   then real (eval_noexcept (register_var magffact "Q" (Q_abs_of self Q_rlu)))
   else 1).

End MoreNotions.

(** the vector [q] multiplied by the real number [c] *)
Definition scale_vec (c : R) (q : t_vec_real) : t_vec_real := map (Rmult c) q.

(* ------------------------------------------------------------------ *)
(** ** A small system for running the routines *)
(* ------------------------------------------------------------------ *)

Module Example.

(** inversion of 2x2 matrices by the adjugate; any other size, and a
    vanishing determinant, are reported as failure with an empty matrix *)
Definition is_zero (z : t_cplx) : bool :=
  if Req_dec_T (real z) 0
  then if Req_dec_T (imag z) 0 then true else false
  else false.

Definition inv_2x2 (m : t_mat) : t_mat * bool :=
  if negb ((size1 m =? 2)%nat && (size2 m =? 2)%nat) then (tl2.zero 0 0, false)
  else
    let det := Cplx.sub (Cplx.mul (elem m 0%nat 0%nat) (elem m 1%nat 1%nat))
                        (Cplx.mul (elem m 0%nat 1%nat) (elem m 1%nat 0%nat)) in
    if is_zero det then (tl2.zero 0 0, false)
    else
      (mk_mat 2 2
         (fun i j =>
            Cplx.div
              (match i, j with
               | O, O => elem m 1%nat 1%nat
               | O, S O => Cplx.opp (elem m 0%nat 1%nat)
               | S O, O => Cplx.opp (elem m 1%nat 0%nat)
               | S O, S O => elem m 0%nat 0%nat
               | _, _ => Cplx.C0
               end) det),
       true).

(** the parser of an expression that is just the variable last registered;
    evaluation raises while no variable is known *)
#[export] Instance externals : tl2_externals := {|
  inv := inv_2x2;
  bose_cutoff := fun E_ T_ cutoff => 1 + Rabs E_ + Rabs T_ + Rabs cutoff;
  ExprParser := list (string * R);
  register_var := fun p name val => (name, val) :: p;
  eval := fun p =>
    match p with
    | (_, val) :: _ => Some (Cplx.of_real val)
    | [] => None
    end;
  eval_fallback := Cplx.C0
|}.

(** one site at the origin with spin 1 *)
Definition site : MagneticSite :=
  {| pos_calc := [0; 0; 0];
     spin_mag_calc := 1;
     ge_trafo_plane_calc := [Cplx.C1; Cplx.s_imag; Cplx.C0];
     ge_trafo_plane_conj_calc := [Cplx.C1; Cplx.conj Cplx.s_imag; Cplx.C0] |}.

Definition unit_real (n : nat) : t_mat_real :=
  mk_mat n n (fun i j => if (i =? j)%nat then 1 else 0).

(** Bose weighting switched off, no form factor *)
Definition magdyn : MagDyn :=
  {| m_sites := [site];
     m_phase_sign := -1;
     m_temperature := -1;
     m_bose_cutoff := 0;
     m_magffact_formula := "";
     m_magffact := [];
     m_xtalB := unit_real 3 |}.

(** Bose weighting at temperature 1 and the form factor "Q" *)
Definition magdyn_weighted : MagDyn :=
  {| m_sites := [site];
     m_phase_sign := -1;
     m_temperature := 1;
     m_bose_cutoff := 0;
     m_magffact_formula := "Q";
     m_magffact := [];
     m_xtalB := unit_real 3 |}.

(** no magnetic site *)
Definition magdyn_empty : MagDyn :=
  {| m_sites := [];
     m_phase_sign := -1;
     m_temperature := -1;
     m_bose_cutoff := 0;
     m_magffact_formula := "";
     m_magffact := [];
     m_xtalB := unit_real 3 |}.

Definition band (e : R) (s : t_mat) : EnergyAndWeight.t :=
  EnergyAndWeight.mk e s (tl2.zero 3 3) Cplx.C0 Cplx.C0 0 0.

(** two band records with the energies [e0] and [e1] *)
Definition bands (e0 e1 : R) : EnergiesAndWeights :=
  [band e0 (tl2.zero 3 3); band e1 (tl2.zero 3 3)].

(** the two unit vectors as eigenvectors *)
Definition evecs : list t_vec := [[Cplx.C1; Cplx.C0]; [Cplx.C0; Cplx.C1]].

(** the 2x2 matrix [diag(a, b)] *)
Definition diag2 (a b : R) : t_mat :=
  mk_mat 2 2
    (fun i j =>
       if (i =? j)%nat then Cplx.of_real (if (i =? 0)%nat then a else b)
       else Cplx.C0).

(** the 3x3 tensor [diag(a, b, c)] *)
Definition diag3 (a b c : R) : t_mat :=
  mk_mat 3 3
    (fun i j =>
       if (i =? j)%nat
       then Cplx.of_real (nth i [a; b; c] 0)
       else Cplx.C0).

(** the 2x2 matrix with the real entries [a b; c d] *)
Definition mat2 (a b c d : R) : t_mat :=
  mk_mat 2 2
    (fun i j =>
       Cplx.of_real
         match i, j with
         | O, O => a
         | O, _ => b
         | _, O => c
         | _, _ => d
         end).

(** a Cholesky factor [K], the sign matrix [g] and the matrix
    [K * g * K^H] that is diagonalised for them; its eigenvalues are 81 and
    -169 with the eigenvectors [(-3/5, 4/5)] and [(4/5, 3/5)] *)
Definition chol_K : t_mat := mat2 39 40 0 3.
Definition g_pm : t_mat := diag2 1 (-1).
Definition H_K : t_mat := tl2.mul (tl2.mul chol_K g_pm) (tl2.herm chol_K).
Definition evecs_K : list t_vec :=
  [[Cplx.of_real (-3 / 5); Cplx.of_real (4 / 5)];
   [Cplx.of_real (4 / 5); Cplx.of_real (3 / 5)]].

(** the 2x2 matrix filled with ones *)
Definition ones2 : t_mat := mk_mat 2 2 (fun _ _ => Cplx.C1).

Definition Q0 : t_vec_real := [0; 0; 0].
Definition Qx : t_vec_real := [1; 0; 0].

End Example.

(* ------------------------------------------------------------------ *)
(** ** Arithmetic of [t_cplx] *)
(* ------------------------------------------------------------------ *)

Lemma cplx_eq (a b : t_cplx) :
  real a = real b -> imag a = imag b -> a = b.
Proof. destruct a, b; simpl; intros -> ->; reflexivity. Qed.

Ltac cplx := intros; apply cplx_eq; simpl; try ring; try lra.

Lemma cplx_ring_theory :
  ring_theory Cplx.C0 Cplx.C1 Cplx.add Cplx.mul Cplx.sub Cplx.opp eq.
Proof. constructor; cplx. Qed.

Add Ring cplx_ring : cplx_ring_theory.

Lemma add_C0_l (a : t_cplx) : Cplx.add Cplx.C0 a = a.
Proof. ring. Qed.

Lemma divr_add (a b : t_cplx) (r : t_real) :
  Cplx.divr (Cplx.add a b) r = Cplx.add (Cplx.divr a r) (Cplx.divr b r).
Proof. cplx; unfold Rdiv; ring. Qed.

Lemma divr_C0 (r : t_real) : Cplx.divr Cplx.C0 r = Cplx.C0.
Proof. cplx; unfold Rdiv; ring. Qed.

Lemma sum_ext (f g : nat -> t_cplx) (n : nat) :
  (forall k, (k < n)%nat -> f k = g k) -> Cplx.sum f n = Cplx.sum g n.
Proof.
  induction n as [|n IH]; intros Hfg; simpl; [reflexivity|].
  rewrite IH, Hfg by auto with arith. reflexivity.
Qed.

Lemma sum_divr (f : nat -> t_cplx) (r : t_real) (n : nat) :
  Cplx.sum (fun k => Cplx.divr (f k) r) n = Cplx.divr (Cplx.sum f n) r.
Proof.
  induction n as [|n IH]; simpl.
  - symmetry; apply divr_C0.
  - rewrite IH, divr_add. reflexivity.
Qed.

Lemma sum_add (f g : nat -> t_cplx) (n : nat) :
  Cplx.sum (fun k => Cplx.add (f k) (g k)) n =
  Cplx.add (Cplx.sum f n) (Cplx.sum g n).
Proof. induction n as [|n IH]; simpl; [|rewrite IH]; ring. Qed.

Lemma sum_C0 (n : nat) : Cplx.sum (fun _ => Cplx.C0) n = Cplx.C0.
Proof. induction n as [|n IH]; simpl; [|rewrite IH]; ring. Qed.

Lemma sum_mul_l (c : t_cplx) (f : nat -> t_cplx) (n : nat) :
  Cplx.sum (fun k => Cplx.mul c (f k)) n = Cplx.mul c (Cplx.sum f n).
Proof. induction n as [|n IH]; simpl; [|rewrite IH]; ring. Qed.

Lemma sum_mul_r (c : t_cplx) (f : nat -> t_cplx) (n : nat) :
  Cplx.sum (fun k => Cplx.mul (f k) c) n = Cplx.mul (Cplx.sum f n) c.
Proof. induction n as [|n IH]; simpl; [|rewrite IH]; ring. Qed.

(** exchanging two accumulation loops *)
Lemma sum_swap (f : nat -> nat -> t_cplx) (n m : nat) :
  Cplx.sum (fun i => Cplx.sum (fun j => f i j) m) n =
  Cplx.sum (fun j => Cplx.sum (fun i => f i j) n) m.
Proof.
  induction n as [|n IH]; simpl.
  - symmetry; apply sum_C0.
  - rewrite IH, <- sum_add. reflexivity.
Qed.

(** a sum that meets a single non-zero term *)
Lemma sum_delta (f : nat -> t_cplx) (i n : nat) :
  (i < n)%nat ->
  Cplx.sum (fun j => Cplx.mul (f j) (if (j =? i)%nat then Cplx.C1 else Cplx.C0)) n
  = f i.
Proof.
  induction n as [|n IH]; intros Hi; [lia|]. simpl.
  destruct (Nat.eqb_spec n i) as [->|Hne].
  - rewrite (sum_ext _ (fun _ => Cplx.C0)).
    + rewrite sum_C0. ring.
    + intros k Hk. destruct (Nat.eqb_spec k i); [lia|ring].
  - rewrite IH by lia. ring.
Qed.

(* ------------------------------------------------------------------ *)
(** ** Loops over [std::vector]s *)
(* ------------------------------------------------------------------ *)

Lemma fold_left_push {A B} (f : B -> A) (l : list B) (acc : list A) :
  fold_left (fun acc i => acc ++ [f i]) l acc = acc ++ map f l.
Proof.
  revert acc; induction l as [|b l IH]; intros acc; simpl.
  - now rewrite app_nil_r.
  - rewrite IH, <- app_assoc. reflexivity.
Qed.

Lemma map_by_index {A B} (f : A -> B) (g : nat -> B) (l : list A) (d : A) :
  (forall i, (i < length l)%nat -> f (nth i l d) = g i) ->
  map f l = map g (seq 0 (length l)).
Proof.
  intros Hfg. apply (nth_ext _ _ (f d) (g 0%nat)).
  - now rewrite !length_map, length_seq.
  - intros i Hi. rewrite length_map in Hi.
    rewrite map_nth, (map_nth g), seq_nth by exact Hi. now apply Hfg.
Qed.

Lemma length_modify_nth {A} (l : list A) (i : nat) (f : A -> A) :
  length (modify_nth l i f) = length l.
Proof.
  revert i; induction l as [|a l IH]; intros [|i]; simpl; auto.
Qed.

Lemma nth_modify_nth {A} (l : list A) (i k : nat) (f : A -> A) (d : A) :
  (k < length l)%nat ->
  nth k (modify_nth l i f) d = if (k =? i)%nat then f (nth k l d) else nth k l d.
Proof.
  revert i k; induction l as [|a l IH]; intros i k Hk; simpl in Hk; [lia|].
  destruct i as [|i], k as [|k]; simpl; auto.
  apply IH; lia.
Qed.

(** [for(i = 0; i < n; ++i) vec[i] = f(i, vec[i]);] *)
Lemma length_modify_loop {A} (f : nat -> A -> A) (n : nat) (l : list A) :
  length (fold_left (fun acc i => modify_nth acc i (f i)) (seq 0 n) l) = length l.
Proof.
  induction n as [|n IH]; [reflexivity|].
  rewrite seq_S, fold_left_app; simpl.
  rewrite length_modify_nth. exact IH.
Qed.

Lemma nth_modify_loop {A} (f : nat -> A -> A) (n : nat) (l : list A) (k : nat) (d : A) :
  (k < length l)%nat ->
  nth k (fold_left (fun acc i => modify_nth acc i (f i)) (seq 0 n) l) d =
  if (k <? n)%nat then f k (nth k l d) else nth k l d.
Proof.
  intros Hk. induction n as [|n IH]; [reflexivity|].
  rewrite seq_S, fold_left_app; simpl.
  rewrite nth_modify_nth by (rewrite length_modify_loop; exact Hk).
  rewrite IH.
  destruct (Nat.eqb_spec k n) as [->|Hne].
  - rewrite Nat.ltb_irrefl.
    replace (n <? S n)%nat with true
      by (symmetry; apply Nat.ltb_lt; lia).
    reflexivity.
  - destruct (Nat.ltb_spec k n), (Nat.ltb_spec k (S n));
      try reflexivity; lia.
Qed.

(* ------------------------------------------------------------------ *)
(** ** CalcCorrelationsFromHamiltonian: the band records *)
(* ------------------------------------------------------------------ *)

Section Correlations.

Context `{tl2_externals}.
Variable self : MagDyn.

Lemma recreate_energies_map (energy_mat : t_mat) :
  recreate_energies energy_mat =
  map (fresh_band energy_mat) (seq 0 (size1 energy_mat)).
Proof.
  unfold recreate_energies.
  rewrite (fold_left_push (fresh_band energy_mat)). reflexivity.
Qed.

Lemma length_recreate_energies (energy_mat : t_mat) :
  length (recreate_energies energy_mat) = size1 energy_mat.
Proof. now rewrite recreate_energies_map, length_map, length_seq. Qed.

Lemma nth_recreate_energies (energy_mat : t_mat) (i : nat) :
  (i < size1 energy_mat)%nat ->
  nth i (recreate_energies energy_mat) EnergyAndWeight.init =
  fresh_band energy_mat i.
Proof.
  intros Hi. rewrite recreate_energies_map.
  rewrite (nth_indep _ _ (fresh_band energy_mat 0))
    by now rewrite length_map, length_seq.
  rewrite (map_nth (fresh_band energy_mat)), seq_nth by exact Hi.
  reflexivity.
Qed.

Lemma length_reorder {T} (d : T) (vec : list T) (perm : list nat) :
  length (tl2.reorder d vec perm) = length vec.
Proof. unfold tl2.reorder. now rewrite length_map, length_seq. Qed.

Lemma size1_energy_mat_of (energies : EnergiesAndWeights) (H_mat : t_mat)
  (evecs : list t_vec) :
  size1 (energy_mat_of H_mat (evec_mat_of energies evecs)) = length evecs.
Proof. simpl. apply length_reorder. Qed.

Lemma length_coordinate_body trafo Qvec x_idx y_idx (l : EnergiesAndWeights) :
  length (coordinate_body self trafo Qvec x_idx y_idx l) = length l.
Proof. unfold coordinate_body. apply length_modify_loop. Qed.

Lemma nth_coordinate_body trafo Qvec x_idx y_idx (l : EnergiesAndWeights) k d :
  (k < length l)%nat ->
  nth k (coordinate_body self trafo Qvec x_idx y_idx l) d =
  add_to_S x_idx y_idx (band_term self trafo Qvec x_idx y_idx k) (nth k l d).
Proof.
  intros Hk. unfold coordinate_body.
  rewrite (nth_modify_loop
             (fun i => add_to_S x_idx y_idx (band_term self trafo Qvec x_idx y_idx i)))
    by exact Hk.
  apply Nat.ltb_lt in Hk. now rewrite Hk.
Qed.

Lemma coordinate_loop_unfold trafo Qvec (l : EnergiesAndWeights) :
  coordinate_loop self trafo Qvec l =
  let body := coordinate_body self trafo Qvec in
  body 2%nat 2%nat (body 2%nat 1%nat (body 2%nat 0%nat
    (body 1%nat 2%nat (body 1%nat 1%nat (body 1%nat 0%nat
      (body 0%nat 2%nat (body 0%nat 1%nat (body 0%nat 0%nat l)))))))).
Proof. reflexivity. Qed.

Lemma length_coordinate_loop trafo Qvec (l : EnergiesAndWeights) :
  length (coordinate_loop self trafo Qvec l) = length l.
Proof.
  rewrite coordinate_loop_unfold; cbv zeta.
  now rewrite !length_coordinate_body.
Qed.

Lemma nth_coordinate_loop trafo Qvec (l : EnergiesAndWeights) k d :
  (k < length l)%nat ->
  nth k (coordinate_loop self trafo Qvec l) d =
  let add x y := add_to_S x y (band_term self trafo Qvec x y k) in
  add 2%nat 2%nat (add 2%nat 1%nat (add 2%nat 0%nat
    (add 1%nat 2%nat (add 1%nat 1%nat (add 1%nat 0%nat
      (add 0%nat 2%nat (add 0%nat 1%nat (add 0%nat 0%nat (nth k l d))))))))).
Proof.
  intros Hk. rewrite coordinate_loop_unfold; cbv zeta.
  repeat (rewrite nth_coordinate_body by (rewrite ?length_coordinate_body; exact Hk)).
  reflexivity.
Qed.

(** the coordinate loop writes the tensor [S] only *)
Lemma E_coordinate_loop trafo Qvec (l : EnergiesAndWeights) k :
  (k < length l)%nat ->
  EnergyAndWeight.E (nth k (coordinate_loop self trafo Qvec l) EnergyAndWeight.init) =
  EnergyAndWeight.E (nth k l EnergyAndWeight.init).
Proof. intros Hk. rewrite nth_coordinate_loop by exact Hk. reflexivity. Qed.

(** the routine past the early return, with the inversion result named *)
Lemma CalcCorrelations_unfold energies H_mat chol_mat g_sign Qvec evecs :
  GetMagneticSitesCount self <> 0%nat ->
  CalcCorrelationsFromHamiltonian self energies H_mat chol_mat g_sign Qvec evecs =
  let evec_mat := evec_mat_of energies evecs in
  let energy_mat := energy_mat_of H_mat evec_mat in
  (coordinate_loop self
     (trafo_of (fst (inv chol_mat)) evec_mat (E_sqrt_of g_sign energy_mat))
     Qvec (recreate_energies energy_mat),
   if snd (inv chol_mat) then [] else [Inversion_failed_at_Q Qvec]).
Proof.
  intros HN. unfold CalcCorrelationsFromHamiltonian.
  apply Nat.eqb_neq in HN. rewrite HN.
  destruct (inv chol_mat) as [chol_inv inv_ok]. reflexivity.
Qed.

Lemma length_CalcCorrelations energies H_mat chol_mat g_sign Qvec evecs :
  GetMagneticSitesCount self <> 0%nat ->
  length (fst (CalcCorrelationsFromHamiltonian self energies H_mat chol_mat
                 g_sign Qvec evecs)) = length evecs.
Proof.
  intros HN. rewrite CalcCorrelations_unfold by exact HN. cbv zeta; simpl fst.
  now rewrite length_coordinate_loop, length_recreate_energies, size1_energy_mat_of.
Qed.

Lemma E_CalcCorrelations energies H_mat chol_mat g_sign Qvec evecs i :
  GetMagneticSitesCount self <> 0%nat ->
  (i < length evecs)%nat ->
  EnergyAndWeight.E
    (nth i (fst (CalcCorrelationsFromHamiltonian self energies H_mat chol_mat
                   g_sign Qvec evecs)) EnergyAndWeight.init) =
  real (elem (energy_mat_of H_mat (evec_mat_of energies evecs)) i i).
Proof.
  intros HN Hi. rewrite CalcCorrelations_unfold by exact HN. cbv zeta; simpl fst.
  rewrite E_coordinate_loop
    by now rewrite length_recreate_energies, size1_energy_mat_of.
  rewrite nth_recreate_energies by now rewrite size1_energy_mat_of.
  reflexivity.
Qed.

(** C1.  With at least one magnetic site, the routine returns one record per
    eigenvector, the energy of record [i] is the real part of the [i]-th
    diagonal element of [V^H * H * V], where the columns of [V] are the
    eigenvectors reordered by the energy sorting, and the energies are the
    same for every sign matrix [g_sign]. *)
Theorem C1_energies_from_transformed_hamiltonian
  energies H_mat chol_mat g_sign Qvec evecs :
  GetMagneticSitesCount self <> 0%nat ->
  let V := tl2.create_cols (tl2.reorder [] evecs (energy_sorting energies)) in
  let out := fst (CalcCorrelationsFromHamiltonian self energies H_mat chol_mat
                    g_sign Qvec evecs) in
  length out = length evecs /\
  (forall i, (i < length out)%nat ->
     EnergyAndWeight.E (nth i out EnergyAndWeight.init) =
     real (elem (tl2.mul (tl2.mul (tl2.herm V) H_mat) V) i i)) /\
  (forall g_sign',
     map EnergyAndWeight.E
       (fst (CalcCorrelationsFromHamiltonian self energies H_mat chol_mat
               g_sign' Qvec evecs)) =
     map EnergyAndWeight.E out).
Proof.
  intros HN V out.
  assert (Hlen : forall g, length (fst (CalcCorrelationsFromHamiltonian self
            energies H_mat chol_mat g Qvec evecs)) = length evecs)
    by (intros g; now apply length_CalcCorrelations).
  split; [apply Hlen|]. split.
  - intros i Hi. unfold out in *. rewrite Hlen in Hi.
    now rewrite E_CalcCorrelations.
  - intros g'. unfold out.
    rewrite !(map_by_index EnergyAndWeight.E
                (fun i => real (elem (energy_mat_of H_mat
                                        (evec_mat_of energies evecs)) i i))
                _ EnergyAndWeight.init).
    + now rewrite !Hlen.
    + intros i Hi. rewrite Hlen in Hi. now apply E_CalcCorrelations.
    + intros i Hi. rewrite Hlen in Hi. now apply E_CalcCorrelations.
Qed.

(** C9.  Without magnetic sites the routine returns at once: the band
    records are the caller's, unchanged, and nothing is written to the error
    channel. *)
Theorem C9_zero_sites_no_op energies H_mat chol_mat g_sign Qvec evecs :
  GetMagneticSitesCount self = 0%nat ->
  CalcCorrelationsFromHamiltonian self energies H_mat chol_mat g_sign Qvec evecs =
  (energies, []).
Proof.
  intros HN. unfold CalcCorrelationsFromHamiltonian. now rewrite HN.
Qed.

(** C7.  When the inversion of the Cholesky factor reports failure, exactly
    one warning naming [Qvec] is written, and the routine goes on with the
    matrix the inversion handed back: it returns the records of the
    coordinate loop run with that matrix, one per eigenvector. *)
Theorem C7_inversion_failure_warns_and_continues
  energies H_mat chol_mat g_sign Qvec evecs :
  GetMagneticSitesCount self <> 0%nat ->
  snd (inv chol_mat) = false ->
  let res := CalcCorrelationsFromHamiltonian self energies H_mat chol_mat
               g_sign Qvec evecs in
  let evec_mat := evec_mat_of energies evecs in
  let energy_mat := energy_mat_of H_mat evec_mat in
  snd res = [Inversion_failed_at_Q Qvec] /\
  fst res =
    coordinate_loop self
      (trafo_of (fst (inv chol_mat)) evec_mat (E_sqrt_of g_sign energy_mat))
      Qvec (recreate_energies energy_mat) /\
  length (fst res) = length evecs.
Proof.
  intros HN Hfail res evec_mat energy_mat.
  split; [|split].
  - unfold res. rewrite CalcCorrelations_unfold by exact HN.
    cbv zeta; simpl snd. now rewrite Hfail.
  - unfold res. now rewrite CalcCorrelations_unfold by exact HN.
  - now apply length_CalcCorrelations.
Qed.

End Correlations.

(* ------------------------------------------------------------------ *)
(** ** CalcCorrelationsFromHamiltonian: the coupling matrix [M] *)
(* ------------------------------------------------------------------ *)

Lemma fold_left_proj {A B C} (p : A -> C) (f : A -> B -> A) (g : C -> B -> C)
  (l : list B) (a : A) :
  (forall a b, p (f a b) = g (p a) b) ->
  p (fold_left f l a) = fold_left g l (p a).
Proof.
  intros Hp. revert a; induction l as [|b l IH]; intros a; simpl; [reflexivity|].
  now rewrite IH, Hp.
Qed.

Lemma fold_left_ext {A B} (f g : A -> B -> A) (l : list B) (a : A) :
  (forall a b, f a b = g a b) -> fold_left f l a = fold_left g l a.
Proof.
  intros Hfg. revert a; induction l as [|b l IH]; intros a; simpl; [reflexivity|].
  now rewrite IH, Hfg.
Qed.

Lemma fill_row_spec v i n m :
  size1 (fill_row v i n m) = size1 m /\
  size2 (fill_row v i n m) = size2 m /\
  forall a c, elem (fill_row v i n m) a c =
              if (a =? i)%nat && (c <? n)%nat then v c else elem m a c.
Proof.
  unfold fill_row. induction n as [|n IH].
  - simpl. repeat split. intros a c. now rewrite andb_false_r.
  - rewrite seq_S, fold_left_app. simpl.
    destruct IH as (H1 & H2 & H3). repeat split; auto.
    intros a c. rewrite H3.
    destruct (Nat.eqb_spec a i), (Nat.eqb_spec c n), (Nat.ltb_spec c n),
      (Nat.ltb_spec c (S n)); simpl; subst; try reflexivity; lia.
Qed.

Lemma fill_spec v n1 n2 m :
  size1 (fill v n1 n2 m) = size1 m /\
  size2 (fill v n1 n2 m) = size2 m /\
  forall a c, elem (fill v n1 n2 m) a c =
              if (a <? n1)%nat && (c <? n2)%nat then v a c else elem m a c.
Proof.
  unfold fill. induction n1 as [|n1 IH].
  - simpl. repeat split.
  - rewrite seq_S, fold_left_app. simpl.
    destruct IH as (H1 & H2 & H3).
    destruct (fill_row_spec (v n1) n1 n2
                (fold_left (fun m i => fill_row (v i) i n2 m) (seq 0 n1) m))
      as (R1 & R2 & R3).
    rewrite R1, R2. repeat split; auto.
    intros a c. rewrite R3, H3.
    destruct (Nat.eqb_spec a n1), (Nat.ltb_spec a n1), (Nat.ltb_spec a (S n1)),
      (Nat.ltb_spec c n2); simpl; try reflexivity; try lia.
    now subst.
Qed.

Section Coupling.

Context `{tl2_externals}.
Variable self : MagDyn.
Variable Qvec : t_vec_real.

Lemma site_pair_body_blocks x_idx y_idx b i j :
  let b' := site_pair_body self Qvec x_idx y_idx b i j in
  M00 b' = tl2.set_elem (M00 b) i j (entry00 self Qvec x_idx y_idx i j) /\
  M0N b' = tl2.set_elem (M0N b) i j (entry0N self Qvec x_idx y_idx i j) /\
  MN0 b' = tl2.set_elem (MN0 b) i j (entryN0 self Qvec x_idx y_idx i j) /\
  MNN b' = tl2.set_elem (MNN b) i j (entryNN self Qvec x_idx y_idx i j).
Proof.
  assert (Hph :
    Cplx.cexp
      (Cplx.mulr
         (Cplx.mulr (Cplx.rmul (- m_phase_sign self) Cplx.s_imag) Cplx.s_twopi)
         (tl2.inner (tl2.vec_sub (pos_calc (GetMagneticSite self j))
                                 (pos_calc (GetMagneticSite self i))) Qvec))
    = phase_of self Qvec i j).
  { unfold phase_of. f_equal. apply cplx_eq; unfold Cplx.s_twopi; simpl; ring. }
  unfold site_pair_body, entry00, entry0N, entryN0, entryNN,
    prefactor_of, u_of, uc_of; simpl.
  rewrite Hph. repeat split.
Qed.

Lemma block_loop_fill (p : site_blocks -> t_mat) (v : nat -> nat -> t_cplx)
  x_idx y_idx (N : nat) (b : site_blocks) :
  (forall b i j,
     p (site_pair_body self Qvec x_idx y_idx b i j) = tl2.set_elem (p b) i j (v i j)) ->
  p (fold_left
       (fun b i =>
          fold_left (fun b j => site_pair_body self Qvec x_idx y_idx b i j)
                    (seq 0 N) b)
       (seq 0 N) b) = fill v N N (p b).
Proof.
  intros Hp. unfold fill, fill_row.
  apply (fold_left_proj p _
           (fun m i => fold_left (fun m j => tl2.set_elem m i j (v i j)) (seq 0 N) m)).
  intros a i.
  apply (fold_left_proj p _ (fun m j => tl2.set_elem m i j (v i j))).
  intros a' j. apply Hp.
Qed.

Lemma site_blocks_of_fill x_idx y_idx :
  let N := GetMagneticSitesCount self in
  let b := site_blocks_of self Qvec x_idx y_idx in
  M00 b = fill (entry00 self Qvec x_idx y_idx) N N (tl2.create N N) /\
  M0N b = fill (entry0N self Qvec x_idx y_idx) N N (tl2.create N N) /\
  MN0 b = fill (entryN0 self Qvec x_idx y_idx) N N (tl2.create N N) /\
  MNN b = fill (entryNN self Qvec x_idx y_idx) N N (tl2.create N N).
Proof.
  intros N b. unfold b, site_blocks_of. fold N.
  repeat split.
  - apply (block_loop_fill M00 (entry00 self Qvec x_idx y_idx)).
    intros b0 i j. apply (site_pair_body_blocks x_idx y_idx b0 i j).
  - apply (block_loop_fill M0N (entry0N self Qvec x_idx y_idx)).
    intros b0 i j. apply (site_pair_body_blocks x_idx y_idx b0 i j).
  - apply (block_loop_fill MN0 (entryN0 self Qvec x_idx y_idx)).
    intros b0 i j. apply (site_pair_body_blocks x_idx y_idx b0 i j).
  - apply (block_loop_fill MNN (entryNN self Qvec x_idx y_idx)).
    intros b0 i j. apply (site_pair_body_blocks x_idx y_idx b0 i j).
Qed.

Ltac decide_bounds :=
  repeat match goal with
         | |- context [(?a <=? ?b)%nat] => destruct (Nat.leb_spec a b); try lia
         | |- context [(?a <? ?b)%nat] => destruct (Nat.ltb_spec a b); try lia
         end; simpl.

(** the entries of [M] by quadrant *)
Lemma M_of_entries x_idx y_idx i j :
  let N := GetMagneticSitesCount self in
  let M := M_of self Qvec x_idx y_idx in
  (i < N)%nat -> (j < N)%nat ->
  elem M i j = entry00 self Qvec x_idx y_idx i j /\
  elem M i (N + j) = entry0N self Qvec x_idx y_idx i j /\
  elem M (N + i) j = entryN0 self Qvec x_idx y_idx i j /\
  elem M (N + i) (N + j) = entryNN self Qvec x_idx y_idx i j.
Proof.
  intros N M Hi Hj. unfold M, M_of. fold N.
  destruct (site_blocks_of_fill x_idx y_idx) as (E00 & E0N & EN0 & ENN).
  cbv zeta in E00, E0N, EN0, ENN. fold N in E00, E0N, EN0, ENN.
  rewrite E00, E0N, EN0, ENN. clear E00 E0N EN0 ENN.
  cbv zeta.
  repeat match goal with
         | |- context [fill ?v N N (tl2.create N N)] =>
             let F := fresh "F" in
             let S1 := fresh "S1" in
             let S2 := fresh "S2" in
             let EL := fresh "EL" in
             destruct (fill_spec v N N (tl2.create N N)) as (S1 & S2 & EL);
             simpl in S1, S2;
             set (F := fill v N N (tl2.create N N)) in *;
             clearbody F
         end.
  unfold tl2.set_submat; simpl.
  repeat match goal with
         | S1 : size1 _ = N |- _ => rewrite S1; clear S1
         | S2 : size2 _ = N |- _ => rewrite S2; clear S2
         end.
  repeat split; decide_bounds;
    repeat match goal with
           | EL : forall a c, elem ?F a c = _ |- context [elem ?F ?a ?c] =>
               rewrite (EL a c)
           end;
    rewrite ?Nat.sub_0_r, ?Nat.add_0_r;
    replace (N + i - N)%nat with i by lia;
    replace (N + j - N)%nat with j by lia;
    decide_bounds; reflexivity.
Qed.

Lemma size_M_of x_idx y_idx :
  size1 (M_of self Qvec x_idx y_idx) = (2 * GetMagneticSitesCount self)%nat /\
  size2 (M_of self Qvec x_idx y_idx) = (2 * GetMagneticSitesCount self)%nat.
Proof. split; reflexivity. Qed.

End Coupling.

(* ------------------------------------------------------------------ *)
(** ** CalcCorrelationsFromHamiltonian: the tensor [S] *)
(* ------------------------------------------------------------------ *)

Lemma size_sqrt_loop (l : list nat) (m : t_mat) :
  size1 (fold_left (fun (m : t_mat) i =>
           tl2.set_elem m i i (Cplx.csqrt (elem m i i))) l m) = size1 m /\
  size2 (fold_left (fun (m : t_mat) i =>
           tl2.set_elem m i i (Cplx.csqrt (elem m i i))) l m) = size2 m.
Proof.
  revert m; induction l as [|a l IH]; intros m; simpl; [split; reflexivity|].
  destruct (IH (tl2.set_elem m a a (Cplx.csqrt (elem m a a)))) as [-> ->].
  split; reflexivity.
Qed.

Lemma size_E_sqrt_of (g_sign energy_mat : t_mat) :
  size1 (E_sqrt_of g_sign energy_mat) = size1 g_sign /\
  size2 (E_sqrt_of g_sign energy_mat) = size2 energy_mat.
Proof.
  unfold E_sqrt_of; cbv zeta.
  destruct (size_sqrt_loop (seq 0 (size1 (tl2.mul g_sign energy_mat)))
              (tl2.mul g_sign energy_mat)) as [-> ->].
  split; reflexivity.
Qed.

(** the diagonal of [T^H * M * T], summed over the columns of [T], is the
    trace of [M] when the rows of [T] are orthonormal *)
Lemma trace_conjugated (T M : t_mat) (n : nat) :
  size1 T = n -> size1 M = n -> size2 M = n ->
  (forall i j, (i < n)%nat -> (j < n)%nat ->
     elem (tl2.mul T (tl2.herm T)) i j = elem (tl2.unit n) i j) ->
  Cplx.sum (fun k => elem (tl2.mul (tl2.mul (tl2.herm T) M) T) k k) (size2 T)
  = tl2.trace M.
Proof.
  intros HT HM1 HM2 Hunit. unfold tl2.trace. rewrite HM1, HM2, Nat.min_id.
  simpl. rewrite HT, HM2.
  (* all three loops written out *)
  transitivity
    (Cplx.sum (fun k => Cplx.sum (fun j => Cplx.sum (fun i =>
       Cplx.mul (Cplx.mul (Cplx.conj (elem T i k)) (elem M i j)) (elem T j k))
       n) n) (size2 T)).
  { apply sum_ext; intros k _. apply sum_ext; intros j _.
    symmetry. apply sum_mul_r. }
  (* the loop over the columns of [T] becomes the innermost one *)
  rewrite sum_swap.
  transitivity
    (Cplx.sum (fun j => Cplx.sum (fun i =>
       Cplx.mul (elem M i j) (elem (tl2.mul T (tl2.herm T)) j i)) n) n).
  { apply sum_ext; intros j _. rewrite sum_swap.
    apply sum_ext; intros i _. simpl.
    rewrite <- sum_mul_l. apply sum_ext; intros k _. ring. }
  apply sum_ext; intros j Hj.
  rewrite (sum_ext _ (fun i => Cplx.mul (elem M i j)
                       (if (i =? j)%nat then Cplx.C1 else Cplx.C0))).
  - apply (sum_delta (fun i => elem M i j)). exact Hj.
  - intros i Hi. rewrite Hunit by assumption. simpl.
    now rewrite Nat.eqb_sym.
Qed.

Section Tensor.

Context `{tl2_externals}.
Variable self : MagDyn.

Lemma S_add_to_S x_idx y_idx v b a c :
  elem (EnergyAndWeight.S (add_to_S x_idx y_idx v b)) a c =
  if (a =? x_idx)%nat && (c =? y_idx)%nat
  then Cplx.add (elem (EnergyAndWeight.S b) a c) v
  else elem (EnergyAndWeight.S b) a c.
Proof.
  simpl.
  destruct (Nat.eqb_spec a x_idx), (Nat.eqb_spec c y_idx); subst; reflexivity.
Qed.

Lemma size2_trafo_at energies H_mat chol_mat g_sign evecs :
  size2 (trafo_at energies H_mat chol_mat g_sign evecs) = length evecs.
Proof.
  unfold trafo_at, trafo_of; cbv zeta. simpl size2.
  destruct (size_E_sqrt_of g_sign
              (energy_mat_of H_mat (evec_mat_of energies evecs))) as [_ ->].
  simpl. apply length_reorder.
Qed.

(** the tensor component of band [k] after the routine *)
Lemma S_CalcCorrelations energies H_mat chol_mat g_sign Qvec evecs x_idx y_idx k :
  (x_idx < 3)%nat -> (y_idx < 3)%nat ->
  GetMagneticSitesCount self <> 0%nat ->
  (k < length evecs)%nat ->
  elem (EnergyAndWeight.S
          (nth k (fst (CalcCorrelationsFromHamiltonian self energies H_mat
                         chol_mat g_sign Qvec evecs)) EnergyAndWeight.init))
       x_idx y_idx =
  band_term self (trafo_at energies H_mat chol_mat g_sign evecs) Qvec x_idx y_idx k.
Proof.
  intros Hx Hy HN Hk.
  rewrite CalcCorrelations_unfold by exact HN. cbv zeta; simpl fst.
  rewrite nth_coordinate_loop
    by now rewrite length_recreate_energies, size1_energy_mat_of.
  rewrite nth_recreate_energies by now rewrite size1_energy_mat_of.
  fold (trafo_at energies H_mat chol_mat g_sign evecs).
  generalize (band_term self (trafo_at energies H_mat chol_mat g_sign evecs) Qvec).
  intros term.
  destruct x_idx as [|[|[|x]]]; [| | |lia];
    (destruct y_idx as [|[|[|y]]]; [| | |lia]);
    cbv beta zeta; rewrite !S_add_to_S; simpl; apply add_C0_l.
Qed.

(** C2.  For Cartesian indices [x_idx], [y_idx] and sites [i], [j], the
    matrix [M] is [2N x 2N] and holds
    [phase * sqrt(S_i * S_j)] times [u_i[x] * uc_j[y]] in its upper-left,
    [u_i[x] * u_j[y]] in its upper-right, [uc_i[x] * uc_j[y]] in its
    lower-left and [uc_i[x] * u_j[y]] in its lower-right quadrant, with
    [phase = exp(-sign * i * 2 pi * Q.(r_j - r_i))]; one pass of the
    coordinate loop adds [(T^H M T)(k,k) / (2N)] to [S(x_idx, y_idx)] of band
    [k] and leaves the other components alone; after the routine that
    component of band [k] is [(T^H M T)(k,k) / (2N)]. *)
Theorem C2_coupling_blocks_and_band_accumulation
  energies H_mat chol_mat g_sign Qvec evecs x_idx y_idx i j k :
  let N := GetMagneticSitesCount self in
  let M := M_of self Qvec x_idx y_idx in
  let T := trafo_at energies H_mat chol_mat g_sign evecs in
  let M_trafo := tl2.mul (tl2.mul (tl2.herm T) M) T in
  let out := fst (CalcCorrelationsFromHamiltonian self energies H_mat chol_mat
                    g_sign Qvec evecs) in
  let pre :=
    Cplx.mulr (phase_of self Qvec i j)
      (sqrt (spin_mag_calc (GetMagneticSite self i) *
             spin_mag_calc (GetMagneticSite self j))) in
  let u s := tl2.at_ (ge_trafo_plane_calc (GetMagneticSite self s)) in
  let uc s := tl2.at_ (ge_trafo_plane_conj_calc (GetMagneticSite self s)) in
  (x_idx < 3)%nat -> (y_idx < 3)%nat ->
  (i < N)%nat -> (j < N)%nat -> (k < length out)%nat ->
  (size1 M = (2 * N)%nat /\ size2 M = (2 * N)%nat) /\
  (elem M i j = Cplx.mul (Cplx.mul pre (u i x_idx)) (uc j y_idx) /\
   elem M i (N + j) = Cplx.mul (Cplx.mul pre (u i x_idx)) (u j y_idx) /\
   elem M (N + i) j = Cplx.mul (Cplx.mul pre (uc i x_idx)) (uc j y_idx) /\
   elem M (N + i) (N + j) = Cplx.mul (Cplx.mul pre (uc i x_idx)) (u j y_idx)) /\
  (forall (l : EnergiesAndWeights) a c, (k < length l)%nat ->
     elem (EnergyAndWeight.S
             (nth k (coordinate_body self T Qvec x_idx y_idx l)
                EnergyAndWeight.init)) a c =
     if (a =? x_idx)%nat && (c =? y_idx)%nat
     then Cplx.add
            (elem (EnergyAndWeight.S (nth k l EnergyAndWeight.init)) a c)
            (Cplx.divr (elem M_trafo k k) (INR (2 * N)))
     else elem (EnergyAndWeight.S (nth k l EnergyAndWeight.init)) a c) /\
  elem (EnergyAndWeight.S (nth k out EnergyAndWeight.init)) x_idx y_idx =
    Cplx.divr (elem M_trafo k k) (INR (2 * N)).
Proof.
  intros N M T M_trafo out pre u uc Hx Hy Hi Hj Hk.
  assert (HN : GetMagneticSitesCount self <> 0%nat) by (fold N; lia).
  unfold out in Hk. rewrite length_CalcCorrelations in Hk by exact HN.
  split; [apply size_M_of|]. split; [|split].
  - apply (M_of_entries self Qvec x_idx y_idx i j Hi Hj).
  - intros l a c Hl. rewrite nth_coordinate_body by exact Hl.
    apply S_add_to_S.
  - unfold out. now rewrite S_CalcCorrelations.
Qed.

(** C3 (amended).  When the transform [T] has [2N] rows that are
    orthonormal, [T * T^H = 1], the contributions to [S(x_idx, y_idx)] summed
    over all bands equal [trace(M) / (2N)]. *)
Theorem C3_band_sum_is_trace_for_unitary_transform
  energies H_mat chol_mat g_sign Qvec evecs x_idx y_idx :
  let N := GetMagneticSitesCount self in
  let M := M_of self Qvec x_idx y_idx in
  let T := trafo_at energies H_mat chol_mat g_sign evecs in
  let out := fst (CalcCorrelationsFromHamiltonian self energies H_mat chol_mat
                    g_sign Qvec evecs) in
  (x_idx < 3)%nat -> (y_idx < 3)%nat -> N <> 0%nat ->
  size1 T = (2 * N)%nat ->
  (forall i j, (i < 2 * N)%nat -> (j < 2 * N)%nat ->
     elem (tl2.mul T (tl2.herm T)) i j = elem (tl2.unit (2 * N)) i j) ->
  Cplx.sum (fun k => elem (EnergyAndWeight.S (nth k out EnergyAndWeight.init))
                          x_idx y_idx) (length out)
  = Cplx.divr (tl2.trace M) (INR (2 * N)).
Proof.
  intros N M T out Hx Hy HN HT Hunit.
  unfold out. rewrite length_CalcCorrelations by exact HN.
  rewrite (sum_ext _ (fun k => band_term self T Qvec x_idx y_idx k))
    by (intros k Hk; now apply S_CalcCorrelations).
  unfold band_term. rewrite sum_divr. fold M.
  replace (size1 M) with (2 * N)%nat by reflexivity.
  f_equal.
  rewrite <- (size2_trafo_at energies H_mat chol_mat g_sign evecs). fold T.
  apply (trace_conjugated T M (2 * N)); auto.
Qed.

End Tensor.

(* ------------------------------------------------------------------ *)
(** ** CalcIntensities *)
(* ------------------------------------------------------------------ *)

Section Intensities.

Context `{tl2_externals}.
Variable self : MagDyn.
Variable Q_rlu : t_vec_real.

Lemma snd_intensity_body magffact E_and_S :
  snd (intensity_body self Q_rlu magffact E_and_S) = (parser_step self Q_rlu) magffact.
Proof.
  unfold intensity_body, parser_step.
  destruct (negb (String.eqb (m_magffact_formula self) "")); reflexivity.
Qed.

Lemma S_intensity_body magffact E_and_S :
  EnergyAndWeight.S (fst (intensity_body self Q_rlu magffact E_and_S)) =
  form_factor_on self Q_rlu magffact (S_after_bose self E_and_S).
Proof.
  unfold intensity_body, form_factor_on, S_after_bose.
  destruct (negb (String.eqb (m_magffact_formula self) "")); reflexivity.
Qed.

Lemma weights_intensity_body magffact E_and_S :
  let b' := fst (intensity_body self Q_rlu magffact E_and_S) in
  let P := tl2.ortho_projector Q_rlu in
  EnergyAndWeight.weight_full b' =
    Rabs (real (tl2.trace (EnergyAndWeight.S b'))) /\
  EnergyAndWeight.weight b' =
    Rabs (real (tl2.trace (tl2.mul (tl2.mul P (EnergyAndWeight.S b')) P))).
Proof.
  unfold intensity_body.
  destruct (negb (String.eqb (m_magffact_formula self) "")); split; reflexivity.
Qed.

Lemma E_intensity_body magffact E_and_S :
  EnergyAndWeight.E (fst (intensity_body self Q_rlu magffact E_and_S)) =
  EnergyAndWeight.E E_and_S.
Proof.
  unfold intensity_body.
  destruct (negb (String.eqb (m_magffact_formula self) "")); reflexivity.
Qed.

Lemma intensity_loop_cons magffact E_and_S rest :
  intensity_loop self Q_rlu magffact (E_and_S :: rest) =
  fst (intensity_body self Q_rlu magffact E_and_S)
    :: intensity_loop self Q_rlu ((parser_step self Q_rlu) magffact) rest.
Proof.
  simpl. rewrite <- (snd_intensity_body magffact E_and_S).
  destruct (intensity_body self Q_rlu magffact E_and_S). reflexivity.
Qed.

Lemma length_intensity_loop magffact l :
  length (intensity_loop self Q_rlu magffact l) = length l.
Proof.
  revert magffact; induction l as [|b l IH]; intros p; [reflexivity|].
  rewrite intensity_loop_cons. simpl. now rewrite IH.
Qed.

(** band [k] is processed with the parser left by the [k] passes before *)
Lemma nth_intensity_loop magffact l k d :
  (k < length l)%nat ->
  nth k (intensity_loop self Q_rlu magffact l) d =
  fst (intensity_body self Q_rlu (Nat.iter k (parser_step self Q_rlu) magffact) (nth k l d)).
Proof.
  revert magffact k; induction l as [|b l IH]; intros p k Hk; simpl in Hk; [lia|].
  rewrite intensity_loop_cons.
  destruct k as [|k]; [reflexivity|].
  simpl nth. rewrite IH by lia. now rewrite Nat.iter_succ_r.
Qed.

Lemma register_after_steps magffact k :
  negb (String.eqb (m_magffact_formula self) "") = true ->
  register_var (Nat.iter k (parser_step self Q_rlu) magffact) "Q" (Q_abs_of self Q_rlu) =
  Nat.iter (S k) (fun p => register_var p "Q" (Q_abs_of self Q_rlu)) magffact.
Proof.
  intros Hf. simpl. f_equal.
  induction k as [|k IH]; [reflexivity|].
  simpl. rewrite <- IH. unfold parser_step at 1. now rewrite Hf.
Qed.

(** C10.  [CalcIntensities] returns one record per input record, and the
    energy [E] of every record is the one it had before the call. *)
Theorem C10_intensities_keep_energies (energies : EnergiesAndWeights) :
  length (CalcIntensities self Q_rlu energies) = length energies /\
  map EnergyAndWeight.E (CalcIntensities self Q_rlu energies) =
  map EnergyAndWeight.E energies.
Proof.
  unfold CalcIntensities; cbv zeta. split; [apply length_intensity_loop|].
  generalize (m_magffact self).
  induction energies as [|b l IH]; intros p; [reflexivity|].
  rewrite intensity_loop_cons. simpl.
  now rewrite E_intensity_body, IH.
Qed.

(** C5.  For band [k]: with a non-negative temperature the tensor handed to
    the form-factor step is [S] times [bose_cutoff(E, temperature, cutoff)];
    with a negative temperature it is [S] itself; and with a negative
    temperature and an empty form-factor formula the resulting [S] is the
    input [S]. *)
Theorem C5_bose_weighting (energies : EnergiesAndWeights) (k : nat) :
  (k < length energies)%nat ->
  let b := nth k energies EnergyAndWeight.init in
  let b' := nth k (CalcIntensities self Q_rlu energies) EnergyAndWeight.init in
  let magffact := Nat.iter k (parser_step self Q_rlu) (m_magffact self) in
  (m_temperature self >= 0 ->
     EnergyAndWeight.S b' =
     form_factor_on self Q_rlu magffact
       (tl2.scale (EnergyAndWeight.S b)
          (bose_cutoff (EnergyAndWeight.E b)
             (m_temperature self) (m_bose_cutoff self)))) /\
  (m_temperature self < 0 ->
     EnergyAndWeight.S b' = form_factor_on self Q_rlu magffact (EnergyAndWeight.S b)) /\
  (m_temperature self < 0 -> m_magffact_formula self = ""%string ->
     EnergyAndWeight.S b' = EnergyAndWeight.S b).
Proof.
  intros Hk b b' magffact.
  assert (HS : EnergyAndWeight.S b' = form_factor_on self Q_rlu magffact (S_after_bose self b)).
  { unfold b', CalcIntensities; cbv zeta.
    rewrite nth_intensity_loop by exact Hk. apply S_intensity_body. }
  rewrite HS. unfold S_after_bose.
  split; [|split].
  - intros HT. destruct (Rge_dec (m_temperature self) 0); [reflexivity|lra].
  - intros HT. destruct (Rge_dec (m_temperature self) 0); [lra|reflexivity].
  - intros HT Hf. destruct (Rge_dec (m_temperature self) 0); [lra|].
    unfold form_factor_on. now rewrite Hf.
Qed.

(** C8.  For band [k]: with a non-empty formula, [Q] is multiplied by the
    matrix [m_xtalB], its norm is registered as the variable "Q", the
    expression is evaluated without raising -- the fallback value stands in
    when the evaluation fails -- and the tensor left by the Bose step is
    multiplied by the real part of the value; with an empty formula the
    tensor left by the Bose step is the result. *)
Theorem C8_form_factor (energies : EnergiesAndWeights) (k : nat) :
  (k < length energies)%nat ->
  let b := nth k energies EnergyAndWeight.init in
  let b' := nth k (CalcIntensities self Q_rlu energies) EnergyAndWeight.init in
  let Q_abs := tl2.norm (tl2.mul_vec_real (m_xtalB self) Q_rlu) in
  let magffact :=
    Nat.iter (S k) (fun p => register_var p "Q" Q_abs) (m_magffact self) in
  (m_magffact_formula self <> ""%string ->
     EnergyAndWeight.S b' =
       tl2.scale (S_after_bose self b) (real (eval_noexcept magffact)) /\
     (forall v, eval magffact = Some v -> eval_noexcept magffact = v) /\
     (eval magffact = None -> eval_noexcept magffact = eval_fallback)) /\
  (m_magffact_formula self = ""%string ->
     EnergyAndWeight.S b' = S_after_bose self b).
Proof.
  intros Hk b b' Q_abs magffact.
  assert (HS : EnergyAndWeight.S b' =
               form_factor_on self Q_rlu (Nat.iter k (parser_step self Q_rlu) (m_magffact self))
                 (S_after_bose self b)).
  { unfold b', CalcIntensities; cbv zeta.
    rewrite nth_intensity_loop by exact Hk. apply S_intensity_body. }
  rewrite HS. unfold form_factor_on. split.
  - intros Hf. apply String.eqb_neq in Hf.
    assert (Hn : negb (String.eqb (m_magffact_formula self) "") = true)
      by now rewrite Hf.
    rewrite Hn, (register_after_steps _ k Hn).
    split; [reflexivity|]. unfold eval_noexcept.
    split; [intros v ->|intros ->]; reflexivity.
  - intros Hf. now rewrite Hf.
Qed.

End Intensities.

(* ------------------------------------------------------------------ *)
(** ** CalcIntensities: the projected weight *)
(* ------------------------------------------------------------------ *)

Lemma pos_semidef_qf3 (A : t_mat) (v : nat -> R) :
  size1 A = 3%nat -> size2 A = 3%nat -> pos_semidef A ->
  0 <= qf3 (fun i j => real (elem A i j)) v.
Proof.
  intros H1 H2 Hpsd.
  specialize (Hpsd [Cplx.of_real (v 0%nat); Cplx.of_real (v 1%nat);
                    Cplx.of_real (v 2%nat)]).
  unfold quad_form in Hpsd. rewrite H1, H2 in Hpsd.
  unfold qf3. simpl in *. lra.
Qed.

(** the trace splits into the projected part and the part along [q] *)
Lemma projected_trace_split (a : nat -> nat -> R) (q0 q1 q2 : R) :
  0 + q0 * q0 + q1 * q1 + q2 * q2 <> 0 ->
  a 0%nat 0%nat + a 1%nat 1%nat + a 2%nat 2%nat =
  Rsum (fun k => qf3 a (proj_row q0 q1 q2 k)) 3 +
  qf3 a (fun i => nth i [q0; q1; q2] 0) / (0 + q0 * q0 + q1 * q1 + q2 * q2).
Proof.
  intros Hn. unfold qf3, proj_row. simpl. field.
  intros Hc; apply Hn; lra.
Qed.

Lemma projected_weight_le (A X : t_mat) (c q0 q1 q2 : R) :
  size1 A = 3%nat -> size2 A = 3%nat -> pos_semidef A ->
  size1 X = 3%nat -> size2 X = 3%nat ->
  (forall i j, elem X i j = Cplx.mulr (elem A i j) c) ->
  tl2.inner [q0; q1; q2] [q0; q1; q2] <> 0 ->
  let P := tl2.ortho_projector [q0; q1; q2] in
  Rabs (real (tl2.trace (tl2.mul (tl2.mul P X) P))) <= Rabs (real (tl2.trace X)).
Proof.
  intros HA1 HA2 Hpsd HX1 HX2 HX Hn P.
  set (a := fun i j => real (elem A i j)).
  assert (Hfull : real (tl2.trace X) =
                  c * (a 0%nat 0%nat + a 1%nat 1%nat + a 2%nat 2%nat)).
  { unfold tl2.trace. rewrite HX1, HX2. simpl. rewrite !HX. unfold a. simpl. ring. }
  assert (Hperp : real (tl2.trace (tl2.mul (tl2.mul P X) P)) =
                  c * Rsum (fun k => qf3 a (proj_row q0 q1 q2 k)) 3).
  { unfold tl2.trace, P. simpl. rewrite HX2. simpl. rewrite !HX.
    unfold a, qf3, proj_row, tl2.inner, tl2.at_real. simpl.
    unfold Rdiv. ring. }
  rewrite Hfull, Hperp.
  unfold tl2.inner, tl2.at_real in Hn; simpl in Hn.
  rewrite (projected_trace_split a q0 q1 q2 Hn).
  assert (Hq := pos_semidef_qf3 A (fun i => nth i [q0; q1; q2] 0) HA1 HA2 Hpsd).
  assert (H0 := pos_semidef_qf3 A (proj_row q0 q1 q2 0) HA1 HA2 Hpsd).
  assert (H1 := pos_semidef_qf3 A (proj_row q0 q1 q2 1) HA1 HA2 Hpsd).
  assert (H2 := pos_semidef_qf3 A (proj_row q0 q1 q2 2) HA1 HA2 Hpsd).
  fold a in Hq, H0, H1, H2.
  set (along := qf3 a (fun i => nth i [q0; q1; q2] 0)) in *.
  cbn [Rsum].
  set (p0 := qf3 a (proj_row q0 q1 q2 0)) in *.
  set (p1 := qf3 a (proj_row q0 q1 q2 1)) in *.
  set (p2 := qf3 a (proj_row q0 q1 q2 2)) in *.
  assert (Hnpos : 0 < 0 + q0 * q0 + q1 * q1 + q2 * q2) by nra.
  assert (Hr : 0 <= along / (0 + q0 * q0 + q1 * q1 + q2 * q2)).
  { apply Rmult_le_pos; [exact Hq|]. left. now apply Rinv_0_lt_compat. }
  rewrite !Rabs_mult. apply Rmult_le_compat_l; [apply Rabs_pos|].
  rewrite !Rabs_pos_eq; lra.
Qed.

Section ProjectedWeight.

Context `{tl2_externals}.
Variable self : MagDyn.
Variable Q_rlu : t_vec_real.

(** the Bose and form-factor steps multiply the tensor by a real number *)
Lemma tensor_is_scaled magffact (b : EnergyAndWeight.t) :
  let X := form_factor_on self Q_rlu magffact (S_after_bose self b) in
  size1 X = size1 (EnergyAndWeight.S b) /\
  size2 X = size2 (EnergyAndWeight.S b) /\
  exists c : R,
    forall i j, elem X i j = Cplx.mulr (elem (EnergyAndWeight.S b) i j) c.
Proof.
  unfold form_factor_on, S_after_bose.
  destruct (negb (String.eqb (m_magffact_formula self) ""));
    destruct (Rge_dec (m_temperature self) 0); simpl;
    (split; [reflexivity|split; [reflexivity|]]).
  - exists (bose_cutoff (EnergyAndWeight.E b) (m_temperature self)
              (m_bose_cutoff self) *
            real (eval_noexcept
                    (register_var magffact "Q" (Q_abs_of self Q_rlu)))).
    intros i j. apply cplx_eq; simpl; ring.
  - eexists. intros i j. reflexivity.
  - eexists. intros i j. reflexivity.
  - exists 1. intros i j. apply cplx_eq; simpl; ring.
Qed.

(** C6 (amended).  For a momentum vector [Q] with three components and
    non-zero length, and a band whose tensor [S] is 3x3 and positive
    semi-definite, the weight [|Re trace(P S P)|] is at most
    [weight_full = |Re trace(S)|] after [CalcIntensities]. *)
Theorem C6_weight_le_weight_full_for_semidefinite_S
  (energies : EnergiesAndWeights) (k : nat) :
  let b := nth k energies EnergyAndWeight.init in
  let b' := nth k (CalcIntensities self Q_rlu energies) EnergyAndWeight.init in
  (k < length energies)%nat ->
  length Q_rlu = 3%nat -> tl2.inner Q_rlu Q_rlu <> 0 ->
  size1 (EnergyAndWeight.S b) = 3%nat ->
  size2 (EnergyAndWeight.S b) = 3%nat ->
  pos_semidef (EnergyAndWeight.S b) ->
  EnergyAndWeight.weight b' <= EnergyAndWeight.weight_full b'.
Proof.
  intros b b' Hk HQ Hn HS1 HS2 Hpsd.
  unfold b', CalcIntensities; cbv zeta.
  rewrite nth_intensity_loop by exact Hk. fold b.
  set (p := Nat.iter k (parser_step self Q_rlu) (m_magffact self)).
  destruct (weights_intensity_body self Q_rlu p b) as [-> ->].
  rewrite S_intensity_body.
  destruct (tensor_is_scaled p b) as (HX1 & HX2 & c & HX).
  destruct Q_rlu as [|q0 [|q1 [|q2 [|q3 q]]]]; try discriminate HQ.
  apply (projected_weight_le (EnergyAndWeight.S b) _ c q0 q1 q2);
    try assumption; congruence.
Qed.

End ProjectedWeight.

(* ------------------------------------------------------------------ *)
(** ** The energy sorting *)
(* ------------------------------------------------------------------ *)

Section Sorting.

Variable cmp : nat -> nat -> bool.

Hypothesis cmp_total : forall a b, cmp a b = true \/ cmp b a = true.

Lemma insert_perm (x : nat) (l : list nat) :
  Permutation (tl2.insert cmp x l) (x :: l).
Proof.
  induction l as [|y l IH]; simpl; [apply Permutation_refl|].
  destruct (cmp x y); [apply Permutation_refl|].
  eapply perm_trans; [apply perm_skip, IH|apply perm_swap].
Qed.

Lemma insert_loop_perm (xs acc : list nat) :
  Permutation (fold_left (fun acc x => tl2.insert cmp x acc) xs acc) (xs ++ acc).
Proof.
  revert acc; induction xs as [|x xs IH]; intros acc; simpl;
    [apply Permutation_refl|].
  eapply perm_trans; [apply IH|].
  eapply perm_trans;
    [apply Permutation_app_head, insert_perm|].
  symmetry. apply Permutation_middle.
Qed.

Lemma get_perm_perm (n : nat) : Permutation (tl2.get_perm n cmp) (seq 0 n).
Proof.
  unfold tl2.get_perm.
  eapply perm_trans; [apply insert_loop_perm|]. now rewrite app_nil_r.
Qed.

Lemma length_get_perm (n : nat) : length (tl2.get_perm n cmp) = n.
Proof. now rewrite (Permutation_length (get_perm_perm n)), length_seq. Qed.

Lemma get_perm_bound (n k : nat) :
  (k < n)%nat -> (nth k (tl2.get_perm n cmp) 0 < n)%nat.
Proof.
  intros Hk.
  assert (Hin : In (nth k (tl2.get_perm n cmp) 0%nat) (tl2.get_perm n cmp))
    by (apply nth_In; now rewrite length_get_perm).
  apply (Permutation_in _ (get_perm_perm n)) in Hin.
  apply in_seq in Hin. lia.
Qed.

Lemma insert_sorted (x : nat) (l : list nat) :
  Sorted (before cmp) l -> Sorted (before cmp) (tl2.insert cmp x l).
Proof.
  induction l as [|y l IH]; intros Hs; simpl.
  - repeat constructor.
  - destruct (cmp x y) eqn:Hxy.
    + constructor; [exact Hs|]. constructor. exact Hxy.
    + assert (Hyx : (before cmp) y x)
        by (destruct (cmp_total x y) as [Hc|Hc]; [congruence|exact Hc]).
      inversion Hs as [|? ? Hs' Hhd]; subst.
      constructor; [now apply IH|].
      destruct l as [|z l]; simpl; [now constructor|].
      destruct (cmp x z); constructor; [exact Hyx|].
      now inversion Hhd.
Qed.

Lemma insert_loop_sorted (xs acc : list nat) :
  Sorted (before cmp) acc ->
  Sorted (before cmp) (fold_left (fun acc x => tl2.insert cmp x acc) xs acc).
Proof.
  revert acc; induction xs as [|x xs IH]; intros acc Hs; simpl; [exact Hs|].
  now apply IH, insert_sorted.
Qed.

Lemma get_perm_sorted (n : nat) : Sorted (before cmp) (tl2.get_perm n cmp).
Proof. apply insert_loop_sorted. constructor. Qed.

Lemma sorted_adjacent (l : list nat) (k : nat) :
  Sorted (before cmp) l -> (S k < length l)%nat ->
  (before cmp) (nth k l 0%nat) (nth (S k) l 0%nat).
Proof.
  intros Hs. revert k; induction Hs as [|a l Hs IH Hhd]; intros k Hk;
    simpl in Hk; [lia|].
  destruct k as [|k].
  - destruct l as [|b l]; simpl in Hk; [lia|]. now inversion Hhd.
  - apply IH. lia.
Qed.

End Sorting.

Lemma Rgeb_total (a b : R) : Rgeb a b = true \/ Rgeb b a = true.
Proof.
  unfold Rgeb. destruct (Rge_dec a b); [now left|].
  destruct (Rge_dec b a); [now right|lra].
Qed.

Lemma Rgeb_true (a b : R) : Rgeb a b = true -> a >= b.
Proof. unfold Rgeb. destruct (Rge_dec a b); [trivial|discriminate]. Qed.

Section SortedOutput.

Context `{tl2_externals}.
Variable self : MagDyn.

Lemma nth_reorder (evecs : list t_vec) (perm : list nat) (k : nat) :
  (k < length evecs)%nat ->
  nth k (tl2.reorder [] evecs perm) [] = nth (nth k perm 0%nat) evecs [].
Proof.
  intros Hk. unfold tl2.reorder.
  rewrite (nth_indep _ [] (nth (nth 0 perm 0%nat) evecs []))
    by now rewrite length_map, length_seq.
  rewrite (map_nth (fun i => nth (nth i perm 0%nat) evecs [])), seq_nth by exact Hk.
  reflexivity.
Qed.

(** a diagonal element of [V^H * H * V] only sees one column of [V] *)
Lemma energy_mat_diag (H_mat V W : t_mat) (k i : nat) :
  size1 V = size1 W ->
  (forall a, elem V a k = elem W a i) ->
  elem (energy_mat_of H_mat V) k k = elem (energy_mat_of H_mat W) i i.
Proof.
  intros Hsz Hcol. unfold energy_mat_of. simpl. rewrite Hsz.
  apply sum_ext; intros b _. rewrite (Hcol b). f_equal.
  apply sum_ext; intros a _. now rewrite (Hcol a).
Qed.

(** C4 (amended).  When the energies handed in are the real diagonal
    elements of [V0^H * H * V0] for the eigenvectors in their input order,
    one record per eigenvector, all eigenvectors of one length, the records
    returned are ordered by non-increasing energy. *)
Theorem C4_output_sorted_for_consistent_energies
  energies H_mat chol_mat g_sign Qvec evecs (d k : nat) :
  let V0 := tl2.create_cols evecs in
  let out := fst (CalcCorrelationsFromHamiltonian self energies H_mat chol_mat
                    g_sign Qvec evecs) in
  GetMagneticSitesCount self <> 0%nat ->
  length energies = length evecs ->
  Forall (fun v : t_vec => length v = d) evecs ->
  (forall i, (i < length energies)%nat ->
     EnergyAndWeight.E (nth i energies EnergyAndWeight.init) =
     real (elem (tl2.mul (tl2.mul (tl2.herm V0) H_mat) V0) i i)) ->
  (S k < length out)%nat ->
  EnergyAndWeight.E (nth k out EnergyAndWeight.init) >=
  EnergyAndWeight.E (nth (S k) out EnergyAndWeight.init).
Proof.
  intros V0 out HN Hlen Hd Hcons Hk.
  unfold out in *. rewrite length_CalcCorrelations in Hk by exact HN.
  set (sorting := energy_sorting energies).
  set (cmp := fun idx1 idx2 =>
       Rgeb (EnergyAndWeight.E (nth idx1 energies EnergyAndWeight.init))
            (EnergyAndWeight.E (nth idx2 energies EnergyAndWeight.init))).
  assert (Htot : forall a b, cmp a b = true \/ cmp b a = true)
    by (intros a b; apply Rgeb_total).
  assert (Hbound : forall j, (j < length evecs)%nat ->
                             (nth j sorting 0 < length evecs)%nat).
  { intros j Hj. unfold sorting, energy_sorting. rewrite <- Hlen.
    apply get_perm_bound. lia. }
  (* the energy of output record [j] is the input energy of index sorting[j] *)
  assert (Hout : forall j, (j < length evecs)%nat ->
    EnergyAndWeight.E
      (nth j (fst (CalcCorrelationsFromHamiltonian self energies H_mat chol_mat
                     g_sign Qvec evecs)) EnergyAndWeight.init) =
    EnergyAndWeight.E (nth (nth j sorting 0%nat) energies EnergyAndWeight.init)).
  { intros j Hj. rewrite E_CalcCorrelations by assumption.
    rewrite Hcons by (rewrite Hlen; now apply Hbound).
    f_equal. apply energy_mat_diag.
    - unfold evec_mat_of; simpl. fold sorting.
      destruct evecs as [|v0 vs] eqn:Hev; [simpl in Hj; lia|].
      rewrite <- Hev in *.
      assert (H0 : (0 < length evecs)%nat) by lia.
      replace (hd [] (tl2.reorder [] evecs sorting))
        with (nth 0 (tl2.reorder [] evecs sorting) [])
        by (destruct (tl2.reorder [] evecs sorting); reflexivity).
      rewrite nth_reorder by exact H0.
      rewrite Forall_forall in Hd.
      rewrite (Hd (nth (nth 0 sorting 0%nat) evecs []))
        by (apply nth_In, Hbound, H0).
      rewrite Hev at 1. simpl. symmetry. apply Hd. rewrite Hev. now left.
    - intros a. unfold evec_mat_of; simpl. fold sorting.
      now rewrite nth_reorder. }
  rewrite !Hout by lia.
  apply Rgeb_true.
  apply (sorted_adjacent cmp sorting k).
  - apply get_perm_sorted, Htot.
  - unfold sorting, energy_sorting. rewrite length_get_perm. lia.
Qed.

End SortedOutput.

(* ------------------------------------------------------------------ *)
(** ** Further properties of CalcCorrelationsFromHamiltonian *)
(* ------------------------------------------------------------------ *)

Lemma insert_ext (cmp1 cmp2 : nat -> nat -> bool) (x : nat) (l : list nat) :
  (forall a b, cmp1 a b = cmp2 a b) -> tl2.insert cmp1 x l = tl2.insert cmp2 x l.
Proof.
  intros Hc. induction l as [|y l IH]; simpl; [reflexivity|].
  now rewrite Hc, IH.
Qed.

Lemma get_perm_ext (cmp1 cmp2 : nat -> nat -> bool) (n : nat) :
  (forall a b, cmp1 a b = cmp2 a b) -> tl2.get_perm n cmp1 = tl2.get_perm n cmp2.
Proof.
  intros Hc. unfold tl2.get_perm. apply fold_left_ext.
  intros acc x. now apply insert_ext.
Qed.

Lemma nth_E_of_map (l1 l2 : EnergiesAndWeights) (i : nat) :
  map EnergyAndWeight.E l1 = map EnergyAndWeight.E l2 ->
  EnergyAndWeight.E (nth i l1 EnergyAndWeight.init) =
  EnergyAndWeight.E (nth i l2 EnergyAndWeight.init).
Proof.
  intros Hm.
  rewrite <- !(map_nth EnergyAndWeight.E). now rewrite Hm.
Qed.

Lemma map_seq_nth {B} (f : nat -> B) (l : list nat) :
  map (fun j => f (nth j l 0%nat)) (seq 0 (length l)) = map f l.
Proof.
  induction l as [|a l IH]; [reflexivity|].
  simpl. f_equal. rewrite <- seq_shift, map_map. exact IH.
Qed.

Section MoreCorrelations.

Context `{tl2_externals}.
Variable self : MagDyn.

(** X1.  With at least one magnetic site, whatever the caller's records
    held, every record returned has a 3x3 tensor [S], a zero 3x3 tensor
    [S_perp], and zero sums and weights. *)
Theorem X1_records_are_reset
  energies H_mat chol_mat g_sign Qvec evecs (k : nat) :
  let b := nth k (fst (CalcCorrelationsFromHamiltonian self energies H_mat
                         chol_mat g_sign Qvec evecs)) EnergyAndWeight.init in
  GetMagneticSitesCount self <> 0%nat ->
  (k < length evecs)%nat ->
  size1 (EnergyAndWeight.S b) = 3%nat /\
  size2 (EnergyAndWeight.S b) = 3%nat /\
  EnergyAndWeight.S_perp b = tl2.zero 3 3 /\
  EnergyAndWeight.S_sum b = Cplx.C0 /\
  EnergyAndWeight.S_perp_sum b = Cplx.C0 /\
  EnergyAndWeight.weight_full b = 0 /\
  EnergyAndWeight.weight b = 0.
Proof.
  intros b HN Hk. unfold b.
  rewrite CalcCorrelations_unfold by exact HN. cbv zeta; simpl fst.
  rewrite nth_coordinate_loop
    by now rewrite length_recreate_energies, size1_energy_mat_of.
  rewrite nth_recreate_energies by now rewrite size1_energy_mat_of.
  repeat split.
Qed.

(** X2.  The error channel stays empty exactly when there is no magnetic
    site or the inversion of the Cholesky factor reports success. *)
Theorem X2_no_warning_iff
  energies H_mat chol_mat g_sign Qvec evecs :
  snd (CalcCorrelationsFromHamiltonian self energies H_mat chol_mat g_sign
         Qvec evecs) = [] <->
  (GetMagneticSitesCount self = 0%nat \/ snd (inv chol_mat) = true).
Proof.
  destruct (Nat.eq_dec (GetMagneticSitesCount self) 0) as [HN|HN].
  - unfold CalcCorrelationsFromHamiltonian. rewrite HN. simpl.
    split; [now left|reflexivity].
  - rewrite CalcCorrelations_unfold by exact HN. cbv zeta; simpl snd.
    destruct (snd (inv chol_mat)); split; try reflexivity.
    + now right.
    + discriminate.
    + intros [H0|H0]; [contradiction|discriminate].
Qed.

Lemma energy_sorting_frame (e1 e2 : EnergiesAndWeights) :
  map EnergyAndWeight.E e1 = map EnergyAndWeight.E e2 ->
  energy_sorting e1 = energy_sorting e2.
Proof.
  intros Hm. unfold energy_sorting.
  assert (Hlen : length e1 = length e2)
    by (rewrite <- (length_map EnergyAndWeight.E e1), Hm; apply length_map).
  rewrite Hlen. apply get_perm_ext. intros a b.
  now rewrite (nth_E_of_map e1 e2 a Hm), (nth_E_of_map e1 e2 b Hm).
Qed.

(** X3.  With at least one magnetic site the result depends on the caller's
    records through their energies only: two record lists with the same
    energies give the same records and the same warnings. *)
Theorem X3_only_input_energies_matter
  (e1 e2 : EnergiesAndWeights) H_mat chol_mat g_sign Qvec evecs :
  GetMagneticSitesCount self <> 0%nat ->
  map EnergyAndWeight.E e1 = map EnergyAndWeight.E e2 ->
  CalcCorrelationsFromHamiltonian self e1 H_mat chol_mat g_sign Qvec evecs =
  CalcCorrelationsFromHamiltonian self e2 H_mat chol_mat g_sign Qvec evecs.
Proof.
  intros HN Hm. rewrite !CalcCorrelations_unfold by exact HN.
  unfold evec_mat_of. now rewrite (energy_sorting_frame e1 e2 Hm).
Qed.

(** X4.  For every component [(x_idx, y_idx)] the tensor entries summed over
    all bands are the trace of [T^H M T] divided by [2N]. *)
Theorem X4_band_sum_is_trace_of_transformed_M
  energies H_mat chol_mat g_sign Qvec evecs x_idx y_idx :
  let N := GetMagneticSitesCount self in
  let M := M_of self Qvec x_idx y_idx in
  let T := trafo_at energies H_mat chol_mat g_sign evecs in
  let out := fst (CalcCorrelationsFromHamiltonian self energies H_mat chol_mat
                    g_sign Qvec evecs) in
  (x_idx < 3)%nat -> (y_idx < 3)%nat -> N <> 0%nat ->
  Cplx.sum (fun k => elem (EnergyAndWeight.S (nth k out EnergyAndWeight.init))
                          x_idx y_idx) (length out)
  = Cplx.divr (tl2.trace (tl2.mul (tl2.mul (tl2.herm T) M) T)) (INR (2 * N)).
Proof.
  intros N M T out Hx Hy HN.
  unfold out. rewrite length_CalcCorrelations by exact HN.
  rewrite (sum_ext _ (fun k => band_term self T Qvec x_idx y_idx k))
    by (intros k Hk; now apply S_CalcCorrelations).
  unfold band_term. rewrite sum_divr. fold M.
  replace (size1 M) with (2 * N)%nat by reflexivity.
  assert (HT2 : size2 T = length evecs) by apply size2_trafo_at.
  f_equal. unfold tl2.trace.
  change (size1 (tl2.mul (tl2.mul (tl2.herm T) M) T)) with (size2 T).
  change (size2 (tl2.mul (tl2.mul (tl2.herm T) M) T)) with (size2 T).
  now rewrite Nat.min_id, HT2.
Qed.

(** the energy of output record [j] is the diagonal element of
    [V0^H H V0] picked by the sorting *)
Lemma E_out_by_sorting energies H_mat chol_mat g_sign Qvec evecs (d j : nat) :
  GetMagneticSitesCount self <> 0%nat ->
  length energies = length evecs ->
  Forall (fun v : t_vec => length v = d) evecs ->
  (j < length evecs)%nat ->
  EnergyAndWeight.E
    (nth j (fst (CalcCorrelationsFromHamiltonian self energies H_mat chol_mat
                   g_sign Qvec evecs)) EnergyAndWeight.init) =
  real (elem (energy_mat_of H_mat (tl2.create_cols evecs))
          (nth j (energy_sorting energies) 0%nat)
          (nth j (energy_sorting energies) 0%nat)).
Proof.
  intros HN Hlen Hd Hj.
  set (sorting := energy_sorting energies).
  assert (Hbound : forall i, (i < length evecs)%nat ->
                             (nth i sorting 0 < length evecs)%nat).
  { intros i Hi. unfold sorting, energy_sorting. rewrite <- Hlen.
    apply get_perm_bound. lia. }
  rewrite E_CalcCorrelations by assumption.
  f_equal. apply energy_mat_diag.
  - unfold evec_mat_of; simpl. fold sorting.
    destruct evecs as [|v0 vs] eqn:Hev; [simpl in Hj; lia|].
    rewrite <- Hev in *.
    assert (H0 : (0 < length evecs)%nat) by lia.
    replace (hd [] (tl2.reorder [] evecs sorting))
      with (nth 0 (tl2.reorder [] evecs sorting) [])
      by (destruct (tl2.reorder [] evecs sorting); reflexivity).
    rewrite nth_reorder by exact H0.
    rewrite Forall_forall in Hd.
    rewrite (Hd (nth (nth 0 sorting 0%nat) evecs []))
      by (apply nth_In, Hbound, H0).
    rewrite Hev at 1. simpl. symmetry. apply Hd. rewrite Hev. now left.
  - intros a. unfold evec_mat_of; simpl. fold sorting.
    now rewrite nth_reorder.
Qed.

(** X5.  With one record per eigenvector and eigenvectors of one length,
    the energies returned are, up to their order, the real diagonal elements
    of [V0^H * H * V0] for the eigenvectors in input order, whatever energies
    the caller handed in. *)
Theorem X5_output_energies_are_permuted_diagonal
  energies H_mat chol_mat g_sign Qvec evecs (d : nat) :
  let V0 := tl2.create_cols evecs in
  let out := fst (CalcCorrelationsFromHamiltonian self energies H_mat chol_mat
                    g_sign Qvec evecs) in
  GetMagneticSitesCount self <> 0%nat ->
  length energies = length evecs ->
  Forall (fun v : t_vec => length v = d) evecs ->
  Permutation
    (map EnergyAndWeight.E out)
    (map (fun i => real (elem (tl2.mul (tl2.mul (tl2.herm V0) H_mat) V0) i i))
         (seq 0 (length evecs))).
Proof.
  intros V0 out HN Hlen Hd.
  set (r := fun i => real (elem (tl2.mul (tl2.mul (tl2.herm V0) H_mat) V0) i i)).
  assert (Hout : map EnergyAndWeight.E out = map r (energy_sorting energies)).
  { rewrite (map_by_index EnergyAndWeight.E
               (fun j => r (nth j (energy_sorting energies) 0%nat))
               out EnergyAndWeight.init).
    - unfold out. rewrite length_CalcCorrelations by exact HN.
      rewrite <- (map_seq_nth r). unfold energy_sorting at 3.
      now rewrite length_get_perm, Hlen.
    - intros j Hj. unfold out in Hj.
      rewrite length_CalcCorrelations in Hj by exact HN.
      now apply (E_out_by_sorting energies H_mat chol_mat g_sign Qvec evecs d). }
  rewrite Hout. apply Permutation_map.
  unfold energy_sorting. rewrite Hlen. apply get_perm_perm.
Qed.

End MoreCorrelations.

(* ------------------------------------------------------------------ *)
(** ** The coupling matrix as an outer product *)
(* ------------------------------------------------------------------ *)

Lemma Rsum_ext (f g : nat -> R) (n : nat) :
  (forall k, (k < n)%nat -> f k = g k) -> Rsum f n = Rsum g n.
Proof.
  induction n as [|n IH]; intros Hfg; simpl; [reflexivity|].
  rewrite IH, Hfg by auto with arith. reflexivity.
Qed.

Lemma Rsum_minus (f g : nat -> R) (n : nat) :
  Rsum (fun k => f k - g k) n = Rsum f n - Rsum g n.
Proof. induction n as [|n IH]; simpl; [|rewrite IH]; ring. Qed.

Lemma Rsum_zero (n : nat) : Rsum (fun _ => 0) n = 0.
Proof. induction n as [|n IH]; simpl; [|rewrite IH]; ring. Qed.

Lemma at_real_map_seq (f : nat -> R) (n k : nat) :
  (k < n)%nat -> tl2.at_real (map f (seq 0 n)) k = f k.
Proof.
  intros Hk. unfold tl2.at_real.
  rewrite (nth_indep _ 0 (f 0%nat)) by now rewrite length_map, length_seq.
  now rewrite (map_nth f), seq_nth.
Qed.

Lemma length_vec_sub (a b : t_vec_real) : length (tl2.vec_sub a b) = length a.
Proof. unfold tl2.vec_sub. now rewrite length_map, length_seq. Qed.

Lemma at_real_vec_sub (a b : t_vec_real) (k : nat) :
  (k < length a)%nat ->
  tl2.at_real (tl2.vec_sub a b) k = tl2.at_real a k - tl2.at_real b k.
Proof.
  intros Hk. unfold tl2.vec_sub.
  now rewrite (at_real_map_seq (fun i => tl2.at_real a i - tl2.at_real b i)).
Qed.

(** the scalar product with a difference of two vectors of one length *)
Lemma inner_vec_sub (a b q : t_vec_real) :
  length a = length b ->
  tl2.inner (tl2.vec_sub a b) q = tl2.inner a q - tl2.inner b q.
Proof.
  intros Hlen. unfold tl2.inner. rewrite length_vec_sub, <- Hlen, <- Rsum_minus.
  apply Rsum_ext; intros k Hk. rewrite at_real_vec_sub by exact Hk. ring.
Qed.

Lemma inner_vec_sub_self (a q : t_vec_real) :
  tl2.inner (tl2.vec_sub a a) q = 0.
Proof. rewrite inner_vec_sub by reflexivity. ring. Qed.

Lemma cexp_difference (a b : R) :
  Cplx.cexp (mk_cplx 0 (a - b)) =
  Cplx.mul (Cplx.cexp (mk_cplx 0 a)) (Cplx.conj (Cplx.cexp (mk_cplx 0 b))).
Proof.
  apply cplx_eq; simpl; rewrite exp_0, ?cos_minus, ?sin_minus; ring.
Qed.

Lemma conj_sum (f : nat -> t_cplx) (n : nat) :
  Cplx.conj (Cplx.sum f n) = Cplx.sum (fun k => Cplx.conj (f k)) n.
Proof.
  induction n as [|n IH]; simpl.
  - apply cplx_eq; simpl; ring.
  - rewrite <- IH. apply cplx_eq; simpl; ring.
Qed.

(** a 3x3 tensor of the form [c_i * conj(c_j) / n] is positive
    semi-definite and equal to its Hermitian conjugate *)
Lemma rank_one_tensor (A : t_mat) (c : nat -> t_cplx) (n : R) :
  size1 A = 3%nat -> size2 A = 3%nat -> 0 < n ->
  (forall i j, (i < 3)%nat -> (j < 3)%nat ->
     elem A i j = Cplx.divr (Cplx.mul (c i) (Cplx.conj (c j))) n) ->
  pos_semidef A /\ eq_on 3 A (tl2.herm A).
Proof.
  intros H1 H2 Hn HA. split.
  - intros v. unfold quad_form. rewrite H1, H2. cbn [Cplx.sum].
    rewrite !HA by lia.
    destruct (c 0%nat) as [p0 q0], (c 1%nat) as [p1 q1], (c 2%nat) as [p2 q2].
    destruct (tl2.at_ v 0) as [a0 b0], (tl2.at_ v 1) as [a1 b1],
      (tl2.at_ v 2) as [a2 b2].
    set (A0 := a0 * p0 + b0 * q0 + (a1 * p1 + b1 * q1) + (a2 * p2 + b2 * q2)).
    set (B0 := a0 * q0 - b0 * p0 + (a1 * q1 - b1 * p1) + (a2 * q2 - b2 * p2)).
    replace (real _) with ((A0 * A0 + B0 * B0) / n)
      by (unfold A0, B0; simpl; field; lra).
    apply Rmult_le_pos; [nra|]. left. now apply Rinv_0_lt_compat.
  - intros i j Hi Hj. simpl. rewrite !HA by assumption.
    destruct (c i) as [pi qi], (c j) as [pj qj].
    apply cplx_eq; simpl; unfold Rdiv; ring.
Qed.

Section OuterProduct.

Context `{tl2_externals}.
Variable self : MagDyn.
Variable Qvec : t_vec_real.

Lemma phase_of_split (d i j : nat) :
  sites_wf self d ->
  (i < GetMagneticSitesCount self)%nat -> (j < GetMagneticSitesCount self)%nat ->
  phase_of self Qvec i j =
  Cplx.mul (site_phase self Qvec i) (Cplx.conj (site_phase self Qvec j)).
Proof.
  intros Hwf Hi Hj. unfold phase_of, site_phase.
  destruct (Hwf i Hi) as (_ & Hli & _). destruct (Hwf j Hj) as (_ & Hlj & _).
  rewrite inner_vec_sub by congruence.
  rewrite <- cexp_difference. f_equal. f_equal. ring.
Qed.

Lemma prefactor_of_split (d i j : nat) :
  sites_wf self d ->
  (i < GetMagneticSitesCount self)%nat -> (j < GetMagneticSitesCount self)%nat ->
  prefactor_of self Qvec i j =
  Cplx.mul
    (Cplx.mulr (site_phase self Qvec i)
       (sqrt (spin_mag_calc (GetMagneticSite self i))))
    (Cplx.conj
       (Cplx.mulr (site_phase self Qvec j)
          (sqrt (spin_mag_calc (GetMagneticSite self j))))).
Proof.
  intros Hwf Hi Hj. unfold prefactor_of.
  rewrite (phase_of_split d) by assumption.
  destruct (Hwf i Hi) as (Hsi & _). destruct (Hwf j Hj) as (Hsj & _).
  rewrite sqrt_mult by assumption.
  apply cplx_eq; simpl; ring.
Qed.

(** the coupling matrix is the outer product of the site vectors *)
Lemma M_of_outer_product (d x_idx y_idx I J : nat) :
  sites_wf self d -> (x_idx < 3)%nat -> (y_idx < 3)%nat ->
  (I < 2 * GetMagneticSitesCount self)%nat ->
  (J < 2 * GetMagneticSitesCount self)%nat ->
  elem (M_of self Qvec x_idx y_idx) I J =
  Cplx.mul (site_vector self Qvec x_idx I)
           (Cplx.conj (site_vector self Qvec y_idx J)).
Proof.
  intros Hwf Hx Hy HI HJ.
  set (N := GetMagneticSitesCount self) in *.
  unfold site_vector. fold N.
  set (i := if (I <? N)%nat then I else (I - N)%nat).
  set (j := if (J <? N)%nat then J else (J - N)%nat).
  assert (Hi : (i < N)%nat) by (unfold i; destruct (Nat.ltb_spec I N); lia).
  assert (Hj : (j < N)%nat) by (unfold j; destruct (Nat.ltb_spec J N); lia).
  destruct (M_of_entries self Qvec x_idx y_idx i j Hi Hj)
    as (E00 & E0N & EN0 & ENN).
  cbv zeta in E00, E0N, EN0, ENN. fold N in E00, E0N, EN0, ENN.
  unfold entry00, entry0N, entryN0, entryNN in *.
  rewrite (prefactor_of_split d i j Hwf Hi Hj) in *.
  destruct (Hwf i Hi) as (_ & _ & Hci). destruct (Hwf j Hj) as (_ & _ & Hcj).
  assert (HIi : I = if (I <? N)%nat then i else (N + i)%nat)
    by (unfold i; destruct (Nat.ltb_spec I N); lia).
  assert (HJj : J = if (J <? N)%nat then j else (N + j)%nat)
    by (unfold j; destruct (Nat.ltb_spec J N); lia).
  rewrite HIi, HJj at 1.
  rewrite (Hci x_idx Hx), (Hcj y_idx Hy) in *.
  destruct (I <? N)%nat, (J <? N)%nat;
    [rewrite E00|rewrite E0N|rewrite EN0|rewrite ENN];
    apply cplx_eq; simpl; ring.
Qed.

(** a diagonal element of [T^H M T] is a product of two band amplitudes *)
Lemma transformed_diag_product (trafo : t_mat) (d x_idx y_idx k : nat) :
  sites_wf self d -> (x_idx < 3)%nat -> (y_idx < 3)%nat ->
  size1 trafo = (2 * GetMagneticSitesCount self)%nat ->
  elem (tl2.mul (tl2.mul (tl2.herm trafo) (M_of self Qvec x_idx y_idx)) trafo) k k =
  Cplx.mul (band_amplitude self trafo Qvec x_idx k)
           (Cplx.conj (band_amplitude self trafo Qvec y_idx k)).
Proof.
  intros Hwf Hx Hy HT. unfold band_amplitude.
  set (n := (2 * GetMagneticSitesCount self)%nat) in *.
  set (M := M_of self Qvec x_idx y_idx).
  change (elem (tl2.mul (tl2.mul (tl2.herm trafo) M) trafo) k k)
    with (Cplx.sum (fun J =>
            Cplx.mul
              (Cplx.sum (fun I => Cplx.mul (Cplx.conj (elem trafo I k))
                                           (elem M I J)) (size1 trafo))
              (elem trafo J k)) n).
  rewrite HT. unfold M.
  rewrite conj_sum, <- sum_mul_l.
  apply sum_ext; intros J HJ.
  rewrite (sum_ext _ (fun I =>
     Cplx.mul (Cplx.mul (Cplx.conj (elem trafo I k))
                        (site_vector self Qvec x_idx I))
              (Cplx.conj (site_vector self Qvec y_idx J)))).
  - rewrite sum_mul_r.
    generalize (Cplx.sum (fun I => Cplx.mul (Cplx.conj (elem trafo I k))
                                     (site_vector self Qvec x_idx I)) n).
    intros a. apply cplx_eq; simpl; ring.
  - intros I HI.
    rewrite (M_of_outer_product d) by assumption. ring.
Qed.

End OuterProduct.

Section RankOne.

Context `{tl2_externals}.
Variable self : MagDyn.

Lemma shape_S_out energies H_mat chol_mat g_sign Qvec evecs (k : nat) :
  GetMagneticSitesCount self <> 0%nat -> (k < length evecs)%nat ->
  size1 (EnergyAndWeight.S
           (nth k (fst (CalcCorrelationsFromHamiltonian self energies H_mat
                          chol_mat g_sign Qvec evecs)) EnergyAndWeight.init))
  = 3%nat /\
  size2 (EnergyAndWeight.S
           (nth k (fst (CalcCorrelationsFromHamiltonian self energies H_mat
                          chol_mat g_sign Qvec evecs)) EnergyAndWeight.init))
  = 3%nat.
Proof.
  intros HN Hk.
  rewrite CalcCorrelations_unfold by exact HN. cbv zeta; simpl fst.
  rewrite nth_coordinate_loop
    by now rewrite length_recreate_energies, size1_energy_mat_of.
  rewrite nth_recreate_energies by now rewrite size1_energy_mat_of.
  split; reflexivity.
Qed.

Lemma S_out_product energies H_mat chol_mat g_sign Qvec evecs
  (d x_idx y_idx k : nat) :
  GetMagneticSitesCount self <> 0%nat ->
  sites_wf self d ->
  size1 (trafo_at energies H_mat chol_mat g_sign evecs) =
    (2 * GetMagneticSitesCount self)%nat ->
  (x_idx < 3)%nat -> (y_idx < 3)%nat -> (k < length evecs)%nat ->
  elem (EnergyAndWeight.S
          (nth k (fst (CalcCorrelationsFromHamiltonian self energies H_mat
                         chol_mat g_sign Qvec evecs)) EnergyAndWeight.init))
       x_idx y_idx =
  Cplx.divr
    (Cplx.mul
       (band_amplitude self (trafo_at energies H_mat chol_mat g_sign evecs)
          Qvec x_idx k)
       (Cplx.conj
          (band_amplitude self (trafo_at energies H_mat chol_mat g_sign evecs)
             Qvec y_idx k)))
    (INR (2 * GetMagneticSitesCount self)).
Proof.
  intros HN Hwf HT Hx Hy Hk.
  rewrite S_CalcCorrelations by assumption. unfold band_term.
  rewrite (transformed_diag_product self Qvec _ d) by assumption.
  reflexivity.
Qed.

Lemma S_out_rank_one energies H_mat chol_mat g_sign Qvec evecs (d k : nat) :
  GetMagneticSitesCount self <> 0%nat ->
  sites_wf self d ->
  size1 (trafo_at energies H_mat chol_mat g_sign evecs) =
    (2 * GetMagneticSitesCount self)%nat ->
  (k < length evecs)%nat ->
  let S_k := EnergyAndWeight.S
               (nth k (fst (CalcCorrelationsFromHamiltonian self energies H_mat
                              chol_mat g_sign Qvec evecs)) EnergyAndWeight.init) in
  pos_semidef S_k /\ eq_on 3 S_k (tl2.herm S_k).
Proof.
  intros HN Hwf HT Hk S_k.
  destruct (shape_S_out energies H_mat chol_mat g_sign Qvec evecs k HN Hk)
    as [H1 H2].
  apply (rank_one_tensor S_k
           (fun x => band_amplitude self
                       (trafo_at energies H_mat chol_mat g_sign evecs) Qvec x k)
           (INR (2 * GetMagneticSitesCount self))); try assumption.
  - apply lt_0_INR. lia.
  - intros i j Hi Hj. unfold S_k. now apply (S_out_product _ _ _ _ _ _ d).
Qed.

(** X6.  When every site has a non-negative spin magnitude, positions of
    one length and [uc] the conjugate of [u], and the transform has [2N]
    rows, each tensor entry of band [k] is the product
    [a_k(x) * conj(a_k(y)) / (2N)] of the band amplitudes
    [a_k(x) = sum_I conj(T(I,k)) * w_I(x)]. *)
Theorem X6_tensor_is_product_of_amplitudes
  energies H_mat chol_mat g_sign Qvec evecs (d x_idx y_idx k : nat) :
  let N := GetMagneticSitesCount self in
  let T := trafo_at energies H_mat chol_mat g_sign evecs in
  let out := fst (CalcCorrelationsFromHamiltonian self energies H_mat chol_mat
                    g_sign Qvec evecs) in
  N <> 0%nat -> sites_wf self d -> size1 T = (2 * N)%nat ->
  (x_idx < 3)%nat -> (y_idx < 3)%nat -> (k < length evecs)%nat ->
  elem (EnergyAndWeight.S (nth k out EnergyAndWeight.init)) x_idx y_idx =
  Cplx.divr
    (Cplx.mul (band_amplitude self T Qvec x_idx k)
              (Cplx.conj (band_amplitude self T Qvec y_idx k)))
    (INR (2 * N)).
Proof.
  intros N T out HN Hwf HT Hx Hy Hk.
  now apply (S_out_product _ _ _ _ _ _ d).
Qed.

(** X7.  Under the same conditions the tensor [S] of every band returned is
    equal to its Hermitian conjugate and positive semi-definite. *)
Theorem X7_tensor_is_hermitian_and_semidefinite
  energies H_mat chol_mat g_sign Qvec evecs (d k : nat) :
  let N := GetMagneticSitesCount self in
  let T := trafo_at energies H_mat chol_mat g_sign evecs in
  let S_k := EnergyAndWeight.S
               (nth k (fst (CalcCorrelationsFromHamiltonian self energies H_mat
                              chol_mat g_sign Qvec evecs)) EnergyAndWeight.init) in
  N <> 0%nat -> sites_wf self d -> size1 T = (2 * N)%nat ->
  (k < length evecs)%nat ->
  eq_on 3 S_k (tl2.herm S_k) /\ pos_semidef S_k.
Proof.
  intros N T S_k HN Hwf HT Hk.
  destruct (S_out_rank_one energies H_mat chol_mat g_sign Qvec evecs d k
              HN Hwf HT Hk) as [Hpsd Hherm].
  split; assumption.
Qed.

(** the projected weight of a band with a positive semi-definite tensor *)
Lemma intensity_weight_le (Q_rlu : t_vec_real) (l : EnergiesAndWeights) (k : nat) :
  (k < length l)%nat ->
  length Q_rlu = 3%nat -> tl2.inner Q_rlu Q_rlu <> 0 ->
  size1 (EnergyAndWeight.S (nth k l EnergyAndWeight.init)) = 3%nat ->
  size2 (EnergyAndWeight.S (nth k l EnergyAndWeight.init)) = 3%nat ->
  pos_semidef (EnergyAndWeight.S (nth k l EnergyAndWeight.init)) ->
  EnergyAndWeight.weight
    (nth k (CalcIntensities self Q_rlu l) EnergyAndWeight.init) <=
  EnergyAndWeight.weight_full
    (nth k (CalcIntensities self Q_rlu l) EnergyAndWeight.init).
Proof.
  intros Hk HQ Hn HS1 HS2 Hpsd.
  unfold CalcIntensities; cbv zeta.
  rewrite nth_intensity_loop by exact Hk.
  set (b := nth k l EnergyAndWeight.init) in *.
  set (p := Nat.iter k (parser_step self Q_rlu) (m_magffact self)).
  destruct (weights_intensity_body self Q_rlu p b) as [-> ->].
  rewrite S_intensity_body.
  destruct (tensor_is_scaled self Q_rlu p b) as (HX1 & HX2 & c & HX).
  destruct Q_rlu as [|q0 [|q1 [|q2 [|q3 q]]]]; try discriminate HQ.
  apply (projected_weight_le (EnergyAndWeight.S b) _ c q0 q1 q2);
    try assumption; congruence.
Qed.

(** X8.  The two routines in sequence: for sites as in X6, a transform with
    [2N] rows and a momentum vector [Q_rlu] with three components and
    non-zero length, the weight of every band is at most its
    [weight_full]. *)
Theorem X8_pipeline_weight_le_weight_full
  energies H_mat chol_mat g_sign Qvec Q_rlu evecs (d k : nat) :
  let N := GetMagneticSitesCount self in
  let T := trafo_at energies H_mat chol_mat g_sign evecs in
  let out := fst (CalcCorrelationsFromHamiltonian self energies H_mat chol_mat
                    g_sign Qvec evecs) in
  let b' := nth k (CalcIntensities self Q_rlu out) EnergyAndWeight.init in
  N <> 0%nat -> sites_wf self d -> size1 T = (2 * N)%nat ->
  length Q_rlu = 3%nat -> tl2.inner Q_rlu Q_rlu <> 0 ->
  (k < length evecs)%nat ->
  EnergyAndWeight.weight b' <= EnergyAndWeight.weight_full b'.
Proof.
  intros N T out b' HN Hwf HT HQ Hn Hk.
  destruct (shape_S_out energies H_mat chol_mat g_sign Qvec evecs k HN Hk)
    as [H1 H2].
  destruct (S_out_rank_one energies H_mat chol_mat g_sign Qvec evecs d k
              HN Hwf HT Hk) as [Hpsd _].
  apply intensity_weight_le; try assumption.
  unfold out. now rewrite length_CalcCorrelations.
Qed.

End RankOne.

(* ------------------------------------------------------------------ *)
(** ** Moving the sites; the diagonal of the coupling matrix *)
(* ------------------------------------------------------------------ *)

Lemma fold_left_ext_in {A B} (f g : A -> B -> A) (l : list B) (a : A) :
  (forall a b, In b l -> f a b = g a b) -> fold_left f l a = fold_left g l a.
Proof.
  revert a; induction l as [|b l IH]; intros a Hfg; simpl; [reflexivity|].
  rewrite Hfg by now left. apply IH. intros a' b' Hb'. apply Hfg. now right.
Qed.

Lemma vec_sub_shift (t a b : t_vec_real) :
  length a = length b ->
  tl2.vec_sub (pos_calc (shift_site t (mk_MagneticSite a 0 [] [])))
              (pos_calc (shift_site t (mk_MagneticSite b 0 [] []))) =
  tl2.vec_sub a b.
Proof.
  intros Hlen. simpl. unfold tl2.vec_sub. rewrite length_map, length_seq.
  apply map_ext_in. intros k Hk. apply in_seq in Hk.
  rewrite !at_real_map_seq by lia. ring.
Qed.

Section Moving.

Context `{tl2_externals}.
Variable self : MagDyn.
Variable t : t_vec_real.

Lemma count_shift_sites :
  GetMagneticSitesCount (shift_sites self t) = GetMagneticSitesCount self.
Proof. unfold GetMagneticSitesCount. simpl. apply length_map. Qed.

Lemma site_shift_sites (i : nat) :
  GetMagneticSite (shift_sites self t) i = shift_site t (GetMagneticSite self i).
Proof.
  unfold GetMagneticSite. simpl.
  change MagneticSite_init with (shift_site t MagneticSite_init) at 1.
  apply map_nth.
Qed.

Lemma site_pair_body_shift (d : nat) Qvec x_idx y_idx b i j :
  Forall (fun s => length (pos_calc s) = d) (m_sites self) ->
  (i < GetMagneticSitesCount self)%nat -> (j < GetMagneticSitesCount self)%nat ->
  site_pair_body (shift_sites self t) Qvec x_idx y_idx b i j =
  site_pair_body self Qvec x_idx y_idx b i j.
Proof.
  intros Hd Hi Hj. unfold site_pair_body. rewrite !site_shift_sites.
  rewrite Forall_forall in Hd.
  assert (Hli : length (pos_calc (GetMagneticSite self i)) = d)
    by (apply Hd, nth_In, Hi).
  assert (Hlj : length (pos_calc (GetMagneticSite self j)) = d)
    by (apply Hd, nth_In, Hj).
  cbv zeta.
  change (pos_calc (shift_site t (GetMagneticSite self j)))
    with (pos_calc (shift_site t
            (mk_MagneticSite (pos_calc (GetMagneticSite self j)) 0 [] []))).
  change (pos_calc (shift_site t (GetMagneticSite self i)))
    with (pos_calc (shift_site t
            (mk_MagneticSite (pos_calc (GetMagneticSite self i)) 0 [] []))).
  rewrite vec_sub_shift by congruence.
  reflexivity.
Qed.

Lemma M_of_shift (d : nat) Qvec x_idx y_idx :
  Forall (fun s => length (pos_calc s) = d) (m_sites self) ->
  M_of (shift_sites self t) Qvec x_idx y_idx = M_of self Qvec x_idx y_idx.
Proof.
  intros Hd. unfold M_of, site_blocks_of. rewrite count_shift_sites.
  cbv zeta.
  set (N := GetMagneticSitesCount self).
  rewrite (fold_left_ext_in
             (fun b i => fold_left
                (fun b j => site_pair_body (shift_sites self t) Qvec x_idx y_idx b i j)
                (seq 0 N) b)
             (fun b i => fold_left
                (fun b j => site_pair_body self Qvec x_idx y_idx b i j)
                (seq 0 N) b)); [reflexivity|].
  intros b i Hi. apply in_seq in Hi.
  apply fold_left_ext_in. intros b' j Hj. apply in_seq in Hj.
  apply (site_pair_body_shift d); try assumption; unfold N in *; lia.
Qed.

(** X9.  Only the differences of the site positions enter: moving every
    site by the same vector [t] changes neither the records nor the
    warnings (positions of one length assumed). *)
Theorem X9_translation_invariance
  (d : nat) energies H_mat chol_mat g_sign Qvec evecs :
  Forall (fun s => length (pos_calc s) = d) (m_sites self) ->
  CalcCorrelationsFromHamiltonian (shift_sites self t) energies H_mat chol_mat
    g_sign Qvec evecs =
  CalcCorrelationsFromHamiltonian self energies H_mat chol_mat g_sign Qvec evecs.
Proof.
  intros Hd. unfold CalcCorrelationsFromHamiltonian.
  rewrite count_shift_sites.
  destruct (GetMagneticSitesCount self =? 0)%nat; [reflexivity|].
  cbv zeta. destruct (inv chol_mat) as [chol_inv inv_ok].
  f_equal. unfold coordinate_loop, coordinate_body.
  apply fold_left_ext. intros acc x_idx.
  apply fold_left_ext. intros acc' y_idx.
  now rewrite (M_of_shift d).
Qed.

End Moving.

Section Diagonal.

Context `{tl2_externals}.
Variable self : MagDyn.

Lemma prefactor_diag (Qvec Qvec' : t_vec_real) (i : nat) :
  prefactor_of self Qvec i i = prefactor_of self Qvec' i i.
Proof.
  unfold prefactor_of, phase_of. now rewrite !inner_vec_sub_self.
Qed.

Lemma M_of_diag (Qvec Qvec' : t_vec_real) (x_idx y_idx I : nat) :
  (I < 2 * GetMagneticSitesCount self)%nat ->
  elem (M_of self Qvec x_idx y_idx) I I = elem (M_of self Qvec' x_idx y_idx) I I.
Proof.
  intros HI. set (N := GetMagneticSitesCount self) in *.
  set (i := if (I <? N)%nat then I else (I - N)%nat).
  assert (Hi : (i < N)%nat) by (unfold i; destruct (Nat.ltb_spec I N); lia).
  destruct (M_of_entries self Qvec x_idx y_idx i i Hi Hi) as (E00 & _ & _ & ENN).
  destruct (M_of_entries self Qvec' x_idx y_idx i i Hi Hi) as (E00' & _ & _ & ENN').
  cbv zeta in *. fold N in E00, ENN, E00', ENN'.
  unfold entry00, entryNN in *.
  rewrite (prefactor_diag Qvec Qvec' i) in *.
  assert (HIi : I = if (I <? N)%nat then i else (N + i)%nat)
    by (unfold i; destruct (Nat.ltb_spec I N); lia).
  rewrite HIi. destruct (I <? N)%nat; congruence.
Qed.

(** X10.  The diagonal of the coupling matrix [M], and with it
    [trace(M)], does not depend on the momentum vector. *)
Theorem X10_trace_of_M_independent_of_Q
  (Qvec Qvec' : t_vec_real) (x_idx y_idx : nat) :
  (forall I, (I < 2 * GetMagneticSitesCount self)%nat ->
     elem (M_of self Qvec x_idx y_idx) I I =
     elem (M_of self Qvec' x_idx y_idx) I I) /\
  tl2.trace (M_of self Qvec x_idx y_idx) = tl2.trace (M_of self Qvec' x_idx y_idx).
Proof.
  split; [intros I HI; now apply M_of_diag|].
  unfold tl2.trace.
  change (size1 (M_of self Qvec x_idx y_idx))
    with (2 * GetMagneticSitesCount self)%nat.
  change (size2 (M_of self Qvec x_idx y_idx))
    with (2 * GetMagneticSitesCount self)%nat.
  change (size1 (M_of self Qvec' x_idx y_idx))
    with (2 * GetMagneticSitesCount self)%nat.
  change (size2 (M_of self Qvec' x_idx y_idx))
    with (2 * GetMagneticSitesCount self)%nat.
  rewrite Nat.min_id. apply sum_ext. intros I HI. now apply M_of_diag.
Qed.

End Diagonal.

(* ------------------------------------------------------------------ *)
(** ** Further properties of CalcIntensities *)
(* ------------------------------------------------------------------ *)

Lemma sum_mulr (f : nat -> t_cplx) (c : R) (n : nat) :
  Cplx.sum (fun k => Cplx.mulr (f k) c) n = Cplx.mulr (Cplx.sum f n) c.
Proof.
  induction n as [|n IH]; simpl.
  - apply cplx_eq; simpl; ring.
  - rewrite IH. apply cplx_eq; simpl; ring.
Qed.

(** trace and projection of a tensor multiplied by a real number *)
Lemma trace_scaled (A X : t_mat) (c : R) :
  size1 X = size1 A -> size2 X = size2 A ->
  (forall i j, elem X i j = Cplx.mulr (elem A i j) c) ->
  tl2.trace X = Cplx.mulr (tl2.trace A) c.
Proof.
  intros H1 H2 HX. unfold tl2.trace. rewrite H1, H2, <- sum_mulr.
  apply sum_ext; intros i _. apply HX.
Qed.

Lemma projected_scaled (P A X : t_mat) (c : R) :
  size2 X = size2 A ->
  (forall i j, elem X i j = Cplx.mulr (elem A i j) c) ->
  tl2.trace (tl2.mul (tl2.mul P X) P) =
  Cplx.mulr (tl2.trace (tl2.mul (tl2.mul P A) P)) c.
Proof.
  intros H2 HX. apply trace_scaled; try reflexivity.
  intros i j. simpl. rewrite H2, <- sum_mulr.
  apply sum_ext; intros k _.
  rewrite (sum_ext (fun m => Cplx.mul (elem P i m) (elem X m k))
             (fun m => Cplx.mulr (Cplx.mul (elem P i m) (elem A m k)) c))
    by (intros m _; rewrite HX; apply cplx_eq; simpl; ring).
  rewrite sum_mulr. apply cplx_eq; simpl; ring.
Qed.

(** the projected trace of a 3x3 tensor: the trace less the part along
    [q] *)
Lemma projected_trace_closed_form (X : t_mat) (q0 q1 q2 : R) :
  size1 X = 3%nat -> size2 X = 3%nat ->
  tl2.inner [q0; q1; q2] [q0; q1; q2] <> 0 ->
  let P := tl2.ortho_projector [q0; q1; q2] in
  tl2.trace (tl2.mul (tl2.mul P X) P) =
  Cplx.sub (tl2.trace X)
    (Cplx.divr (along X [q0; q1; q2]) (tl2.inner [q0; q1; q2] [q0; q1; q2])).
Proof.
  intros H1 H2 Hn P. destruct X as [s1 s2 f]. simpl in H1, H2. subst s1 s2.
  unfold tl2.trace, along, P, tl2.ortho_projector, tl2.inner, tl2.at_real in *.
  simpl in *.
  apply cplx_eq; simpl; field; intros Hc; apply Hn; lra.
Qed.

Section MoreIntensities.

Context `{tl2_externals}.
Variable self : MagDyn.
Variable Q_rlu : t_vec_real.

Lemma sums_intensity_body magffact E_and_S :
  let b' := fst (intensity_body self Q_rlu magffact E_and_S) in
  let P := tl2.ortho_projector Q_rlu in
  EnergyAndWeight.S_sum b' = tl2.trace (EnergyAndWeight.S b') /\
  EnergyAndWeight.S_perp_sum b' =
    tl2.trace (tl2.mul (tl2.mul P (EnergyAndWeight.S b')) P) /\
  EnergyAndWeight.S_perp b' = tl2.mul (tl2.mul P (EnergyAndWeight.S b')) P.
Proof.
  unfold intensity_body.
  destruct (negb (String.eqb (m_magffact_formula self) ""));
    repeat split; reflexivity.
Qed.

Lemma intensity_body_frame magffact (b1 b2 : EnergyAndWeight.t) :
  EnergyAndWeight.E b1 = EnergyAndWeight.E b2 ->
  EnergyAndWeight.S b1 = EnergyAndWeight.S b2 ->
  intensity_body self Q_rlu magffact b1 = intensity_body self Q_rlu magffact b2.
Proof. intros HE HS. unfold intensity_body. now rewrite HE, HS. Qed.

Lemma intensity_loop_frame magffact (l1 l2 : EnergiesAndWeights) :
  Forall2 (fun b1 b2 => EnergyAndWeight.E b1 = EnergyAndWeight.E b2 /\
                        EnergyAndWeight.S b1 = EnergyAndWeight.S b2) l1 l2 ->
  intensity_loop self Q_rlu magffact l1 = intensity_loop self Q_rlu magffact l2.
Proof.
  intros HF. revert magffact.
  induction HF as [|b1 b2 l1 l2 [HE HS] _ IH]; intros p; [reflexivity|].
  rewrite !intensity_loop_cons, (intensity_body_frame p b1 b2 HE HS).
  now rewrite IH.
Qed.

Lemma Forall2_of_maps (l1 l2 : EnergiesAndWeights) :
  map EnergyAndWeight.E l1 = map EnergyAndWeight.E l2 ->
  map EnergyAndWeight.S l1 = map EnergyAndWeight.S l2 ->
  Forall2 (fun b1 b2 => EnergyAndWeight.E b1 = EnergyAndWeight.E b2 /\
                        EnergyAndWeight.S b1 = EnergyAndWeight.S b2) l1 l2.
Proof.
  revert l2; induction l1 as [|b1 l1 IH]; intros [|b2 l2] HE HS;
    try discriminate; constructor.
  - simpl in HE, HS. split; congruence.
  - simpl in HE, HS. apply IH; congruence.
Qed.

(** X11.  [CalcIntensities] reads the energy [E] and the tensor [S] of a
    record only: record lists that agree in these give the same result,
    whatever their [S_perp], sums and weights hold. *)
Theorem X11_intensities_read_E_and_S_only (l1 l2 : EnergiesAndWeights) :
  map EnergyAndWeight.E l1 = map EnergyAndWeight.E l2 ->
  map EnergyAndWeight.S l1 = map EnergyAndWeight.S l2 ->
  CalcIntensities self Q_rlu l1 = CalcIntensities self Q_rlu l2.
Proof.
  intros HE HS. unfold CalcIntensities; cbv zeta.
  now apply intensity_loop_frame, Forall2_of_maps.
Qed.

(** the Bose and form-factor steps multiply every tensor entry by
    [intensity_factor] *)
Lemma tensor_scaled_by_factor magffact (b : EnergyAndWeight.t) :
  let X := form_factor_on self Q_rlu magffact (S_after_bose self b) in
  size1 X = size1 (EnergyAndWeight.S b) /\
  size2 X = size2 (EnergyAndWeight.S b) /\
  forall i j, elem X i j =
    Cplx.mulr (elem (EnergyAndWeight.S b) i j)
              (intensity_factor self Q_rlu magffact b).
Proof.
  unfold form_factor_on, S_after_bose, intensity_factor.
  destruct (negb (String.eqb (m_magffact_formula self) ""));
    destruct (Rge_dec (m_temperature self) 0); simpl;
    (split; [reflexivity|split; [reflexivity|]]);
    intros i j; apply cplx_eq; simpl; ring.
Qed.

(** X12.  Both weights of a band are the unweighted values times the
    absolute value of one real factor, the Bose factor (if enabled) times
    the form factor (if configured): [weight_full = |c| * |Re trace(S)|] and
    [weight = |c| * |Re trace(P S P)|] for the tensor [S] handed in. *)
Theorem X12_weights_scale_with_factor (energies : EnergiesAndWeights) (k : nat) :
  let b := nth k energies EnergyAndWeight.init in
  let b' := nth k (CalcIntensities self Q_rlu energies) EnergyAndWeight.init in
  let c := intensity_factor self Q_rlu
             (Nat.iter k (parser_step self Q_rlu) (m_magffact self)) b in
  let P := tl2.ortho_projector Q_rlu in
  (k < length energies)%nat ->
  EnergyAndWeight.weight_full b' =
    Rabs c * Rabs (real (tl2.trace (EnergyAndWeight.S b))) /\
  EnergyAndWeight.weight b' =
    Rabs c * Rabs (real (tl2.trace
                           (tl2.mul (tl2.mul P (EnergyAndWeight.S b)) P))).
Proof.
  intros b b' c P Hk. unfold b', CalcIntensities; cbv zeta.
  rewrite nth_intensity_loop by exact Hk. fold b.
  set (p := Nat.iter k (parser_step self Q_rlu) (m_magffact self)) in *.
  destruct (weights_intensity_body self Q_rlu p b) as [-> ->].
  rewrite S_intensity_body.
  destruct (tensor_scaled_by_factor p b) as (H1 & H2 & HX). fold c in HX.
  rewrite (trace_scaled (EnergyAndWeight.S b) _ c H1 H2 HX).
  rewrite (projected_scaled _ (EnergyAndWeight.S b) _ c H2 HX).
  unfold Cplx.mulr; cbn [real]. rewrite !Rabs_mult. split; apply Rmult_comm.
Qed.

(** X13.  For a momentum vector with three components and non-zero length
    and a 3x3 tensor, the projected sum is the full sum less the part of the
    tensor along [Q]: [S_perp_sum = S_sum - (Q^T S Q) / (Q.Q)], with [S] the
    tensor stored in the record. *)
Theorem X13_projected_sum_closed_form (energies : EnergiesAndWeights) (k : nat) :
  let b := nth k energies EnergyAndWeight.init in
  let b' := nth k (CalcIntensities self Q_rlu energies) EnergyAndWeight.init in
  (k < length energies)%nat ->
  length Q_rlu = 3%nat -> tl2.inner Q_rlu Q_rlu <> 0 ->
  size1 (EnergyAndWeight.S b) = 3%nat -> size2 (EnergyAndWeight.S b) = 3%nat ->
  EnergyAndWeight.S_perp_sum b' =
  Cplx.sub (EnergyAndWeight.S_sum b')
    (Cplx.divr (along (EnergyAndWeight.S b') Q_rlu) (tl2.inner Q_rlu Q_rlu)).
Proof.
  intros b b' Hk HQ Hn H1 H2. unfold b', CalcIntensities; cbv zeta.
  rewrite nth_intensity_loop by exact Hk. fold b.
  set (p := Nat.iter k (parser_step self Q_rlu) (m_magffact self)).
  destruct (sums_intensity_body p b) as (-> & -> & _).
  rewrite S_intensity_body.
  destruct (tensor_scaled_by_factor p b) as (HX1 & HX2 & _).
  destruct Q_rlu as [|q0 [|q1 [|q2 [|q3 q]]]]; try discriminate HQ.
  apply projected_trace_closed_form; congruence.
Qed.

Lemma unweighted_loop_frame magffact (l : EnergiesAndWeights) :
  m_temperature self < 0 -> m_magffact_formula self = ""%string ->
  Forall2 (fun b1 b2 => EnergyAndWeight.E b1 = EnergyAndWeight.E b2 /\
                        EnergyAndWeight.S b1 = EnergyAndWeight.S b2)
          (intensity_loop self Q_rlu magffact l) l.
Proof.
  intros HT Hf. revert magffact.
  induction l as [|b l IH]; intros p; [constructor|].
  rewrite intensity_loop_cons. constructor; [|apply IH].
  split; [apply E_intensity_body|].
  rewrite S_intensity_body. unfold form_factor_on, S_after_bose.
  rewrite Hf. simpl.
  destruct (Rge_dec (m_temperature self) 0); [lra|reflexivity].
Qed.

(** X14.  With Bose weighting disabled (negative temperature) and no form
    factor, running [CalcIntensities] on its own result changes nothing. *)
Theorem X14_unweighted_intensities_idempotent (energies : EnergiesAndWeights) :
  m_temperature self < 0 -> m_magffact_formula self = ""%string ->
  CalcIntensities self Q_rlu (CalcIntensities self Q_rlu energies) =
  CalcIntensities self Q_rlu energies.
Proof.
  intros HT Hf. unfold CalcIntensities; cbv zeta.
  apply intensity_loop_frame. now apply unweighted_loop_frame.
Qed.

End MoreIntensities.

(* ------------------------------------------------------------------ *)
(** ** The length of the momentum vector in the projection *)
(* ------------------------------------------------------------------ *)

Lemma Rsum_mult_l (c : R) (f : nat -> R) (n : nat) :
  Rsum (fun k => c * f k) n = c * Rsum f n.
Proof. induction n as [|n IH]; simpl; [|rewrite IH]; ring. Qed.

Lemma at_real_scale_vec (c : R) (q : t_vec_real) (i : nat) :
  tl2.at_real (scale_vec c q) i = c * tl2.at_real q i.
Proof.
  unfold tl2.at_real, scale_vec.
  destruct (Nat.lt_ge_cases i (length q)) as [Hi|Hi].
  - rewrite (nth_indep _ 0 (c * 0)) by now rewrite length_map.
    apply (map_nth (Rmult c)).
  - rewrite !nth_overflow by (rewrite ?length_map; exact Hi). ring.
Qed.

Lemma inner_scale_vec (c : R) (q : t_vec_real) :
  tl2.inner (scale_vec c q) (scale_vec c q) = c * c * tl2.inner q q.
Proof.
  unfold tl2.inner. rewrite <- Rsum_mult_l.
  unfold scale_vec at 3. rewrite length_map.
  apply Rsum_ext; intros k _. rewrite !at_real_scale_vec. ring.
Qed.

(** the projector sees the direction of [q] only *)
Lemma ortho_projector_scale_vec (c : R) (q : t_vec_real) (i j : nat) :
  c <> 0 -> tl2.inner q q <> 0 ->
  elem (tl2.ortho_projector (scale_vec c q)) i j =
  elem (tl2.ortho_projector q) i j.
Proof.
  intros Hc Hn. simpl. rewrite inner_scale_vec, !at_real_scale_vec.
  apply cplx_eq; simpl; field; split; assumption.
Qed.

Lemma projected_entries_ext (P P' X : t_mat) (i j : nat) :
  size2 P' = size2 P ->
  (forall a b, elem P' a b = elem P a b) ->
  elem (tl2.mul (tl2.mul P' X) P') i j = elem (tl2.mul (tl2.mul P X) P) i j.
Proof.
  intros Hs HP. simpl. apply sum_ext; intros k _. rewrite Hs, HP.
  f_equal. apply sum_ext; intros m _. now rewrite HP.
Qed.

Section Direction.

Context `{tl2_externals}.
Variable self : MagDyn.

(** X17.  Without a form factor only the direction of [Q_rlu] matters:
    multiplying the momentum vector by a non-zero real number changes
    neither [S], the sums and the weights of a band nor any entry of
    [S_perp]. *)
Theorem X17_only_direction_of_Q_matters
  (c : R) (Q_rlu : t_vec_real) (energies : EnergiesAndWeights) (k : nat) :
  let b1 := nth k (CalcIntensities self Q_rlu energies) EnergyAndWeight.init in
  let b2 := nth k (CalcIntensities self (scale_vec c Q_rlu) energies)
              EnergyAndWeight.init in
  (k < length energies)%nat -> c <> 0 -> tl2.inner Q_rlu Q_rlu <> 0 ->
  m_magffact_formula self = ""%string ->
  EnergyAndWeight.S b2 = EnergyAndWeight.S b1 /\
  EnergyAndWeight.S_sum b2 = EnergyAndWeight.S_sum b1 /\
  EnergyAndWeight.weight_full b2 = EnergyAndWeight.weight_full b1 /\
  (forall i j, elem (EnergyAndWeight.S_perp b2) i j =
               elem (EnergyAndWeight.S_perp b1) i j) /\
  EnergyAndWeight.S_perp_sum b2 = EnergyAndWeight.S_perp_sum b1 /\
  EnergyAndWeight.weight b2 = EnergyAndWeight.weight b1.
Proof.
  intros b1 b2 Hk Hc Hn Hf. unfold b1, b2, CalcIntensities; cbv zeta.
  rewrite !nth_intensity_loop by exact Hk.
  set (b := nth k energies EnergyAndWeight.init).
  set (p1 := Nat.iter k (parser_step self Q_rlu) (m_magffact self)).
  set (p2 := Nat.iter k (parser_step self (scale_vec c Q_rlu)) (m_magffact self)).
  destruct (sums_intensity_body self Q_rlu p1 b) as (Hs1 & Hp1 & HP1).
  destruct (sums_intensity_body self (scale_vec c Q_rlu) p2 b) as (Hs2 & Hp2 & HP2).
  destruct (weights_intensity_body self Q_rlu p1 b) as (Hw1 & Hv1).
  destruct (weights_intensity_body self (scale_vec c Q_rlu) p2 b) as (Hw2 & Hv2).
  cbv zeta in *.
  assert (HS : EnergyAndWeight.S
                 (fst (intensity_body self (scale_vec c Q_rlu) p2 b)) =
               EnergyAndWeight.S (fst (intensity_body self Q_rlu p1 b))).
  { rewrite !S_intensity_body. unfold form_factor_on. now rewrite Hf. }
  assert (Hsize : size2 (tl2.ortho_projector (scale_vec c Q_rlu)) =
                  size2 (tl2.ortho_projector Q_rlu))
    by (simpl; unfold scale_vec; apply length_map).
  assert (Hsize1 : size1 (tl2.ortho_projector (scale_vec c Q_rlu)) =
                   size1 (tl2.ortho_projector Q_rlu))
    by (simpl; unfold scale_vec; apply length_map).
  assert (Hent : forall i j,
    elem (tl2.mul (tl2.mul (tl2.ortho_projector (scale_vec c Q_rlu))
                     (EnergyAndWeight.S (fst (intensity_body self Q_rlu p1 b))))
            (tl2.ortho_projector (scale_vec c Q_rlu))) i j =
    elem (tl2.mul (tl2.mul (tl2.ortho_projector Q_rlu)
                     (EnergyAndWeight.S (fst (intensity_body self Q_rlu p1 b))))
            (tl2.ortho_projector Q_rlu)) i j).
  { intros i j. apply projected_entries_ext; [exact Hsize|].
    intros a b0. now apply ortho_projector_scale_vec. }
  assert (Htr :
    tl2.trace (tl2.mul (tl2.mul (tl2.ortho_projector (scale_vec c Q_rlu))
                     (EnergyAndWeight.S (fst (intensity_body self Q_rlu p1 b))))
            (tl2.ortho_projector (scale_vec c Q_rlu))) =
    tl2.trace (tl2.mul (tl2.mul (tl2.ortho_projector Q_rlu)
                     (EnergyAndWeight.S (fst (intensity_body self Q_rlu p1 b))))
            (tl2.ortho_projector Q_rlu))).
  { unfold tl2.trace.
    change (size1 (tl2.mul (tl2.mul ?P ?X) ?P')) with (size1 P).
    change (size2 (tl2.mul (tl2.mul ?P ?X) ?P')) with (size2 P').
    rewrite Hsize, Hsize1. apply sum_ext; intros i _. apply Hent. }
  rewrite Hw2, Hv2, Hs2, Hp2, HP2, Hw1, Hv1, Hs1, Hp1, HP1, HS, Htr.
  repeat split. exact Hent.
Qed.

End Direction.

Section OuterProductOfM.

Context `{tl2_externals}.
Variable self : MagDyn.

(** X15.  For sites with non-negative spin magnitudes, positions of one
    length and [uc] the conjugate of [u], the coupling matrix is an outer
    product, [M_xy(I, J) = w_x(I) * conj(w_y(J))], and exchanging both index
    pairs conjugates it: [M_xy(I, J) = conj(M_yx(J, I))]. *)
Theorem X15_M_is_outer_product (Qvec : t_vec_real) (d x_idx y_idx I J : nat) :
  let N := GetMagneticSitesCount self in
  sites_wf self d -> (x_idx < 3)%nat -> (y_idx < 3)%nat ->
  (I < 2 * N)%nat -> (J < 2 * N)%nat ->
  elem (M_of self Qvec x_idx y_idx) I J =
    Cplx.mul (site_vector self Qvec x_idx I)
             (Cplx.conj (site_vector self Qvec y_idx J)) /\
  elem (M_of self Qvec x_idx y_idx) I J =
    Cplx.conj (elem (M_of self Qvec y_idx x_idx) J I).
Proof.
  intros N Hwf Hx Hy HI HJ.
  rewrite !(M_of_outer_product self Qvec d) by assumption.
  split; [reflexivity|].
  generalize (site_vector self Qvec x_idx I) (site_vector self Qvec y_idx J).
  intros a b. apply cplx_eq; simpl; ring.
Qed.

End OuterProductOfM.

(* ------------------------------------------------------------------ *)
(** ** The routines on the small system *)
(* ------------------------------------------------------------------ *)

Lemma csqrt_of_real (x : R) :
  0 <= x -> Cplx.csqrt (Cplx.of_real x) = Cplx.of_real (sqrt x).
Proof.
  intros Hx. unfold Cplx.csqrt, Cplx.abs, Cplx.of_real. simpl.
  replace (x * x + 0 * 0) with (x * x) by ring.
  rewrite sqrt_square by exact Hx.
  replace ((x + x) / 2) with x by field.
  replace ((x - x) / 2) with 0 by field.
  rewrite sqrt_0.
  destruct (Rlt_dec 0 0) as [Hlt|_]; [lra|reflexivity].
Qed.

(** the square-root loop of lines 103-104, entry by entry *)
Lemma E_sqrt_of_entries (g_sign energy_mat : t_mat) (i j : nat) :
  elem (E_sqrt_of g_sign energy_mat) i j =
  if (i =? j)%nat && (i <? size1 g_sign)%nat
  then Cplx.csqrt (elem (tl2.mul g_sign energy_mat) i i)
  else elem (tl2.mul g_sign energy_mat) i j.
Proof.
  unfold E_sqrt_of; cbv zeta.
  change (size1 (tl2.mul g_sign energy_mat)) with (size1 g_sign).
  generalize (tl2.mul g_sign energy_mat); intros m.
  revert i j. induction (size1 g_sign) as [|n IH]; intros i j.
  - simpl. now rewrite andb_false_r.
  - rewrite seq_S, fold_left_app. simpl. rewrite (IH i j), (IH n n).
    rewrite Nat.ltb_irrefl, andb_false_r.
    destruct (Nat.eqb_spec i j) as [->|Hij];
      destruct (Nat.eqb_spec j n) as [->|Hjn];
      try destruct (Nat.eqb_spec i n) as [->|Hin];
      try destruct (Nat.ltb_spec n n);
      try destruct (Nat.ltb_spec n (S n));
      try destruct (Nat.ltb_spec j n);
      try destruct (Nat.ltb_spec j (S n));
      simpl; try reflexivity; try lia.
Qed.

Lemma eq_on_mul (n : nat) (A A' B B' : t_mat) :
  size2 A = n -> size2 A' = n -> eq_on n A A' -> eq_on n B B' ->
  eq_on n (tl2.mul A B) (tl2.mul A' B').
Proof.
  intros HA HA' HAA HBB i j Hi Hj. simpl. rewrite HA, HA'.
  apply sum_ext; intros k Hk. now rewrite HAA, HBB.
Qed.

Lemma eq_on_herm (n : nat) (A A' : t_mat) :
  eq_on n A A' -> eq_on n (tl2.herm A) (tl2.herm A').
Proof. intros HAA i j Hi Hj. simpl. now rewrite HAA. Qed.

Lemma eq_on_trans (n : nat) (A B C : t_mat) :
  eq_on n A B -> eq_on n B C -> eq_on n A C.
Proof. intros HAB HBC i j Hi Hj. now rewrite HAB, HBC. Qed.

(** the diagonal of [A^H * M * A] depends on the [n x n] corners only *)
Lemma conjugated_diag_eq_on (n : nat) (T T' M M' : t_mat) (k : nat) :
  size1 T = n -> size1 T' = n -> size2 M = n -> size2 M' = n ->
  eq_on n T T' -> eq_on n M M' -> (k < n)%nat ->
  elem (tl2.mul (tl2.mul (tl2.herm T) M) T) k k =
  elem (tl2.mul (tl2.mul (tl2.herm T') M') T') k k.
Proof.
  intros HT HT' HM HM' HTT HMM Hk.
  apply (eq_on_mul n); try assumption; try reflexivity.
  apply (eq_on_mul n); try assumption.
  now apply eq_on_herm.
Qed.

Module ExampleFacts.

Import Example.

Ltac two_by_two i j Hi Hj :=
  destruct i as [|[|i]]; [| |lia];
  (destruct j as [|[|j]]; [| |lia]).

Lemma Rgeb_gt (a b : R) : a > b -> Rgeb b a = false.
Proof. intros Hab. unfold Rgeb. destruct (Rge_dec b a); [lra|reflexivity]. Qed.

(** with a larger first energy the two bands keep their order *)
Lemma sorting_bands (e0 e1 : R) :
  e0 > e1 -> energy_sorting (bands e0 e1) = [0%nat; 1%nat].
Proof.
  intros He. unfold energy_sorting, tl2.get_perm. simpl.
  now rewrite (Rgeb_gt e0 e1 He).
Qed.

Lemma evec_mat_bands (e0 e1 : R) :
  e0 > e1 -> evec_mat_of (bands e0 e1) evecs = tl2.create_cols evecs.
Proof.
  intros He. unfold evec_mat_of. now rewrite (sorting_bands e0 e1 He).
Qed.

Lemma create_cols_evecs : eq_on 2 (tl2.create_cols evecs) (tl2.unit 2).
Proof. intros i j Hi Hj. two_by_two i j Hi Hj; reflexivity. Qed.

Lemma diag2_mul (a b c d : R) :
  eq_on 2 (tl2.mul (diag2 a b) (diag2 c d)) (diag2 (a * c) (b * d)).
Proof.
  intros i j Hi Hj. two_by_two i j Hi Hj; apply cplx_eq; simpl; ring.
Qed.

Lemma unit_mul_l (A : t_mat) : eq_on 2 (tl2.mul (tl2.unit 2) A) A.
Proof.
  intros i j Hi Hj. two_by_two i j Hi Hj; apply cplx_eq; simpl; ring.
Qed.

(** the energy matrix of a diagonal Hamiltonian in the basis of unit
    vectors *)
Lemma energy_mat_diag2 (e0 e1 h0 h1 : R) :
  e0 > e1 ->
  eq_on 2 (energy_mat_of (diag2 h0 h1) (evec_mat_of (bands e0 e1) evecs))
          (diag2 h0 h1).
Proof.
  intros He. rewrite (evec_mat_bands e0 e1 He). unfold energy_mat_of.
  intros i j Hi Hj. two_by_two i j Hi Hj; apply cplx_eq; simpl; ring.
Qed.

Lemma inv_unit :
  snd (inv (tl2.unit 2)) = true /\
  size1 (fst (inv (tl2.unit 2))) = 2%nat /\
  size2 (fst (inv (tl2.unit 2))) = 2%nat /\
  eq_on 2 (fst (inv (tl2.unit 2))) (tl2.unit 2).
Proof.
  simpl. unfold inv_2x2, is_zero. simpl.
  destruct (Req_dec_T (1 * 1 - 0 * 0 - (0 * 0 - 0 * 0)) 0) as [Hz|_]; [lra|].
  simpl. repeat split.
  intros i j Hi Hj.
  two_by_two i j Hi Hj; apply cplx_eq; simpl; field.
Qed.

Lemma inv_zero : snd (inv (tl2.zero 2 2)) = false.
Proof.
  simpl. unfold inv_2x2, is_zero. simpl.
  destruct (Req_dec_T (0 * 0 - 0 * 0 - (0 * 0 - 0 * 0)) 0) as [_|Hz]; [|lra].
  destruct (Req_dec_T (0 * 0 + 0 * 0 - (0 * 0 + 0 * 0)) 0) as [_|Hz]; [|lra].
  reflexivity.
Qed.


Lemma size_trafo_unit_chol energies H_mat g_sign :
  size1 (trafo_at energies H_mat (tl2.unit 2) g_sign evecs) = 2%nat /\
  size2 (trafo_at energies H_mat (tl2.unit 2) g_sign evecs) = 2%nat.
Proof.
  split; [|now rewrite size2_trafo_at].
  unfold trafo_at, trafo_of; cbv zeta. simpl size1. apply inv_unit.
Qed.

(** the transform for a diagonal Hamiltonian, a diagonal sign matrix and the
    unit matrix as Cholesky factor *)
Lemma trafo_diag2 (e0 e1 h0 h1 g0 g1 : R) :
  e0 > e1 -> 0 <= g0 * h0 -> 0 <= g1 * h1 ->
  eq_on 2 (trafo_at (bands e0 e1) (diag2 h0 h1) (tl2.unit 2) (diag2 g0 g1) evecs)
          (diag2 (sqrt (g0 * h0)) (sqrt (g1 * h1))).
Proof.
  intros He H0 H1. unfold trafo_at, trafo_of; cbv zeta.
  destruct inv_unit as (_ & Hs1 & Hs2 & Hinv).
  set (V := evec_mat_of (bands e0 e1) evecs).
  assert (HV : eq_on 2 V (tl2.unit 2)).
  { unfold V. rewrite (evec_mat_bands e0 e1 He). apply create_cols_evecs. }
  assert (HgL : eq_on 2 (tl2.mul (diag2 g0 g1) (energy_mat_of (diag2 h0 h1) V))
                        (diag2 (g0 * h0) (g1 * h1))).
  { eapply eq_on_trans; [|apply diag2_mul].
    apply (eq_on_mul 2); try reflexivity.
    - intros i j _ _; reflexivity.
    - apply (energy_mat_diag2 e0 e1 h0 h1 He). }
  assert (HE : eq_on 2 (E_sqrt_of (diag2 g0 g1) (energy_mat_of (diag2 h0 h1) V))
                       (diag2 (sqrt (g0 * h0)) (sqrt (g1 * h1)))).
  { intros i j Hi Hj. rewrite E_sqrt_of_entries, !HgL by assumption.
    two_by_two i j Hi Hj; simpl;
      try reflexivity; now apply csqrt_of_real. }
  set (D := diag2 (sqrt (g0 * h0)) (sqrt (g1 * h1))) in *.
  assert (HA : eq_on 2 (tl2.mul (fst (inv (tl2.unit 2))) V) (tl2.unit 2)).
  { apply (eq_on_trans 2 _ (tl2.mul (tl2.unit 2) (tl2.unit 2)));
      [|apply unit_mul_l].
    apply (eq_on_mul 2); try assumption; reflexivity. }
  apply (eq_on_trans 2 _ (tl2.mul (tl2.unit 2) D)); [|apply unit_mul_l].
  apply (eq_on_mul 2); try assumption; reflexivity.
Qed.

Lemma prefactor_example : prefactor_of magdyn Q0 0 0 = Cplx.C1.
Proof.
  unfold prefactor_of, phase_of, Cplx.cexp, Cplx.mulr. simpl.
  assert (Hin : tl2.inner (tl2.vec_sub [0; 0; 0] [0; 0; 0]) Q0 = 0)
    by (unfold tl2.inner, tl2.vec_sub, tl2.at_real, Q0; simpl; ring).
  rewrite Hin.
  replace (- (-1 * (2 * PI) * 0)) with 0 by ring.
  rewrite exp_0, cos_0, sin_0, Rmult_1_r, sqrt_1.
  apply cplx_eq; simpl; ring.
Qed.

(** for [x_idx = y_idx = 0] all four blocks hold a one *)
Lemma M_example : eq_on 2 (M_of magdyn Q0 0 0) ones2.
Proof.
  assert (H0 : (0 < GetMagneticSitesCount magdyn)%nat)
    by (unfold GetMagneticSitesCount; simpl; lia).
  destruct (M_of_entries magdyn Q0 0 0 0 0 H0 H0) as (E00 & E0N & EN0 & ENN).
  cbv zeta in *.
  change (GetMagneticSitesCount magdyn) with 1%nat in *. simpl Nat.add in *.
  unfold entry00, entry0N, entryN0, entryNN in *.
  rewrite prefactor_example in *.
  intros i j Hi Hj.
  two_by_two i j Hi Hj;
    [rewrite E00|rewrite E0N|rewrite EN0|rewrite ENN];
    apply cplx_eq; simpl; ring.
Qed.


Lemma diag2_mat2 (a b : R) : eq_on 2 (diag2 a b) (mat2 a 0 0 b).
Proof. intros i j Hi Hj. two_by_two i j Hi Hj; reflexivity. Qed.

Lemma eq_on_refl (n : nat) (A : t_mat) : eq_on n A A.
Proof. intros i j _ _; reflexivity. Qed.

(** the square-root loop on a matrix with the diagonal [(a^2, b^2)] *)
Lemma E_sqrt_squares (g_sign energy_mat : t_mat) (a b : R) :
  size1 g_sign = 2%nat -> 0 <= a -> 0 <= b ->
  eq_on 2 (tl2.mul g_sign energy_mat) (diag2 (a * a) (b * b)) ->
  eq_on 2 (E_sqrt_of g_sign energy_mat) (diag2 a b).
Proof.
  intros Hg Ha Hb HgL i j Hi Hj.
  rewrite E_sqrt_of_entries, Hg, !HgL by assumption.
  two_by_two i j Hi Hj; simpl; try reflexivity;
    rewrite csqrt_of_real by nra; now rewrite sqrt_square.
Qed.

(** *** The second system: a transform that is not unitary *)

Lemma sorting_K : energy_sorting (bands 81 (-169)) = [0%nat; 1%nat].
Proof. apply sorting_bands. lra. Qed.

Lemma evec_mat_K :
  evec_mat_of (bands 81 (-169)) evecs_K = tl2.create_cols evecs_K.
Proof. unfold evec_mat_of. now rewrite sorting_K. Qed.

Lemma create_cols_K :
  eq_on 2 (tl2.create_cols evecs_K) (mat2 (-3 / 5) (4 / 5) (4 / 5) (3 / 5)).
Proof. intros i j Hi Hj. two_by_two i j Hi Hj; reflexivity. Qed.

Lemma H_K_entries : eq_on 2 H_K (mat2 (-79) (-120) (-120) (-9)).
Proof.
  intros i j Hi Hj. unfold H_K, chol_K, g_pm.
  two_by_two i j Hi Hj; apply cplx_eq; simpl; ring.
Qed.

Lemma energy_mat_K :
  eq_on 2 (energy_mat_of H_K (evec_mat_of (bands 81 (-169)) evecs_K))
          (diag2 81 (-169)).
Proof.
  rewrite evec_mat_K. unfold energy_mat_of.
  set (V := mat2 (-3 / 5) (4 / 5) (4 / 5) (3 / 5)).
  set (Hc := mat2 (-79) (-120) (-120) (-9)).
  apply (eq_on_trans 2 _ (tl2.mul (tl2.mul (tl2.herm V) Hc) V)).
  - apply (eq_on_mul 2); [reflexivity|reflexivity| |apply create_cols_K].
    apply (eq_on_mul 2); [reflexivity|reflexivity| |apply H_K_entries].
    apply eq_on_herm, create_cols_K.
  - intros i j Hi Hj. unfold V, Hc.
    two_by_two i j Hi Hj; apply cplx_eq; simpl; field.
Qed.

Lemma inv_K :
  snd (inv chol_K) = true /\
  size1 (fst (inv chol_K)) = 2%nat /\
  size2 (fst (inv chol_K)) = 2%nat /\
  eq_on 2 (fst (inv chol_K)) (mat2 (1 / 39) (-40 / 117) 0 (1 / 3)).
Proof.
  simpl. unfold inv_2x2, is_zero. simpl.
  destruct (Req_dec_T (39 * 3 - 0 * 0 - (40 * 0 - 0 * 0)) 0) as [Hz|_]; [lra|].
  simpl. repeat split.
  intros i j Hi Hj.
  two_by_two i j Hi Hj; apply cplx_eq; simpl; field.
Qed.

Lemma size_trafo_K :
  size1 (trafo_at (bands 81 (-169)) H_K chol_K g_pm evecs_K) = 2%nat /\
  size2 (trafo_at (bands 81 (-169)) H_K chol_K g_pm evecs_K) = 2%nat.
Proof.
  split; [|now rewrite size2_trafo_at].
  unfold trafo_at, trafo_of; cbv zeta. simpl size1. apply inv_K.
Qed.

(** the transform of the second system: [cosh] and [sinh] are 13/5 and
    12/5 *)
Lemma trafo_K :
  eq_on 2 (trafo_at (bands 81 (-169)) H_K chol_K g_pm evecs_K)
          (mat2 (-13 / 5) (-12 / 5) (12 / 5) (13 / 5)).
Proof.
  unfold trafo_at, trafo_of; cbv zeta.
  destruct inv_K as (_ & Hs1 & Hs2 & Hinv).
  set (V := evec_mat_of (bands 81 (-169)) evecs_K).
  assert (HV : eq_on 2 V (mat2 (-3 / 5) (4 / 5) (4 / 5) (3 / 5)))
    by (unfold V; rewrite evec_mat_K; apply create_cols_K).
  assert (HVs : size2 V = 2%nat) by (unfold V; now rewrite evec_mat_K).
  assert (HE : eq_on 2 (E_sqrt_of g_pm (energy_mat_of H_K V)) (diag2 9 13)).
  { apply E_sqrt_squares; [reflexivity|lra|lra|].
    apply (eq_on_trans 2 _ (tl2.mul g_pm (diag2 81 (-169)))).
    - apply (eq_on_mul 2); [reflexivity|reflexivity|apply eq_on_refl|].
      apply energy_mat_K.
    - intros i j Hi Hj. unfold g_pm.
      two_by_two i j Hi Hj; apply cplx_eq; simpl; ring. }
  apply (eq_on_trans 2 _
           (tl2.mul (tl2.mul (mat2 (1 / 39) (-40 / 117) 0 (1 / 3))
                             (mat2 (-3 / 5) (4 / 5) (4 / 5) (3 / 5)))
                    (diag2 9 13))).
  - apply (eq_on_mul 2); [exact HVs|reflexivity| |exact HE].
    apply (eq_on_mul 2); [exact Hs2|reflexivity|exact Hinv|exact HV].
  - intros i j Hi Hj.
    two_by_two i j Hi Hj; apply cplx_eq; simpl; field.
Qed.

End ExampleFacts.

(* ------------------------------------------------------------------ *)
(** ** The claims on the small system *)
(* ------------------------------------------------------------------ *)

Import Example ExampleFacts.

Lemma one_site : GetMagneticSitesCount magdyn <> 0%nat.
Proof. unfold GetMagneticSitesCount; simpl; lia. Defined.

Lemma length_out_example energies H_mat chol_mat g_sign (ev : list t_vec) :
  length ev = 2%nat ->
  length (fst (CalcCorrelationsFromHamiltonian magdyn energies H_mat chol_mat
                 g_sign Q0 ev)) = 2%nat.
Proof. intros <-. now rewrite length_CalcCorrelations by exact one_site. Defined.

(** C1 on the one-site system with the Hamiltonian [diag(1, -1)]. *)
Lemma C1_witness :
  GetMagneticSitesCount magdyn <> 0%nat /\
  let V := tl2.create_cols (tl2.reorder [] evecs (energy_sorting (bands 1 (-1)))) in
  let out := fst (CalcCorrelationsFromHamiltonian magdyn (bands 1 (-1))
                    (diag2 1 (-1)) (tl2.unit 2) (diag2 1 (-1)) Q0 evecs) in
  length out = length evecs /\
  (forall i, (i < length out)%nat ->
     EnergyAndWeight.E (nth i out EnergyAndWeight.init) =
     real (elem (tl2.mul (tl2.mul (tl2.herm V) (diag2 1 (-1))) V) i i)) /\
  (forall g_sign',
     map EnergyAndWeight.E
       (fst (CalcCorrelationsFromHamiltonian magdyn (bands 1 (-1))
               (diag2 1 (-1)) (tl2.unit 2) g_sign' Q0 evecs)) =
     map EnergyAndWeight.E out).
Proof.
  split; [exact one_site|].
  exact (C1_energies_from_transformed_hamiltonian magdyn (bands 1 (-1))
           (diag2 1 (-1)) (tl2.unit 2) (diag2 1 (-1)) Q0 evecs one_site).
Defined.

(** C9 on the system without sites. *)
Lemma C9_witness :
  GetMagneticSitesCount magdyn_empty = 0%nat /\
  CalcCorrelationsFromHamiltonian magdyn_empty (bands 1 (-1)) (diag2 1 (-1))
    (tl2.unit 2) (diag2 1 (-1)) Q0 evecs = (bands 1 (-1), []).
Proof.
  split; [reflexivity|].
  apply (C9_zero_sites_no_op magdyn_empty). reflexivity.
Defined.

(** C7 with the zero matrix as Cholesky factor, which cannot be inverted. *)
Lemma C7_witness :
  GetMagneticSitesCount magdyn <> 0%nat /\
  snd (inv (tl2.zero 2 2)) = false /\
  let res := CalcCorrelationsFromHamiltonian magdyn (bands 1 (-1))
               (diag2 1 (-1)) (tl2.zero 2 2) (diag2 1 (-1)) Q0 evecs in
  snd res = [Inversion_failed_at_Q Q0] /\ length (fst res) = length evecs.
Proof.
  split; [exact one_site|]. split; [exact inv_zero|].
  destruct (C7_inversion_failure_warns_and_continues magdyn (bands 1 (-1))
              (diag2 1 (-1)) (tl2.zero 2 2) (diag2 1 (-1)) Q0 evecs
              one_site inv_zero) as (Hcerr & _ & Hlen).
  split; [exact Hcerr|exact Hlen].
Defined.

(** C2 on the one-site system, for [x_idx = y_idx = 0] and band 0. *)
Lemma C2_witness :
  let N := GetMagneticSitesCount magdyn in
  let M := M_of magdyn Q0 0 0 in
  let T := trafo_at (bands 1 (-1)) (diag2 1 (-1)) (tl2.unit 2) (diag2 1 (-1))
             evecs in
  let out := fst (CalcCorrelationsFromHamiltonian magdyn (bands 1 (-1))
                    (diag2 1 (-1)) (tl2.unit 2) (diag2 1 (-1)) Q0 evecs) in
  ((0 < 3)%nat /\ (0 < N)%nat /\ (0 < length out)%nat) /\
  (size1 M = (2 * N)%nat /\ size2 M = (2 * N)%nat) /\
  elem (EnergyAndWeight.S (nth 0 out EnergyAndWeight.init)) 0 0 =
    Cplx.divr (elem (tl2.mul (tl2.mul (tl2.herm T) M) T) 0 0) (INR (2 * N)).
Proof.
  intros N M T out.
  assert (H3 : (0 < 3)%nat) by lia.
  assert (HN : (0 < N)%nat) by (unfold N, GetMagneticSitesCount; simpl; lia).
  assert (Hk : (0 < length out)%nat)
    by (unfold out; rewrite length_out_example; [lia|reflexivity]).
  split; [repeat split; assumption|].
  destruct (C2_coupling_blocks_and_band_accumulation magdyn (bands 1 (-1))
              (diag2 1 (-1)) (tl2.unit 2) (diag2 1 (-1)) Q0 evecs
              0 0 0 0 0 H3 H3 HN HN Hk) as (Hsize & _ & _ & Hfinal).
  split; [exact Hsize|exact Hfinal].
Defined.

(** the band terms of [S(0, 0)] on the one-site system for a transform with
    the real entries [a b; c d] *)
Lemma band_term_mat2 (T : t_mat) (a b c d : R) (k : nat) :
  size1 T = 2%nat -> eq_on 2 T (mat2 a b c d) -> (k < 2)%nat ->
  band_term magdyn T Q0 0 0 k =
  Cplx.of_real
    ((if (k =? 0)%nat then (a + c) * (a + c) else (b + d) * (b + d)) / 2).
Proof.
  intros HT Heq Hk. unfold band_term.
  rewrite (conjugated_diag_eq_on 2 T (mat2 a b c d) (M_of magdyn Q0 0 0) ones2 k);
    try assumption; try reflexivity; [|apply M_example].
  change (INR (size1 (M_of magdyn Q0 0 0))) with (1 + 1).
  destruct k as [|[|k]]; [| |lia]; apply cplx_eq; simpl; field.
Qed.

Lemma trace_M_example : tl2.trace (M_of magdyn Q0 0 0) = Cplx.of_real 2.
Proof.
  unfold tl2.trace.
  change (Nat.min (size1 (M_of magdyn Q0 0 0)) (size2 (M_of magdyn Q0 0 0)))
    with 2%nat.
  cbn [Cplx.sum]. rewrite !M_example by lia.
  apply cplx_eq; simpl; ring.
Qed.

Lemma sum_S_mat2 energies H_mat chol_mat g_sign (ev : list t_vec) (a b c d : R) :
  length ev = 2%nat ->
  size1 (trafo_at energies H_mat chol_mat g_sign ev) = 2%nat ->
  eq_on 2 (trafo_at energies H_mat chol_mat g_sign ev) (mat2 a b c d) ->
  let out := fst (CalcCorrelationsFromHamiltonian magdyn energies H_mat
                    chol_mat g_sign Q0 ev) in
  Cplx.sum (fun k => elem (EnergyAndWeight.S (nth k out EnergyAndWeight.init))
                          0 0) (length out)
  = Cplx.of_real (((a + c) * (a + c) + (b + d) * (b + d)) / 2).
Proof.
  intros Hev Hs1 HT out. unfold out.
  rewrite length_out_example by exact Hev. cbn [Cplx.sum].
  rewrite !S_CalcCorrelations by (try exact one_site; lia).
  rewrite !(band_term_mat2 _ a b c d) by (try assumption; lia).
  apply cplx_eq; simpl; field.
Qed.

(** C3 as stated fails, on two inputs.

    First input: Hamiltonian [diag(1, 0)], sign matrix [diag(1, -1)] and the
    unit matrix as Cholesky factor.  The energies are [1] and [0], the
    transform [T] satisfies [T^H * H * T = diag(1, 0)], the diagonal matrix
    of the energies, and the contributions to [S(0, 0)] of the two bands sum
    to [1/2], while [trace(M) / (2N)] is [1].

    Second input: the Cholesky factor [K = (39 40; 0 3)] with the matrix
    [K * g * K^H] as Hamiltonian argument and its normalised eigenvectors.
    The energies are [81] and [-169]; the transform satisfies
    [T^H * g * T = g] and [T^H * (K^H * K) * T = diag(81, 169)], and the
    contributions to [S(0, 0)] sum to [1/25], again not [1]. *)
Lemma C3_counterexample :
  (let H_mat := diag2 1 0 in
   let T := trafo_at (bands 1 0) H_mat (tl2.unit 2) g_pm evecs in
   let out := fst (CalcCorrelationsFromHamiltonian magdyn (bands 1 0) H_mat
                     (tl2.unit 2) g_pm Q0 evecs) in
   length out = (2 * GetMagneticSitesCount magdyn)%nat /\
   eq_on 2 (tl2.mul (tl2.mul (tl2.herm T) H_mat) T)
           (diag2 (EnergyAndWeight.E (nth 0 out EnergyAndWeight.init))
                  (EnergyAndWeight.E (nth 1 out EnergyAndWeight.init))) /\
   Cplx.sum (fun k => elem (EnergyAndWeight.S (nth k out EnergyAndWeight.init))
                           0 0) (length out)
   <> Cplx.divr (tl2.trace (M_of magdyn Q0 0 0))
                (INR (2 * GetMagneticSitesCount magdyn)))
  /\
  (let T := trafo_at (bands 81 (-169)) H_K chol_K g_pm evecs_K in
   let out := fst (CalcCorrelationsFromHamiltonian magdyn (bands 81 (-169)) H_K
                     chol_K g_pm Q0 evecs_K) in
   length out = (2 * GetMagneticSitesCount magdyn)%nat /\
   EnergyAndWeight.E (nth 0 out EnergyAndWeight.init) = 81 /\
   EnergyAndWeight.E (nth 1 out EnergyAndWeight.init) = -169 /\
   eq_on 2 (tl2.mul (tl2.mul (tl2.herm T) g_pm) T) g_pm /\
   eq_on 2 (tl2.mul (tl2.mul (tl2.herm T) (tl2.mul (tl2.herm chol_K) chol_K)) T)
           (diag2 81 169) /\
   Cplx.sum (fun k => elem (EnergyAndWeight.S (nth k out EnergyAndWeight.init))
                           0 0) (length out)
   <> Cplx.divr (tl2.trace (M_of magdyn Q0 0 0))
                (INR (2 * GetMagneticSitesCount magdyn))).
Proof.
  split.
  - intros H_mat T out.
    assert (He : 1 > 0) by lra.
    assert (HT : eq_on 2 T (diag2 1 0)).
    { assert (HT0 := trafo_diag2 1 0 1 0 1 (-1)).
      rewrite Rmult_1_r, sqrt_1 in HT0.
      replace (-1 * 0) with 0 in HT0 by ring. rewrite sqrt_0 in HT0.
      apply HT0; lra. }
    destruct (size_trafo_unit_chol (bands 1 0) H_mat g_pm) as [Hs1 Hs2].
    split; [now apply length_out_example|]. split.
    + unfold out.
      rewrite !E_CalcCorrelations by (try exact one_site; simpl; lia).
      rewrite !(energy_mat_diag2 1 0 1 0 He) by lia.
      apply (eq_on_trans 2 _
               (tl2.mul (tl2.mul (tl2.herm (diag2 1 0)) H_mat) (diag2 1 0))).
      * apply (eq_on_mul 2); [reflexivity|reflexivity| |exact HT].
        apply (eq_on_mul 2); [exact Hs1|reflexivity| |apply eq_on_refl].
        now apply eq_on_herm.
      * intros i j Hi Hj.
        two_by_two i j Hi Hj; apply cplx_eq; simpl; ring.
    + unfold out.
      rewrite (sum_S_mat2 _ _ _ _ evecs 1 0 0 0);
        [|reflexivity|exact Hs1|].
      * rewrite trace_M_example.
        intros Heq. apply (f_equal real) in Heq. simpl in Heq. lra.
      * apply (eq_on_trans 2 _ (diag2 1 0)); [exact HT|apply diag2_mat2].
  - intros T out.
    destruct size_trafo_K as [Hs1 Hs2].
    assert (HT := trafo_K). fold T in HT, Hs1, Hs2.
    set (Tc := mat2 (-13 / 5) (-12 / 5) (12 / 5) (13 / 5)) in *.
    split; [now apply length_out_example|].
    split; [|split; [|split; [|split]]].
    + unfold out.
      rewrite E_CalcCorrelations by (try exact one_site; simpl; lia).
      now rewrite energy_mat_K by lia.
    + unfold out.
      rewrite E_CalcCorrelations by (try exact one_site; simpl; lia).
      now rewrite energy_mat_K by lia.
    + apply (eq_on_trans 2 _ (tl2.mul (tl2.mul (tl2.herm Tc) g_pm) Tc)).
      * apply (eq_on_mul 2); [reflexivity|reflexivity| |exact HT].
        apply (eq_on_mul 2); [exact Hs1|reflexivity| |apply eq_on_refl].
        now apply eq_on_herm.
      * intros i j Hi Hj. unfold Tc, g_pm.
        two_by_two i j Hi Hj; apply cplx_eq; simpl; field.
    + apply (eq_on_trans 2 _
               (tl2.mul (tl2.mul (tl2.herm Tc)
                                 (tl2.mul (tl2.herm chol_K) chol_K)) Tc)).
      * apply (eq_on_mul 2); [reflexivity|reflexivity| |exact HT].
        apply (eq_on_mul 2); [exact Hs1|reflexivity| |apply eq_on_refl].
        now apply eq_on_herm.
      * intros i j Hi Hj. unfold Tc, chol_K.
        two_by_two i j Hi Hj; apply cplx_eq; simpl; field.
    + unfold out.
      rewrite (sum_S_mat2 _ _ _ _ evecs_K _ _ _ _ eq_refl Hs1 HT).
      rewrite trace_M_example.
      intros Heq. apply (f_equal real) in Heq. simpl in Heq. lra.
Qed.

(** C3 (amended) on the one-site system with the Hamiltonian [diag(1, -1)],
    whose transform is the unit matrix. *)
Lemma C3_witness :
  let N := GetMagneticSitesCount magdyn in
  let M := M_of magdyn Q0 0 0 in
  let T := trafo_at (bands 1 (-1)) (diag2 1 (-1)) (tl2.unit 2) (diag2 1 (-1))
             evecs in
  let out := fst (CalcCorrelationsFromHamiltonian magdyn (bands 1 (-1))
                    (diag2 1 (-1)) (tl2.unit 2) (diag2 1 (-1)) Q0 evecs) in
  (N <> 0%nat /\ size1 T = (2 * N)%nat /\
   forall i j, (i < 2 * N)%nat -> (j < 2 * N)%nat ->
     elem (tl2.mul T (tl2.herm T)) i j = elem (tl2.unit (2 * N)) i j) /\
  Cplx.sum (fun k => elem (EnergyAndWeight.S (nth k out EnergyAndWeight.init))
                          0 0) (length out)
  = Cplx.divr (tl2.trace M) (INR (2 * N)).
Proof.
  intros N M T out.
  assert (H3 : (0 < 3)%nat) by lia.
  assert (HT : eq_on 2 T (diag2 1 1)).
  { assert (HT0 := trafo_diag2 1 (-1) 1 (-1) 1 (-1)).
    replace (-1 * -1) with 1 in HT0 by ring.
    rewrite Rmult_1_r, sqrt_1 in HT0.
    apply HT0; lra. }
  destruct (size_trafo_unit_chol (bands 1 (-1)) (diag2 1 (-1)) (diag2 1 (-1)))
    as [Hs1 Hs2].
  assert (Hunit : forall i j, (i < 2 * N)%nat -> (j < 2 * N)%nat ->
            elem (tl2.mul T (tl2.herm T)) i j = elem (tl2.unit (2 * N)) i j).
  { change (2 * N)%nat with 2%nat.
    apply (eq_on_trans 2 _ (tl2.mul (diag2 1 1) (tl2.herm (diag2 1 1)))).
    - apply (eq_on_mul 2); [exact Hs2|reflexivity|exact HT|].
      now apply eq_on_herm.
    - intros i j Hi Hj. two_by_two i j Hi Hj; apply cplx_eq; simpl; ring. }
  split; [split; [exact one_site|split; [exact Hs1|exact Hunit]]|].
  exact (C3_band_sum_is_trace_for_unitary_transform magdyn (bands 1 (-1))
           (diag2 1 (-1)) (tl2.unit 2) (diag2 1 (-1)) Q0 evecs 0 0
           H3 H3 one_site Hs1 Hunit).
Defined.

(** C4 as stated fails.  The caller hands in the energies [2] and [1],
    which are not those of the Hamiltonian [diag(1, 2)]; the records keep
    the order of the energies handed in and get the energies [1] and [2]. *)
Lemma C4_counterexample :
  let out := fst (CalcCorrelationsFromHamiltonian magdyn (bands 2 1)
                    (diag2 1 2) (tl2.unit 2) (diag2 1 1) Q0 evecs) in
  GetMagneticSitesCount magdyn <> 0%nat /\
  length out = 2%nat /\
  EnergyAndWeight.E (nth 0 out EnergyAndWeight.init) = 1 /\
  EnergyAndWeight.E (nth 1 out EnergyAndWeight.init) = 2 /\
  ~ (EnergyAndWeight.E (nth 0 out EnergyAndWeight.init) >=
     EnergyAndWeight.E (nth 1 out EnergyAndWeight.init)).
Proof.
  intros out.
  assert (He : 2 > 1) by lra.
  assert (E0 : EnergyAndWeight.E (nth 0 out EnergyAndWeight.init) = 1).
  { unfold out. rewrite E_CalcCorrelations by (try exact one_site; simpl; lia).
    now rewrite (energy_mat_diag2 2 1 1 2 He) by lia. }
  assert (E1 : EnergyAndWeight.E (nth 1 out EnergyAndWeight.init) = 2).
  { unfold out. rewrite E_CalcCorrelations by (try exact one_site; simpl; lia).
    now rewrite (energy_mat_diag2 2 1 1 2 He) by lia. }
  split; [exact one_site|]. split; [now apply length_out_example|].
  split; [exact E0|]. split; [exact E1|].
  rewrite E0, E1. lra.
Qed.

(** C4 (amended) on the one-site system: the energies [1] and [-1] handed in
    are those of the Hamiltonian [diag(1, -1)]. *)
Lemma C4_witness :
  let V0 := tl2.create_cols evecs in
  let out := fst (CalcCorrelationsFromHamiltonian magdyn (bands 1 (-1))
                    (diag2 1 (-1)) (tl2.unit 2) (diag2 1 (-1)) Q0 evecs) in
  (GetMagneticSitesCount magdyn <> 0%nat /\
   length (bands 1 (-1)) = length evecs /\
   Forall (fun v : t_vec => length v = 2%nat) evecs /\
   (forall i, (i < length (bands 1 (-1)))%nat ->
      EnergyAndWeight.E (nth i (bands 1 (-1)) EnergyAndWeight.init) =
      real (elem (tl2.mul (tl2.mul (tl2.herm V0) (diag2 1 (-1))) V0) i i)) /\
   (1 < length out)%nat) /\
  EnergyAndWeight.E (nth 0 out EnergyAndWeight.init) >=
  EnergyAndWeight.E (nth 1 out EnergyAndWeight.init).
Proof.
  intros V0 out.
  assert (Hlen : length (bands 1 (-1)) = length evecs) by reflexivity.
  assert (Hd : Forall (fun v : t_vec => length v = 2%nat) evecs)
    by (repeat constructor).
  assert (Hcons : forall i, (i < length (bands 1 (-1)))%nat ->
      EnergyAndWeight.E (nth i (bands 1 (-1)) EnergyAndWeight.init) =
      real (elem (tl2.mul (tl2.mul (tl2.herm V0) (diag2 1 (-1))) V0) i i)).
  { intros i Hi. simpl in Hi.
    destruct i as [|[|i]]; [| |lia]; simpl; ring. }
  assert (Hk : (1 < length out)%nat)
    by (unfold out; rewrite length_out_example; [lia|reflexivity]).
  split;
    [split; [exact one_site|split; [exact Hlen|split;
       [exact Hd|split; [exact Hcons|exact Hk]]]]|].
  exact (C4_output_sorted_for_consistent_energies magdyn (bands 1 (-1))
           (diag2 1 (-1)) (tl2.unit 2) (diag2 1 (-1)) Q0 evecs 2 0
           one_site Hlen Hd Hcons Hk).
Defined.

(** C5 on the system with temperature 1: band 0 is multiplied by the Bose
    factor before the form-factor step. *)
Lemma C5_witness :
  let energies := bands 1 (-1) in
  let b := nth 0 energies EnergyAndWeight.init in
  let b' := nth 0 (CalcIntensities magdyn_weighted Qx energies)
              EnergyAndWeight.init in
  ((0 < length energies)%nat /\ m_temperature magdyn_weighted >= 0) /\
  EnergyAndWeight.S b' =
  form_factor_on magdyn_weighted Qx (m_magffact magdyn_weighted)
    (tl2.scale (EnergyAndWeight.S b)
       (bose_cutoff (EnergyAndWeight.E b) (m_temperature magdyn_weighted)
          (m_bose_cutoff magdyn_weighted))).
Proof.
  intros energies b b'.
  assert (Hk : (0 < length energies)%nat) by (simpl; lia).
  assert (HT : m_temperature magdyn_weighted >= 0) by (simpl; lra).
  split; [split; [exact Hk|exact HT]|].
  exact (proj1 (C5_bose_weighting magdyn_weighted Qx energies 0 Hk) HT).
Defined.

(** C8 on the system with the form factor "Q": band 0 is multiplied by the
    real part of the value of the expression. *)
Lemma C8_witness :
  let energies := bands 1 (-1) in
  let b := nth 0 energies EnergyAndWeight.init in
  let b' := nth 0 (CalcIntensities magdyn_weighted Qx energies)
              EnergyAndWeight.init in
  let Q_abs := tl2.norm (tl2.mul_vec_real (m_xtalB magdyn_weighted) Qx) in
  let magffact := register_var (m_magffact magdyn_weighted) "Q" Q_abs in
  ((0 < length energies)%nat /\
   m_magffact_formula magdyn_weighted <> ""%string) /\
  EnergyAndWeight.S b' =
  tl2.scale (S_after_bose magdyn_weighted b) (real (eval_noexcept magffact)).
Proof.
  intros energies b b' Q_abs magffact.
  assert (Hk : (0 < length energies)%nat) by (simpl; lia).
  assert (Hf : m_magffact_formula magdyn_weighted <> ""%string)
    by (simpl; discriminate).
  split; [split; [exact Hk|exact Hf]|].
  exact (proj1 (proj1 (C8_form_factor magdyn_weighted Qx energies 0 Hk) Hf)).
Defined.

(** without Bose weighting and form factor the tensor is handed on as it
    is *)
Lemma S_unweighted (Q_rlu : t_vec_real) magffact (b : EnergyAndWeight.t) :
  EnergyAndWeight.S (fst (intensity_body magdyn Q_rlu magffact b)) =
  EnergyAndWeight.S b.
Proof.
  rewrite S_intensity_body. unfold form_factor_on, S_after_bose. simpl.
  destruct (Rge_dec (-1) 0) as [Hge|_]; [lra|reflexivity].
Qed.

Lemma diag3_hermitian (a b c : R) : hermitian (diag3 a b c).
Proof.
  intros i j. simpl. rewrite (Nat.eqb_sym j i).
  destruct (Nat.eqb_spec i j) as [->|_]; apply cplx_eq; simpl; ring.
Qed.

(** C6 as stated fails.  The tensor [diag(1, -1, 0)] is Hermitian; with
    [Q = (1, 0, 0)], Bose weighting and form factor switched off, the
    routine gives [weight_full = |trace(S)| = 0] and
    [weight = |trace(P S P)| = 1]. *)
Lemma C6_counterexample :
  let S_in := diag3 1 (-1) 0 in
  let b' := nth 0 (CalcIntensities magdyn Qx [band 0 S_in])
              EnergyAndWeight.init in
  hermitian S_in /\
  EnergyAndWeight.weight_full b' = 0 /\
  EnergyAndWeight.weight b' = 1 /\
  ~ (EnergyAndWeight.weight b' <= EnergyAndWeight.weight_full b').
Proof.
  intros S_in b'.
  assert (Hb : b' = fst (intensity_body magdyn Qx [] (band 0 S_in))).
  { unfold b', CalcIntensities; cbv zeta.
    rewrite nth_intensity_loop by (simpl; lia). reflexivity. }
  destruct (weights_intensity_body magdyn Qx [] (band 0 S_in)) as [Hfull Hperp].
  cbv zeta in Hfull, Hperp. rewrite <- Hb in Hfull, Hperp.
  rewrite Hb in Hfull at 2. rewrite Hb in Hperp at 2.
  rewrite S_unweighted in Hfull, Hperp. simpl EnergyAndWeight.S in Hfull, Hperp.
  assert (Hf0 : real (tl2.trace S_in) = 0)
    by (unfold tl2.trace; simpl; ring).
  assert (Hp1 : real (tl2.trace
                  (tl2.mul (tl2.mul (tl2.ortho_projector Qx) S_in)
                     (tl2.ortho_projector Qx))) = -1).
  { unfold tl2.trace, tl2.ortho_projector, tl2.inner, tl2.at_real. simpl.
    field. }
  rewrite Hf0, Rabs_R0 in Hfull.
  assert (Habs : Rabs (-1) = 1)
    by (unfold Rabs; destruct (Rcase_abs (-1)); lra).
  rewrite Hp1, Habs in Hperp.
  split; [apply diag3_hermitian|].
  split; [exact Hfull|]. split; [exact Hperp|].
  rewrite Hfull, Hperp. lra.
Qed.

Lemma unit3_pos_semidef : pos_semidef (diag3 1 1 1).
Proof.
  intros v. unfold quad_form. simpl.
  set (a0 := real (tl2.at_ v 0)). set (b0 := imag (tl2.at_ v 0)).
  set (a1 := real (tl2.at_ v 1)). set (b1 := imag (tl2.at_ v 1)).
  set (a2 := real (tl2.at_ v 2)). set (b2 := imag (tl2.at_ v 2)).
  replace (_ + _) with (a0 * a0 + b0 * b0 + (a1 * a1 + b1 * b1) +
                        (a2 * a2 + b2 * b2)) by ring.
  nra.
Qed.

(** C6 (amended) on the one-site system: the unit tensor is positive
    semi-definite and [Q = (1, 0, 0)] has length one. *)
Lemma C6_witness :
  let energies := [band 0 (diag3 1 1 1)] in
  let b := nth 0 energies EnergyAndWeight.init in
  let b' := nth 0 (CalcIntensities magdyn Qx energies) EnergyAndWeight.init in
  ((0 < length energies)%nat /\ length Qx = 3%nat /\ tl2.inner Qx Qx <> 0 /\
   size1 (EnergyAndWeight.S b) = 3%nat /\ size2 (EnergyAndWeight.S b) = 3%nat /\
   pos_semidef (EnergyAndWeight.S b)) /\
  EnergyAndWeight.weight b' <= EnergyAndWeight.weight_full b'.
Proof.
  intros energies b b'.
  assert (Hk : (0 < length energies)%nat) by (simpl; lia).
  assert (HQ : length Qx = 3%nat) by reflexivity.
  assert (Hn : tl2.inner Qx Qx <> 0)
    by (unfold tl2.inner, tl2.at_real; simpl; lra).
  assert (H1 : size1 (EnergyAndWeight.S b) = 3%nat) by reflexivity.
  assert (H2 : size2 (EnergyAndWeight.S b) = 3%nat) by reflexivity.
  assert (Hpsd : pos_semidef (EnergyAndWeight.S b)) by exact unit3_pos_semidef.
  split; [repeat split; assumption|].
  exact (C6_weight_le_weight_full_for_semidefinite_S magdyn Qx energies 0
           Hk HQ Hn H1 H2 Hpsd).
Defined.

(* ------------------------------------------------------------------ *)
(** ** The further properties on the small system *)
(* ------------------------------------------------------------------ *)


Lemma sites_wf_example : sites_wf magdyn 3.
Proof.
  intros i Hi. unfold GetMagneticSitesCount in Hi. simpl in Hi.
  destruct i as [|i]; [|lia].
  split; [simpl; lra|]. split; [reflexivity|].
  intros x Hx. destruct x as [|[|[|x]]]; [| | |lia];
    apply cplx_eq; simpl; ring.
Qed.

Lemma size1_trafo_example :
  size1 (trafo_at (bands 1 (-1)) (diag2 1 (-1)) (tl2.unit 2) (diag2 1 (-1))
           evecs) = (2 * GetMagneticSitesCount magdyn)%nat.
Proof. apply size_trafo_unit_chol. Qed.

(** X1 on the one-site system. *)
Lemma X1_witness :
  let b := nth 0 (fst (CalcCorrelationsFromHamiltonian magdyn (bands 1 (-1))
                         (diag2 1 (-1)) (tl2.unit 2) (diag2 1 (-1)) Q0 evecs))
             EnergyAndWeight.init in
  (GetMagneticSitesCount magdyn <> 0%nat /\ (0 < length evecs)%nat) /\
  size1 (EnergyAndWeight.S b) = 3%nat /\
  size2 (EnergyAndWeight.S b) = 3%nat /\
  EnergyAndWeight.S_perp b = tl2.zero 3 3 /\
  EnergyAndWeight.S_sum b = Cplx.C0 /\
  EnergyAndWeight.S_perp_sum b = Cplx.C0 /\
  EnergyAndWeight.weight_full b = 0 /\
  EnergyAndWeight.weight b = 0.
Proof.
  intros b.
  assert (Hk : (0 < length evecs)%nat) by (simpl; lia).
  split; [split; [exact one_site|exact Hk]|].
  exact (X1_records_are_reset magdyn (bands 1 (-1)) (diag2 1 (-1)) (tl2.unit 2)
           (diag2 1 (-1)) Q0 evecs 0 one_site Hk).
Defined.

(** X3: two record lists with the energies [1] and [-1] and different
    tensors. *)
Lemma X3_witness :
  let e2 := [band 1 (diag3 1 1 1); band (-1) (diag3 1 (-1) 0)] in
  (GetMagneticSitesCount magdyn <> 0%nat /\
   map EnergyAndWeight.E (bands 1 (-1)) = map EnergyAndWeight.E e2) /\
  CalcCorrelationsFromHamiltonian magdyn (bands 1 (-1)) (diag2 1 (-1))
    (tl2.unit 2) (diag2 1 (-1)) Q0 evecs =
  CalcCorrelationsFromHamiltonian magdyn e2 (diag2 1 (-1))
    (tl2.unit 2) (diag2 1 (-1)) Q0 evecs.
Proof.
  intros e2.
  assert (Hm : map EnergyAndWeight.E (bands 1 (-1)) = map EnergyAndWeight.E e2)
    by reflexivity.
  split; [split; [exact one_site|exact Hm]|].
  exact (X3_only_input_energies_matter magdyn (bands 1 (-1)) e2 (diag2 1 (-1))
           (tl2.unit 2) (diag2 1 (-1)) Q0 evecs one_site Hm).
Defined.

(** X4 on the second system, whose transform is not unitary. *)
Lemma X4_witness :
  let N := GetMagneticSitesCount magdyn in
  let M := M_of magdyn Q0 0 0 in
  let T := trafo_at (bands 81 (-169)) H_K chol_K g_pm evecs_K in
  let out := fst (CalcCorrelationsFromHamiltonian magdyn (bands 81 (-169)) H_K
                    chol_K g_pm Q0 evecs_K) in
  ((0 < 3)%nat /\ N <> 0%nat) /\
  Cplx.sum (fun k => elem (EnergyAndWeight.S (nth k out EnergyAndWeight.init))
                          0 0) (length out)
  = Cplx.divr (tl2.trace (tl2.mul (tl2.mul (tl2.herm T) M) T)) (INR (2 * N)).
Proof.
  intros N M T out.
  assert (H3 : (0 < 3)%nat) by lia.
  split; [split; [exact H3|exact one_site]|].
  exact (X4_band_sum_is_trace_of_transformed_M magdyn (bands 81 (-169)) H_K
           chol_K g_pm Q0 evecs_K 0 0 H3 H3 one_site).
Defined.

(** X5 with energies handed in that are not those of the Hamiltonian. *)
Lemma X5_witness :
  let V0 := tl2.create_cols evecs in
  let out := fst (CalcCorrelationsFromHamiltonian magdyn (bands 2 1)
                    (diag2 1 2) (tl2.unit 2) (diag2 1 1) Q0 evecs) in
  (GetMagneticSitesCount magdyn <> 0%nat /\
   length (bands 2 1) = length evecs /\
   Forall (fun v : t_vec => length v = 2%nat) evecs) /\
  Permutation
    (map EnergyAndWeight.E out)
    (map (fun i => real (elem (tl2.mul (tl2.mul (tl2.herm V0) (diag2 1 2)) V0) i i))
         (seq 0 (length evecs))).
Proof.
  intros V0 out.
  assert (Hlen : length (bands 2 1) = length evecs) by reflexivity.
  assert (Hd : Forall (fun v : t_vec => length v = 2%nat) evecs)
    by (repeat constructor).
  split; [split; [exact one_site|split; [exact Hlen|exact Hd]]|].
  exact (X5_output_energies_are_permuted_diagonal magdyn (bands 2 1) (diag2 1 2)
           (tl2.unit 2) (diag2 1 1) Q0 evecs 2 one_site Hlen Hd).
Defined.

(** X6 on the one-site system. *)
Lemma X6_witness :
  let N := GetMagneticSitesCount magdyn in
  let T := trafo_at (bands 1 (-1)) (diag2 1 (-1)) (tl2.unit 2) (diag2 1 (-1))
             evecs in
  let out := fst (CalcCorrelationsFromHamiltonian magdyn (bands 1 (-1))
                    (diag2 1 (-1)) (tl2.unit 2) (diag2 1 (-1)) Q0 evecs) in
  (N <> 0%nat /\ sites_wf magdyn 3 /\ size1 T = (2 * N)%nat /\
   (0 < 3)%nat /\ (1 < 3)%nat /\ (0 < length evecs)%nat) /\
  elem (EnergyAndWeight.S (nth 0 out EnergyAndWeight.init)) 0 1 =
  Cplx.divr
    (Cplx.mul (band_amplitude magdyn T Q0 0 0)
              (Cplx.conj (band_amplitude magdyn T Q0 1 0)))
    (INR (2 * N)).
Proof.
  intros N T out.
  assert (H0 : (0 < 3)%nat) by lia.
  assert (H1 : (1 < 3)%nat) by lia.
  assert (Hk : (0 < length evecs)%nat) by (simpl; lia).
  split; [split; [exact one_site|split; [exact sites_wf_example|split;
            [exact size1_trafo_example|split; [exact H0|split;
               [exact H1|exact Hk]]]]]|].
  exact (X6_tensor_is_product_of_amplitudes magdyn (bands 1 (-1)) (diag2 1 (-1))
           (tl2.unit 2) (diag2 1 (-1)) Q0 evecs 3 0 1 0
           one_site sites_wf_example size1_trafo_example H0 H1 Hk).
Defined.

(** X7 on the one-site system. *)
Lemma X7_witness :
  let N := GetMagneticSitesCount magdyn in
  let T := trafo_at (bands 1 (-1)) (diag2 1 (-1)) (tl2.unit 2) (diag2 1 (-1))
             evecs in
  let S_k := EnergyAndWeight.S
               (nth 0 (fst (CalcCorrelationsFromHamiltonian magdyn (bands 1 (-1))
                              (diag2 1 (-1)) (tl2.unit 2) (diag2 1 (-1)) Q0
                              evecs)) EnergyAndWeight.init) in
  (N <> 0%nat /\ sites_wf magdyn 3 /\ size1 T = (2 * N)%nat /\
   (0 < length evecs)%nat) /\
  eq_on 3 S_k (tl2.herm S_k) /\ pos_semidef S_k.
Proof.
  intros N T S_k.
  assert (Hk : (0 < length evecs)%nat) by (simpl; lia).
  split; [split; [exact one_site|split; [exact sites_wf_example|split;
            [exact size1_trafo_example|exact Hk]]]|].
  exact (X7_tensor_is_hermitian_and_semidefinite magdyn (bands 1 (-1))
           (diag2 1 (-1)) (tl2.unit 2) (diag2 1 (-1)) Q0 evecs 3 0
           one_site sites_wf_example size1_trafo_example Hk).
Defined.

Lemma inner_Qx : tl2.inner Qx Qx <> 0.
Proof. unfold tl2.inner, tl2.at_real; simpl; lra. Qed.

(** X8 on the one-site system with [Q_rlu = (1, 0, 0)]. *)
Lemma X8_witness :
  let N := GetMagneticSitesCount magdyn in
  let T := trafo_at (bands 1 (-1)) (diag2 1 (-1)) (tl2.unit 2) (diag2 1 (-1))
             evecs in
  let out := fst (CalcCorrelationsFromHamiltonian magdyn (bands 1 (-1))
                    (diag2 1 (-1)) (tl2.unit 2) (diag2 1 (-1)) Q0 evecs) in
  let b' := nth 0 (CalcIntensities magdyn Qx out) EnergyAndWeight.init in
  (N <> 0%nat /\ sites_wf magdyn 3 /\ size1 T = (2 * N)%nat /\
   length Qx = 3%nat /\ tl2.inner Qx Qx <> 0 /\ (0 < length evecs)%nat) /\
  EnergyAndWeight.weight b' <= EnergyAndWeight.weight_full b'.
Proof.
  intros N T out b'.
  assert (HQ : length Qx = 3%nat) by reflexivity.
  assert (Hk : (0 < length evecs)%nat) by (simpl; lia).
  split; [split; [exact one_site|split; [exact sites_wf_example|split;
            [exact size1_trafo_example|split; [exact HQ|split;
               [exact inner_Qx|exact Hk]]]]]|].
  exact (X8_pipeline_weight_le_weight_full magdyn (bands 1 (-1)) (diag2 1 (-1))
           (tl2.unit 2) (diag2 1 (-1)) Q0 Qx evecs 3 0
           one_site sites_wf_example size1_trafo_example HQ inner_Qx Hk).
Defined.

(** X9: the one-site system moved by [(1, 2, 3)]. *)
Lemma X9_witness :
  Forall (fun s => length (pos_calc s) = 3%nat) (m_sites magdyn) /\
  CalcCorrelationsFromHamiltonian (shift_sites magdyn [1; 2; 3]) (bands 1 (-1))
    (diag2 1 (-1)) (tl2.unit 2) (diag2 1 (-1)) Qx evecs =
  CalcCorrelationsFromHamiltonian magdyn (bands 1 (-1))
    (diag2 1 (-1)) (tl2.unit 2) (diag2 1 (-1)) Qx evecs.
Proof.
  assert (Hd : Forall (fun s => length (pos_calc s) = 3%nat) (m_sites magdyn))
    by (repeat constructor).
  split; [exact Hd|].
  exact (X9_translation_invariance magdyn [1; 2; 3] 3 (bands 1 (-1))
           (diag2 1 (-1)) (tl2.unit 2) (diag2 1 (-1)) Qx evecs Hd).
Defined.

(** X11: two records with the same energy and tensor and different
    remaining members. *)
Lemma X11_witness :
  let l1 := [band 1 (diag3 1 1 1)] in
  let l2 := [EnergyAndWeight.mk 1 (diag3 1 1 1) (diag3 1 (-1) 0)
               Cplx.C1 Cplx.s_imag 5 7] in
  (map EnergyAndWeight.E l1 = map EnergyAndWeight.E l2 /\
   map EnergyAndWeight.S l1 = map EnergyAndWeight.S l2) /\
  CalcIntensities magdyn_weighted Qx l1 = CalcIntensities magdyn_weighted Qx l2.
Proof.
  intros l1 l2.
  assert (HE : map EnergyAndWeight.E l1 = map EnergyAndWeight.E l2)
    by reflexivity.
  assert (HS : map EnergyAndWeight.S l1 = map EnergyAndWeight.S l2)
    by reflexivity.
  split; [split; [exact HE|exact HS]|].
  exact (X11_intensities_read_E_and_S_only magdyn_weighted Qx l1 l2 HE HS).
Defined.

(** X12 on the system with Bose weighting and form factor. *)
Lemma X12_witness :
  let energies := [band 1 (diag3 1 1 1)] in
  let b := nth 0 energies EnergyAndWeight.init in
  let b' := nth 0 (CalcIntensities magdyn_weighted Qx energies)
              EnergyAndWeight.init in
  let c := intensity_factor magdyn_weighted Qx (m_magffact magdyn_weighted) b in
  let P := tl2.ortho_projector Qx in
  (0 < length energies)%nat /\
  EnergyAndWeight.weight_full b' =
    Rabs c * Rabs (real (tl2.trace (EnergyAndWeight.S b))) /\
  EnergyAndWeight.weight b' =
    Rabs c * Rabs (real (tl2.trace
                           (tl2.mul (tl2.mul P (EnergyAndWeight.S b)) P))).
Proof.
  intros energies b b' c P.
  assert (Hk : (0 < length energies)%nat) by (simpl; lia).
  split; [exact Hk|].
  exact (X12_weights_scale_with_factor magdyn_weighted Qx energies 0 Hk).
Defined.

(** X13 with the tensor [diag(1, -1, 0)] and [Q_rlu = (1, 0, 0)]. *)
Lemma X13_witness :
  let energies := [band 0 (diag3 1 (-1) 0)] in
  let b := nth 0 energies EnergyAndWeight.init in
  let b' := nth 0 (CalcIntensities magdyn Qx energies) EnergyAndWeight.init in
  ((0 < length energies)%nat /\ length Qx = 3%nat /\ tl2.inner Qx Qx <> 0 /\
   size1 (EnergyAndWeight.S b) = 3%nat /\ size2 (EnergyAndWeight.S b) = 3%nat) /\
  EnergyAndWeight.S_perp_sum b' =
  Cplx.sub (EnergyAndWeight.S_sum b')
    (Cplx.divr (along (EnergyAndWeight.S b') Qx) (tl2.inner Qx Qx)).
Proof.
  intros energies b b'.
  assert (Hk : (0 < length energies)%nat) by (simpl; lia).
  assert (HQ : length Qx = 3%nat) by reflexivity.
  assert (H1 : size1 (EnergyAndWeight.S b) = 3%nat) by reflexivity.
  assert (H2 : size2 (EnergyAndWeight.S b) = 3%nat) by reflexivity.
  split; [split; [exact Hk|split; [exact HQ|split;
            [exact inner_Qx|split; [exact H1|exact H2]]]]|].
  exact (X13_projected_sum_closed_form magdyn Qx energies 0 Hk HQ inner_Qx H1 H2).
Defined.

(** X14 on the system without Bose weighting and form factor. *)
Lemma X14_witness :
  (m_temperature magdyn < 0 /\ m_magffact_formula magdyn = ""%string) /\
  CalcIntensities magdyn Qx (CalcIntensities magdyn Qx (bands 1 (-1))) =
  CalcIntensities magdyn Qx (bands 1 (-1)).
Proof.
  assert (HT : m_temperature magdyn < 0) by (simpl; lra).
  assert (Hf : m_magffact_formula magdyn = ""%string) by reflexivity.
  split; [split; [exact HT|exact Hf]|].
  exact (X14_unweighted_intensities_idempotent magdyn Qx (bands 1 (-1)) HT Hf).
Defined.

(** X15 on the one-site system. *)
Lemma X15_witness :
  let N := GetMagneticSitesCount magdyn in
  (sites_wf magdyn 3 /\ (0 < 3)%nat /\ (1 < 3)%nat /\
   (0 < 2 * N)%nat /\ (1 < 2 * N)%nat) /\
  elem (M_of magdyn Qx 0 1) 0 1 =
    Cplx.mul (site_vector magdyn Qx 0 0)
             (Cplx.conj (site_vector magdyn Qx 1 1)) /\
  elem (M_of magdyn Qx 0 1) 0 1 = Cplx.conj (elem (M_of magdyn Qx 1 0) 1 0).
Proof.
  intros N.
  assert (H0 : (0 < 3)%nat) by lia.
  assert (H1 : (1 < 3)%nat) by lia.
  assert (HI : (0 < 2 * N)%nat) by (unfold N, GetMagneticSitesCount; simpl; lia).
  assert (HJ : (1 < 2 * N)%nat) by (unfold N, GetMagneticSitesCount; simpl; lia).
  split; [split; [exact sites_wf_example|split; [exact H0|split;
            [exact H1|split; [exact HI|exact HJ]]]]|].
  exact (X15_M_is_outer_product magdyn Qx 3 0 1 0 1
           sites_wf_example H0 H1 HI HJ).
Defined.

(** X17 with the momentum vector doubled. *)
Lemma X17_witness :
  let energies := [band 0 (diag3 1 (-1) 0)] in
  let b1 := nth 0 (CalcIntensities magdyn Qx energies) EnergyAndWeight.init in
  let b2 := nth 0 (CalcIntensities magdyn (scale_vec 2 Qx) energies)
              EnergyAndWeight.init in
  ((0 < length energies)%nat /\ 2 <> 0 /\ tl2.inner Qx Qx <> 0 /\
   m_magffact_formula magdyn = ""%string) /\
  EnergyAndWeight.S_perp_sum b2 = EnergyAndWeight.S_perp_sum b1 /\
  EnergyAndWeight.weight b2 = EnergyAndWeight.weight b1.
Proof.
  intros energies b1 b2.
  assert (Hk : (0 < length energies)%nat) by (simpl; lia).
  assert (Hc : 2 <> 0) by lra.
  assert (Hf : m_magffact_formula magdyn = ""%string) by reflexivity.
  split; [split; [exact Hk|split; [exact Hc|split; [exact inner_Qx|exact Hf]]]|].
  destruct (X17_only_direction_of_Q_matters magdyn 2 Qx energies 0
              Hk Hc inner_Qx Hf) as (_ & _ & _ & _ & Hsum & Hw).
  split; [exact Hsum|exact Hw].
Defined.
